(** * Cosmic Ink (waves-xyl): audio bands, pop signal, morphing, gesture
      mapping and the procedural shape generators.

    Shallow embedding of
      - [src/services/audioService.ts]   ([AudioService.getFrequencyData],
        [generateShapePositions]),
      - [src/components/ParticleSystem.tsx]   (the [useFrame] callback,
        [randomAttributes], the vertex and fragment programs),
      - [src/components/VisionController.tsx] (the [onResults] callback),
      - [src/App.tsx] (the audio loop and the auto-morph timer),
      - the [ShapeType] enumeration and [AudioData] interface.

    Number model.  A JavaScript [number] is an IEEE-754 double.  Finite
    doubles are idealised as real numbers (no rounding); a computation that
    would produce [NaN] or [±Infinity] (division by zero, [undefined] used
    in arithmetic, a function applied outside its domain) yields [None].
    Where rounding itself is in question (the band means of
    [getFrequencyData], the stores of the morph loop and of
    [randomAttributes] into [Float32Array]s) the same code is also given in
    the arithmetic the program runs: binary64, module [Binary64], with
    binary32 stores, module [Binary32]. *)

From Stdlib Require Import Reals Lra Lia Psatz List ZArith Bool.
From Stdlib Require Import QArith Qabs SpecFloat.
Import ListNotations.
Open Scope R_scope.

(* ================================================================== *)
(** ** JavaScript numbers and typed arrays *)

(** [None] stands for a non-finite double ([NaN], [Infinity], [-Infinity]). *)
Definition number := option R.

Definition jsadd (a b : number) : number :=
  match a, b with
  | Some u, Some v => Some (u + v)
  | _, _ => None
  end.

(** [a / b] for a finite divisor [b]: a zero divisor gives [NaN] or
    [±Infinity], a non-finite dividend stays non-finite. *)
Definition jsdiv (a : number) (b : R) : number :=
  match a with
  | Some u => if Req_dec_T b 0 then None else Some (u / b)
  | None => None
  end.

(** [a || b] on numbers: [0] is falsy. *)
Definition jsOr (a b : R) : R := if Req_dec_T a 0 then b else a.

(** [Math.floor] of a real. *)
Definition floor (r : R) : Z := Int_part r.

(** [Math.acos]: [NaN] outside [[-1, 1]]. *)
Definition Math_acos (v : R) : number :=
  if Rle_dec (-1) v then if Rle_dec v 1 then Some (acos v) else None else None.

(** [Math.sqrt]: [NaN] on negative arguments. *)
Definition Math_sqrt (v : R) : number :=
  if Rle_dec 0 v then Some (sqrt v) else None.

(** [Math.pow(b, e)] for an exponent that is not an integer (integer
    exponents are written with [^]): a negative base gives [NaN], a zero
    base gives [0], [1] or [Infinity] by the sign of [e]. *)
Definition Math_pow (b e : R) : number :=
  if Rlt_dec 0 b then Some (Rpower b e)
  else if Req_dec_T b 0 then
    (if Rlt_dec 0 e then Some 0 else if Req_dec_T e 0 then Some 1 else None)
  else None.

(** Indexed store into a typed array: out of range is silently ignored. *)
Fixpoint upd {A : Type} (l : list A) (i : nat) (v : A) : list A :=
  match l, i with
  | [], _ => []
  | _ :: t, O => v :: t
  | h :: t, S j => h :: upd t j v
  end.

(* ================================================================== *)
(** ** IEEE-754 binary64 arithmetic

    The doubles themselves, with round-to-nearest-even, signed zeros,
    infinities and [NaN], on the Standard Library's [spec_float]. *)

Module Binary64.

Definition double := spec_float.
Definition prec : Z := 53.
Definition emax : Z := 1024.

(** An integer as a double (exact up to [2^53]). *)
Definition ofZ (k : Z) : double := binary_normalize prec emax k 0 false.

Definition add : double -> double -> double := SFadd prec emax.
Definition sub : double -> double -> double := SFsub prec emax.
Definition mul : double -> double -> double := SFmul prec emax.
Definition div : double -> double -> double := SFdiv prec emax.
Definition ltb : double -> double -> bool := SFltb.

(** The literals [0.1] and [0.5]: the doubles nearest to 1/10 and 1/2. *)
Definition lit_0_1 : double := div (ofZ 1) (ofZ 10).
Definition lit_0_5 : double := div (ofZ 1) (ofZ 2).

(** [Math.floor]. *)
Definition floor (a : double) : double :=
  match a with
  | S754_finite s m e =>
      if (0 <=? e)%Z then a
      else ofZ (Z.shiftr (if s then Z.neg m else Z.pos m) (- e))
  | _ => a
  end.

(** The rational value of a finite double. *)
Definition toQ (a : double) : option Q :=
  match a with
  | S754_zero _ => Some 0%Q
  | S754_finite s m e =>
      Some (inject_Z (if s then Z.neg m else Z.pos m) * 2 ^ e)%Q
  | _ => None
  end.

(** [a] is finite and within [eps] of the rational [q]. *)
Definition near (eps q : Q) (a : double) : bool :=
  match toQ a with
  | Some v => Qle_bool (Qabs (v - q)) eps
  | None => false
  end.

(** [a <= b] on finite doubles, by their rational values. *)
Definition leq (a b : double) : bool :=
  match toQ a, toQ b with
  | Some x, Some y => Qle_bool x y
  | _, _ => false
  end.

(** The literals [0.03] and [0.05]. *)
Definition lit_0_03 : double := div (ofZ 3) (ofZ 100).
Definition lit_0_05 : double := div (ofZ 5) (ofZ 100).

End Binary64.

(* ================================================================== *)
(** ** Stores into a [Float32Array]

    A store rounds the double to the nearest binary32 value, ties to even
    ([Math.fround]).  The result is kept as a [spec_float]: every binary32
    value is a double. *)

Module Binary32.

(** Rounding to binary32 (24 bits of precision, exponents up to 128), as
    the binary32 product with 1. *)
Definition fround (a : Binary64.double) : Binary64.double :=
  SFmul 24 128 a (S754_finite false 1 0).

End Binary32.

(* ================================================================== *)
(** ** [AudioService.getFrequencyData] *)

Module AudioService.

(** The part of a Web Audio [AnalyserNode] the service uses: the bin
    count and the magnitudes that [getByteFrequencyData] would copy out
    at this instant. *)
Record AnalyserNode := mkAnalyser {
  frequencyBinCount : nat;
  byteFrequencyData : list Z
}.

Record t := mkService {
  analyser : option AnalyserNode;
  dataArray : option (list Z)
}.

Record Bands := mkBands { bass : number; mid : number; treble : number }.

(** [analyser.getByteFrequencyData(arr)]: overwrite [arr] in place with
    the current magnitudes, as far as both reach. *)
Definition getByteFrequencyData (a : AnalyserNode) (arr : list Z) : list Z :=
  firstn (length arr) (byteFrequencyData a)
    ++ skipn (length (byteFrequencyData a)) arr.

(** One iteration of the accumulation loop. *)
Definition bandStep (data : list Z) (bassRange midRange : Z)
    (acc : number * number * number) (i : nat) : number * number * number :=
  let '(b, m, t) := acc in
  let val := jsdiv (option_map IZR (nth_error data i)) 255 in
  if (Z.of_nat i <? bassRange)%Z then (jsadd b val, m, t)
  else if (Z.of_nat i <? midRange)%Z then (b, jsadd m val, t)
  else (b, m, jsadd t val).

Definition bandLoop (data : list Z) (bufferLength : nat)
    (bassRange midRange : Z) : number * number * number :=
  fold_left (bandStep data bassRange midRange) (seq 0 bufferLength)
            (Some 0, Some 0, Some 0).

(** The band computation proper, after the buffer has been filled. *)
Definition computeBands (bufferLength : nat) (data : list Z) : Bands :=
  let bassRange := floor (INR bufferLength * 0.1) in
  let midRange := floor (INR bufferLength * 0.5) in
  let '(b, m, t) := bandLoop data bufferLength bassRange midRange in
  mkBands (jsdiv b (IZR bassRange))
          (jsdiv m (IZR (midRange - bassRange)))
          (jsdiv t (IZR (Z.of_nat bufferLength - midRange))).

(** [getFrequencyData()]: the result and the service afterwards (its
    [dataArray] has been overwritten). *)
Definition getFrequencyData (s : t) : Bands * t :=
  match analyser s, dataArray s with
  | Some a, Some arr =>
      let data := getByteFrequencyData a arr in
      (computeBands (frequencyBinCount a) data, mkService (Some a) (Some data))
  | _, _ => (mkBands (Some 0) (Some 0) (Some 0), s)
  end.

(** *** The same computation on doubles *)

Record Bands64 := mkBands64 {
  bass64 : Binary64.double;
  mid64 : Binary64.double;
  treble64 : Binary64.double
}.

(** [dataArray[i]] as a number: [undefined] converts to [NaN]. *)
Definition element64 (data : list Z) (i : nat) : Binary64.double :=
  match nth_error data i with
  | Some d => Binary64.ofZ d
  | None => S754_nan
  end.

Definition bandStep64 (data : list Z) (bassRange midRange : Binary64.double)
    (acc : Binary64.double * Binary64.double * Binary64.double) (i : nat)
    : Binary64.double * Binary64.double * Binary64.double :=
  let '(b, m, t) := acc in
  let val := Binary64.div (element64 data i) (Binary64.ofZ 255) in
  if Binary64.ltb (Binary64.ofZ (Z.of_nat i)) bassRange
  then (Binary64.add b val, m, t)
  else if Binary64.ltb (Binary64.ofZ (Z.of_nat i)) midRange
  then (b, Binary64.add m val, t)
  else (b, m, Binary64.add t val).

Definition computeBands64 (bufferLength : nat) (data : list Z) : Bands64 :=
  let len := Binary64.ofZ (Z.of_nat bufferLength) in
  let bassRange := Binary64.floor (Binary64.mul len Binary64.lit_0_1) in
  let midRange := Binary64.floor (Binary64.mul len Binary64.lit_0_5) in
  let '(b, m, t) :=
    fold_left (bandStep64 data bassRange midRange) (seq 0 bufferLength)
              (Binary64.ofZ 0, Binary64.ofZ 0, Binary64.ofZ 0) in
  mkBands64 (Binary64.div b bassRange)
            (Binary64.div m (Binary64.sub midRange bassRange))
            (Binary64.div t (Binary64.sub len midRange)).

Definition getFrequencyData64 (s : t) : Bands64 * t :=
  match analyser s, dataArray s with
  | Some a, Some arr =>
      let data := getByteFrequencyData a arr in
      (computeBands64 (frequencyBinCount a) data, mkService (Some a) (Some data))
  | _, _ => (mkBands64 (Binary64.ofZ 0) (Binary64.ofZ 0) (Binary64.ofZ 0), s)
  end.

(** Every band of [b] is finite and within [eps] of [m / 255]. *)
Definition flat64 (eps : Q) (m : Z) (b : Bands64) : bool :=
  Binary64.near eps (inject_Z m / 255) (bass64 b)
  && Binary64.near eps (inject_Z m / 255) (mid64 b)
  && Binary64.near eps (inject_Z m / 255) (treble64 b).

End AudioService.

(* ================================================================== *)
(** ** [generateShapePositions] *)

Module ShapeGenerator.

Inductive ShapeType :=
| NEBULA | HEART | FLOWER | SATURN | CAKE | FIREWORKS | SPIRAL
| LEMNISCATE | KOCH | ASTROID | BUTTERFLY | CATENOID | ROSE.

(** *** The [THREE.Vector3] and [THREE.Quaternion] operations in use *)

Record Vector3 := vec { vx : R; vy : R; vz : R }.
Record Quaternion := quat { qx : R; qy : R; qz : R; qw : R }.

Definition setX (v : Vector3) (a : R) : Vector3 := vec a (vy v) (vz v).
Definition setY (v : Vector3) (a : R) : Vector3 := vec (vx v) a (vz v).
Definition setZ (v : Vector3) (a : R) : Vector3 := vec (vx v) (vy v) a.

Definition setFromSphericalCoords (radius phi theta : R) : Vector3 :=
  let sinPhiRadius := sin phi * radius in
  vec (sinPhiRadius * sin theta) (cos phi * radius) (sinPhiRadius * cos theta).

Definition multiplyScalar (v : Vector3) (s : R) : Vector3 :=
  vec (vx v * s) (vy v * s) (vz v * s).

Definition sub (v w : Vector3) : Vector3 :=
  vec (vx v - vx w) (vy v - vy w) (vz v - vz w).

Definition add (v w : Vector3) : Vector3 :=
  vec (vx v + vx w) (vy v + vy w) (vz v + vz w).

Definition lengthSq (v : Vector3) : R :=
  vx v * vx v + vy v * vy v + vz v * vz v.

Definition Vector3_length (v : Vector3) : R := sqrt (lengthSq v).

(** [divideScalar(s)] is [multiplyScalar(1 / s)]; its only caller is
    [normalize], whose divisor [length() || 1] is never zero. *)
Definition divideScalar (v : Vector3) (s : R) : Vector3 :=
  multiplyScalar v (1 / s).

Definition normalize (v : Vector3) : Vector3 :=
  divideScalar v (jsOr (Vector3_length v) 1).

Definition setFromAxisAngle (axis : Vector3) (angle : R) : Quaternion :=
  let halfAngle := angle / 2 in
  let s := sin halfAngle in
  quat (vx axis * s) (vy axis * s) (vz axis * s) (cos halfAngle).

Definition applyQuaternion (v : Vector3) (q : Quaternion) : Vector3 :=
  let tx := 2 * (qy q * vz v - qz q * vy v) in
  let ty := 2 * (qz q * vx v - qx q * vz v) in
  let tz := 2 * (qx q * vy v - qy q * vx v) in
  vec (vx v + qw q * tx + qy q * tz - qz q * ty)
      (vy v + qw q * ty + qz q * tx - qx q * tz)
      (vz v + qw q * tz + qx q * ty - qy q * tx).

Definition applyAxisAngle (v axis : Vector3) (angle : R) : Vector3 :=
  applyQuaternion v (setFromAxisAngle axis angle).

(** *** Random draws

    [Math.random()] is modelled by an explicit stream of draws and a
    cursor into it: the [k]-th call of a run returns [draws k].  [None]
    means the run produced a non-finite number or raised. *)

Definition Gen (A : Type) : Type := (nat -> R) -> nat -> option (A * nat).

Definition ret {A : Type} (a : A) : Gen A := fun _ n => Some (a, n).

Definition bind {A B : Type} (m : Gen A) (k : A -> Gen B) : Gen B :=
  fun draws n =>
    match m draws n with
    | Some (a, n') => k a draws n'
    | None => None
    end.

Notation "x <- m ;; k" := (bind m (fun x => k))
  (at level 61, m at next level, right associativity).

Definition random : Gen R := fun draws n => Some (draws n, S n).

(** A number that has to be finite to go on. *)
Definition num (a : number) : Gen R :=
  fun _ n => match a with Some r => Some (r, n) | None => None end.

Definition div (a b : R) : Gen R := num (jsdiv (Some a) b).

(** [v[k]] on an array of vectors, used at once as an object. *)
Definition pick (v : list Vector3) (k : Z) : Gen Vector3 :=
  fun _ n =>
    if (k <? 0)%Z then None
    else match nth_error v (Z.to_nat k) with
         | Some target => Some (target, n)
         | None => None
         end.

Fixpoint forEach {S : Type} (body : S -> nat -> Gen S) (idx : list nat)
    (s : S) : Gen S :=
  match idx with
  | [] => ret s
  | i :: rest => s' <- body s i ;; forEach body rest s'
  end.

(** *** The fractal helper *)

Definition tetrahedron : list Vector3 :=
  [vec 1 1 1; vec (-1) (-1) 1; vec (-1) 1 (-1); vec 1 (-1) (-1)].

Fixpoint chaosGame (depth : nat) (current : Vector3) : Gen Vector3 :=
  match depth with
  | O => ret current
  | S d =>
      u <- random ;;
      target <- pick tetrahedron (floor (u * 4)) ;;
      chaosGame d (add (multiplyScalar (sub current target) 0.5) target)
  end.

Definition getTetrahedronPoint (radius : R) (depth : nat) : Gen Vector3 :=
  a <- random ;;
  b <- random ;;
  c <- random ;;
  let pt := multiplyScalar (normalize (vec (a - 0.5) (b - 0.5) (c - 0.5))) radius in
  current <- chaosGame depth pt ;;
  ret (multiplyScalar current (radius * 0.8)).

(** *** One sampler per shape *)

Definition nebula (radius : R) : Gen Vector3 :=
  u1 <- random ;;
  let r := u1 * radius in
  u2 <- random ;;
  let theta := u2 * PI * 2 in
  u3 <- random ;;
  phi <- num (Math_acos (2 * u3 - 1)) ;;
  let tempVec := setFromSphericalCoords r phi theta in
  let armOffset := sin (r * 0.5) in
  let nx := vx tempVec * cos armOffset - vz tempVec * sin armOffset in
  let nz := vx tempVec * sin armOffset + vz tempVec * cos armOffset in
  ret (vec nx (vy tempVec * 0.3) nz).

Definition heart : Gen Vector3 :=
  u1 <- random ;;
  let phi := u1 * PI * 2 in
  u2 <- random ;;
  let theta := u2 * PI in
  let u := phi in
  let hx := 16 * sin u ^ 3 in
  let hy := 13 * cos u - 5 * cos (2 * u) - 2 * cos (3 * u) - cos (4 * u) in
  u3 <- random ;;
  let hz := (u3 - 0.5) * 6 * sin u in
  ret (multiplyScalar (vec hx hy hz) 0.4).

Definition flower (t radius : R) : Gen Vector3 :=
  let u := t * PI * 2 * 10 in
  let r := cos (5 * u) * radius in
  q <- div (Rabs r) radius ;;
  let y_val := q ^ 2 * 5 - 2 in
  u1 <- random ;;
  ret (vec (r * cos u) (y_val + (u1 - 0.5)) (r * sin u)).

Definition saturn (i count : nat) (radius : R) : Gen Vector3 :=
  if Rlt_dec (INR i) (INR count * 0.4) then
    let r := radius * 0.6 in
    u1 <- random ;;
    let theta := u1 * PI * 2 in
    u2 <- random ;;
    phi <- num (Math_acos (2 * u2 - 1)) ;;
    ret (setFromSphericalCoords r phi theta)
  else
    u1 <- random ;;
    let angle := u1 * PI * 2 in
    u2 <- random ;;
    let dist := radius * (1.2 + u2 * 0.8) in
    let tilt := PI / 6 in
    u3 <- random ;;
    ret (applyAxisAngle
           (vec (dist * cos angle) ((u3 - 0.5) * 0.5) (dist * sin angle))
           (vec 1 0 0) tilt).

Definition cake (i count : nat) (radius : R) : Gen Vector3 :=
  rand <- random ;;
  let bottomTierR := radius in
  let topTierR := radius * 0.65 in
  let bottomH := radius * 0.5 in
  let topH := radius * 0.4 in
  tempVec <-
    (if Rgt_dec (INR i) (INR count * 0.98) then
       let candleCount := 6 in
       u1 <- random ;;
       let cIdx := IZR (floor (u1 * candleCount)) in
       let angle := (cIdx / candleCount) * PI * 2 in
       let cr := topTierR * 0.6 in
       u2 <- random ;;
       let cy := bottomH + topH + radius * 0.15 + u2 * 0.2 in
       let v0 := vec (cr * cos angle) cy (cr * sin angle) in
       u3 <- random ;;
       let v1 := setX v0 (vx v0 + (u3 - 0.5) * 0.1) in
       u4 <- random ;;
       ret (setZ v1 (vz v1 + (u4 - 0.5) * 0.1))
     else if Rgt_dec (INR i) (INR count * 0.95) then
       let candleCount := 6 in
       u1 <- random ;;
       let cIdx := IZR (floor (u1 * candleCount)) in
       let angle := (cIdx / candleCount) * PI * 2 in
       let cr := topTierR * 0.6 in
       u2 <- random ;;
       let ch := u2 * radius * 0.15 in
       ret (vec (cr * cos angle) (bottomH + topH + ch) (cr * sin angle))
     else if Rgt_dec (INR i) (INR count * 0.90) then
       u1 <- random ;;
       let angle := u1 * PI * 2 in
       u2 <- random ;;
       let isTop := if Rgt_dec u2 0.5 then true else false in
       let rBase := if isTop then topTierR else bottomTierR in
       let yBase := if isTop then bottomH + topH else bottomH in
       let rOffset := 0.5 * sin (angle * 20) in
       ret (vec ((rBase + rOffset * 0.2) * cos angle) yBase
                ((rBase + rOffset * 0.2) * sin angle))
     else if Rgt_dec (INR i) (INR count * 0.55) then
       u1 <- random ;;
       let angle := u1 * PI * 2 in
       u2 <- random ;;
       s <- num (Math_sqrt u2) ;;
       let r := s * topTierR in
       u3 <- random ;;
       let h := u3 * topH in
       ret (vec (r * cos angle) (bottomH + h) (r * sin angle))
     else
       u1 <- random ;;
       let angle := u1 * PI * 2 in
       u2 <- random ;;
       s <- num (Math_sqrt u2) ;;
       let r := s * bottomTierR in
       u3 <- random ;;
       let h := u3 * bottomH in
       ret (vec (r * cos angle) h (r * sin angle))) ;;
  ret (setY tempVec (vy tempVec - radius * 0.5)).

Definition fireworks (radius : R) : Gen Vector3 :=
  u1 <- random ;;
  let theta := u1 * PI * 2 in
  u2 <- random ;;
  phi <- num (Math_acos (2 * u2 - 1)) ;;
  u3 <- random ;;
  p <- num (Math_pow u3 0.1) ;;
  let r := p * radius * 1.5 in
  ret (setFromSphericalCoords r phi theta).

Definition spiral (t radius : R) : Gen Vector3 :=
  let loops := 4 in
  let theta := t * PI * 2 * loops in
  q <- div theta (PI * 2 * loops) ;;
  let r := q * radius * 1.5 in
  u1 <- random ;;
  let scatter := (u1 - 0.5) * (radius * 0.2) in
  u2 <- random ;;
  ret (vec ((r + scatter) * cos theta) ((u2 - 0.5) * radius * 0.1)
           ((r + scatter) * sin theta)).

Definition lemniscate (t radius : R) : Gen Vector3 :=
  let tVal := t * PI * 2 in
  let scale := radius * 1.2 in
  let sinT := sin tVal in
  let cosT := cos tVal in
  let dv := 1 + sinT * sinT in
  bx <- div (scale * cosT) dv ;;
  by_ <- div (scale * cosT * sinT) dv ;;
  u1 <- random ;;
  let thickness := (u1 - 0.5) * 2.0 in
  ret (applyAxisAngle (vec bx by_ thickness) (vec 1 0 0) (PI / 2)).

Definition koch (radius : R) : Gen Vector3 := getTetrahedronPoint radius 6.

Definition astroid (radius : R) (tempVec : Vector3) : Gen Vector3 :=
  u1 <- random ;;
  let u := u1 * PI * 2 in
  u2 <- random ;;
  let v := (u2 - 0.5) * PI in
  let r := radius * 1.2 in
  let cosU := cos u in
  let sinU := sin u in
  let cosV := cos v in
  let sinV := sin v in
  let v1 := setX tempVec (r * cosU ^ 3 * cosV ^ 3) in
  let v2 := setZ v1 (r * sinU ^ 3 * cosV ^ 3) in
  ret (setY v2 (r * sinV ^ 3)).

Definition butterfly (t radius : R) (tempVec : Vector3) : Gen Vector3 :=
  let loops := 12 in
  let tVal := t * PI * 2 * loops in
  let term := exp (cos tVal) - 2 * cos (4 * tVal) - sin (tVal / 12) ^ 5 in
  let r := radius * 0.3 * term in
  let v1 := setX tempVec (r * sin tVal) in
  let v2 := setY v1 (r * cos tVal) in
  u1 <- random ;;
  ret (setZ v2 ((u1 - 0.5) * Rabs r * 0.5)).

Definition catenoid (t radius : R) (tempVec : Vector3) : Gen Vector3 :=
  let c := radius * 0.3 in
  u1 <- random ;;
  let u := u1 * PI * 2 in
  let v := (t - 0.5) * radius * 1.5 in
  q <- div v c ;;
  let r := c * cosh q in
  let v1 := setX tempVec (r * cos u) in
  let v2 := setZ v1 (r * sin u) in
  ret (setY v2 v).

Definition rose (radius : R) : Gen Vector3 :=
  let k := 6 in
  u1 <- random ;;
  let theta := u1 * PI * 2 in
  u2 <- random ;;
  let phi := u2 * PI in
  let rBase := sin (k * theta) * sin (k * phi) in
  let r := radius * (0.5 + 0.5 * Rabs rBase) in
  ret (setFromSphericalCoords r phi theta).

(** The [switch]: the new value of the shared [tempVec].  The [default]
    arm of the source is not reachable for a value of [ShapeType]. *)
Definition shapePoint (type : ShapeType) (i count : nat) (t radius : R)
    (tempVec : Vector3) : Gen Vector3 :=
  match type with
  | NEBULA => nebula radius
  | HEART => heart
  | FLOWER => flower t radius
  | SATURN => saturn i count radius
  | CAKE => cake i count radius
  | FIREWORKS => fireworks radius
  | SPIRAL => spiral t radius
  | LEMNISCATE => lemniscate t radius
  | KOCH => koch radius
  | ASTROID => astroid radius tempVec
  | BUTTERFLY => butterfly t radius tempVec
  | CATENOID => catenoid t radius tempVec
  | ROSE => rose radius
  end.

(** The "default fallback" coordinates drawn at the top of every
    iteration; no arm of the [switch] reads them. *)
Definition fallback (radius : R) : Gen Vector3 :=
  u1 <- random ;;
  u2 <- random ;;
  u3 <- random ;;
  ret (vec ((u1 - 0.5) * 2 * radius) ((u2 - 0.5) * 2 * radius)
           ((u3 - 0.5) * 2 * radius)).

(** *** The loop *)

Definition store (positions : list R) (i : nat) (v : Vector3) : list R :=
  upd (upd (upd positions (i * 3) (vx v)) (i * 3 + 1) (vy v)) (i * 3 + 2) (vz v).

Definition iteration (type : ShapeType) (count : nat) (radius : R)
    (st : list R * Vector3) (i : nat) : Gen (list R * Vector3) :=
  t <- div (INR i) (INR count) ;;
  _ <- fallback radius ;;
  tempVec <- shapePoint type i count t radius (snd st) ;;
  ret (store (fst st) i tempVec, tempVec).

Definition generateShapePositions (type : ShapeType) (count : nat)
    (radius : R) : Gen (list R) :=
  st <- forEach (iteration type count radius) (seq 0 count)
                (repeat 0 (count * 3), vec 0 0 0) ;;
  ret (fst st).

(** The default value of the [radius] parameter. *)
Definition defaultRadius : R := 10.

(** A whole call, on a given stream of draws. *)
Definition generate (type : ShapeType) (count : nat) (radius : R)
    (draws : nat -> R) : option (list R) :=
  option_map fst (generateShapePositions type count radius draws 0%nat).

(** The [i]-th point of a flat position buffer. *)
Definition point (positions : list R) (i : nat) : Vector3 :=
  vec (nth (i * 3) positions 0) (nth (i * 3 + 1) positions 0)
      (nth (i * 3 + 2) positions 0).

(** Total-correctness triple for a sampler: from every cursor position the
    run on [draws] returns, and its value satisfies [Q]. *)
Definition yields {A : Type} (m : Gen A) (draws : nat -> R) (Q : A -> Prop) : Prop :=
  forall n, exists a n', m draws n = Some (a, n') /\ Q a.

(** Every coordinate of [v] lies in [[-b, b]]. *)
Definition box (b : R) (v : Vector3) : Prop :=
  (- b <= vx v <= b) /\ (- b <= vy v <= b) /\ (- b <= vz v <= b).

(** Rotation by [angle] about the X axis. *)
Definition rotateX (angle : R) (v : Vector3) : Vector3 :=
  vec (vx v) (vy v * cos angle - vz v * sin angle)
      (vy v * sin angle + vz v * cos angle).

End ShapeGenerator.

(* ================================================================== *)
(** ** [ParticleSystem]: the [useFrame] callback *)

Module ParticleSystem.

Record AudioData := mkAudio { bass : R; mid : R; treble : R }.

(** The two pieces of mutable state the callback advances: the geometry's
    position buffer, whose cells can hold [NaN], and
    [smoothedBassRef.current]. *)
Record Frame := mkFrame { positions : list number; smoothedBass : R }.

Definition morphSpeed (audioData : AudioData) : R :=
  0.03 + treble audioData * 0.05.

(** The interpolation itself, [p += (t - p) * morphSpeed]. *)
Definition lerpStep (speed t p : R) : R := p + (t - p) * speed.

(** A typed-array read used in arithmetic: past the end of the array the
    read is [undefined], which the arithmetic turns into [NaN]. *)
Definition read (a : list number) (ix : nat) : number :=
  match nth_error a ix with
  | Some v => v
  | None => None
  end.

(** [p + (t - p) * speed] on numbers: a [NaN] operand gives [NaN]. *)
Definition lerpNumber (speed : R) (t p : number) : number :=
  match t, p with
  | Some t', Some p' => Some (lerpStep speed t' p')
  | _, _ => None
  end.

(** [positions[ix] += (targetPositions[ix] - positions[ix]) * morphSpeed].
    A store outside [positions] is ignored; a target read outside
    [targetPositions] stores [NaN]; the loop goes on either way.  The value
    is stored exactly here; [morphAxis32] below keeps the rounding of the
    store to binary32. *)
Definition morphAxis (target : list number) (speed : R)
    (pos : list number) (ix : nat) : list number :=
  upd pos ix (lerpNumber speed (read target ix) (read pos ix)).

Definition morphParticle (target : list number) (speed : R)
    (pos : list number) (i : nat) : list number :=
  let p1 := morphAxis target speed pos (i * 3) in
  let p2 := morphAxis target speed p1 (i * 3 + 1) in
  morphAxis target speed p2 (i * 3 + 2).

Definition morphLoop (count : nat) (target : list number) (speed : R)
    (pos : list number) : list number :=
  fold_left (morphParticle target speed) (seq 0 count) pos.

(** Noise gate: [if (rawBass < 0.2) rawBass = 0]. *)
Definition noiseGate (rawBass : R) : R :=
  if Rlt_dec rawBass 0.2 then 0 else rawBass.

(** [Math.pow(rawBass, 3.0)] after the gate. *)
Definition popBass (bassIn : R) : R := noiseGate bassIn ^ 3.

(** [smoothed += (popBass - smoothed) * 0.3]. *)
Definition smooth (smoothed pop : R) : R := smoothed + (pop - smoothed) * 0.3.

(** The audio part of one frame: the new [smoothedBassRef.current], which
    is also the value written to the [uAudioLevel] uniform. *)
Definition popStep (bassIn smoothed : R) : R := smooth smoothed (popBass bassIn).

(** The smoothed level after [k] frames fed the same bass value. *)
Definition popFrames (k : nat) (bassIn smoothed0 : R) : R :=
  Nat.iter k (popStep bassIn) smoothed0.

(** One coordinate after [n] interpolation steps towards a fixed target. *)
Definition lerpFrames (n : nat) (speed t p0 : R) : R :=
  Nat.iter n (lerpStep speed t) p0.

(** One frame, with the points and the material mounted (the callback
    returns at once otherwise): morph every particle, then update the
    smoothed level.  The frame runs to its end whatever the morph loop has
    stored. *)
Definition useFrame (count : nat) (target : list number) (audioData : AudioData)
    (st : Frame) : Frame :=
  mkFrame (morphLoop count target (morphSpeed audioData) (positions st))
          (popStep (bass audioData) (smoothedBass st)).

(** [n] consecutive frames with the same target and audio data. *)
Fixpoint frames (n : nat) (count : nat) (target : list number)
    (audioData : AudioData) (st : Frame) : Frame :=
  match n with
  | O => st
  | S k => useFrame count target audioData (frames k count target audioData st)
  end.

(** Loop invariant of the morph loop: [q] is [pos0] with its first [n]
    coordinates moved one interpolation step towards [target]. *)
Definition lerpedUpTo (target : list number) (speed : R) (pos0 : list number)
    (n : nat) (q : list number) : Prop :=
  length q = length pos0 /\
  forall j, read q j = if (j <? n)%nat
                       then lerpNumber speed (read target j) (read pos0 j)
                       else read pos0 j.

(** Every cell of the buffer is a finite number between [lo] and [hi]. *)
Definition within (lo hi : R) (a : list number) : Prop :=
  forall j v, nth_error a j = Some v -> exists p, v = Some p /\ lo <= p <= hi.

(** *** The morph loop in the arithmetic the program runs

    [positions] and [targetPositions] are [Float32Array]s: the operands are
    binary32 values, the expression is evaluated in binary64, and the store
    rounds the result to binary32.  The definitions above idealise this
    with exact reals; the ones below keep the rounding. *)

Definition morphSpeed64 (treble64 : Binary64.double) : Binary64.double :=
  Binary64.add Binary64.lit_0_03 (Binary64.mul treble64 Binary64.lit_0_05).

Definition read32 (a : list Binary64.double) (ix : nat) : Binary64.double :=
  nth ix a S754_nan.

Definition lerpStep32 (speed t p : Binary64.double) : Binary64.double :=
  Binary32.fround (Binary64.add p (Binary64.mul (Binary64.sub t p) speed)).

Definition morphAxis32 (target : list Binary64.double) (speed : Binary64.double)
    (pos : list Binary64.double) (ix : nat) : list Binary64.double :=
  upd pos ix (lerpStep32 speed (read32 target ix) (read32 pos ix)).

Definition morphParticle32 (target : list Binary64.double)
    (speed : Binary64.double) (pos : list Binary64.double) (i : nat)
    : list Binary64.double :=
  let p1 := morphAxis32 target speed pos (i * 3) in
  let p2 := morphAxis32 target speed p1 (i * 3 + 1) in
  morphAxis32 target speed p2 (i * 3 + 2).

Definition morphLoop32 (count : nat) (target : list Binary64.double)
    (speed : Binary64.double) (pos : list Binary64.double)
    : list Binary64.double :=
  fold_left (morphParticle32 target speed) (seq 0 count) pos.

(** The position buffer after [n] frames. *)
Definition morphFrames32 (n count : nat) (target : list Binary64.double)
    (treble64 : Binary64.double) (pos : list Binary64.double)
    : list Binary64.double :=
  Nat.iter n (morphLoop32 count target (morphSpeed64 treble64)) pos.

(** Coordinate by coordinate, [a <= b <= c] on finite values. *)
Definition between32 (a b c : list Binary64.double) : bool :=
  forallb (fun abc => Binary64.leq (fst (fst abc)) (snd (fst abc))
                      && Binary64.leq (snd (fst abc)) (snd abc))
          (combine (combine a b) c).

(** Checks the first [n] frames from [pos]: none moves a coordinate away
    from its target or past it (for a buffer that starts below its
    target). *)
Fixpoint approaches32 (n count : nat) (target : list Binary64.double)
    (treble64 : Binary64.double) (pos : list Binary64.double) : bool :=
  match n with
  | O => true
  | S k =>
      let next := morphLoop32 count target (morphSpeed64 treble64) pos in
      between32 pos next target && approaches32 k count target treble64 next
  end.

End ParticleSystem.

(* ================================================================== *)
(** ** [VisionController]: the [onResults] callback *)

Module VisionController.

Inductive VisionStatus := init | detected | waiting | error.

Record Landmark := mkLandmark { x : R; y : R; z : R }.

(** The MediaPipe result object, as far as the callback reads it. *)
Record Results := mkResults {
  multiHandLandmarks : option (list (list Landmark))
}.

(** Thumb-tip to index-tip distance in the image plane. *)
Definition pinchDist (thumbTip indexTip : Landmark) : R :=
  let dx := x thumbTip - x indexTip in
  let dy := y thumbTip - y indexTip in
  sqrt (dx * dx + dy * dy).

(** Wrist to index-base distance. *)
Definition palmSize (wrist indexBase : Landmark) : R :=
  let pdx := x wrist - x indexBase in
  let pdy := y wrist - y indexBase in
  sqrt (pdx * pdx + pdy * pdy).

(** The divisor of the normalisation, [palmSize || 0.1]. *)
Definition palmDivisor (palm : R) : R := jsOr palm 0.1.

(** The two clamping statements, in source order. *)
Definition clamp (factor : R) : R :=
  let f1 := if Rgt_dec factor 1.0 then 1.0 else factor in
  if Rlt_dec f1 0.0 then 0.0 else f1.

Definition handFactor (thumbTip indexTip wrist indexBase : Landmark) : R :=
  let rawFactor := pinchDist thumbTip indexTip
                     / palmDivisor (palmSize wrist indexBase) in
  clamp ((rawFactor - 0.2) / 1.0).

(** [onResults(results)]: the status that is set and the factor passed to
    [onHandUpdate].  [None] is the [TypeError] raised when a landmark of
    the hand is missing. *)
Definition onResults (results : Results) : option (VisionStatus * R) :=
  match multiHandLandmarks results with
  | Some (landmarks :: _) =>
      match nth_error landmarks 4, nth_error landmarks 8,
            nth_error landmarks 0, nth_error landmarks 5 with
      | Some thumbTip, Some indexTip, Some wrist, Some indexBase =>
          Some (detected, handFactor thumbTip indexTip wrist indexBase)
      | _, _, _, _ => None
      end
  | _ => Some (waiting, 1.0)
  end.

(** A 21-landmark hand with the four landmarks the callback reads set as
    given and every other landmark at the origin. *)
Definition handOf (wrist thumbTip indexBase indexTip : Landmark) : list Landmark :=
  let o := mkLandmark 0 0 0 in
  [wrist; o; o; o; thumbTip; indexBase; o; o; indexTip; o; o; o; o; o; o; o;
   o; o; o; o; o].

End VisionController.

(* ================================================================== *)
(** ** [ParticleSystem]: the per-particle attributes ([randomAttributes]) *)

Module Attributes.
Import ShapeGenerator.

(** One iteration of the [useMemo] loop: the scale, then the three
    randomness components, in source order.  The values are stored exactly
    here; [scale32] and [randomness32] below keep the rounding of the stores
    to binary32. *)
Definition attributeStep (st : list R * list R) (i : nat) : Gen (list R * list R) :=
  u <- random ;;
  let scales := upd (fst st) i (0.5 + u * 0.5) in
  r0 <- random ;;
  let rnd0 := upd (snd st) (i * 3) r0 in
  r1 <- random ;;
  let rnd1 := upd rnd0 (i * 3 + 1) r1 in
  r2 <- random ;;
  let rnd2 := upd rnd1 (i * 3 + 2) r2 in
  ret (scales, rnd2).

(** [{ scales, randomness }] for [count] particles. *)
Definition randomAttributes (count : nat) : Gen (list R * list R) :=
  forEach attributeStep (seq 0 count) (repeat 0 count, repeat 0 (count * 3)).

(** The two stores as the program performs them: [scales] and [randomness]
    are [Float32Array]s, so the double that is stored is rounded to binary32.
    [attributeStep] above idealises both stores with exact reals. *)
Definition scale32 (u : Binary64.double) : Binary64.double :=
  Binary32.fround (Binary64.add Binary64.lit_0_5 (Binary64.mul u Binary64.lit_0_5)).

Definition randomness32 (u : Binary64.double) : Binary64.double :=
  Binary32.fround u.

End Attributes.

(* ================================================================== *)
(** ** [InkParticleShader]: the vertex and fragment programs

    The GLSL sources are read as functions on reals.  [normalize] of the
    zero vector and [pow] of a negative base are undefined in GLSL and are
    kept apart ([None], [Undefined]). *)

Module InkParticleShader.

Record vec3 := mkVec3 { px : R; py : R; pz : R }.

Record Uniforms := mkUniforms {
  uTime : R;
  uSize : R;
  uPixelRatio : R;
  uBass : R;
  uTreble : R;
  uSensitivity : R;
  uHandFactor : R;
  uAudioLevel : R
}.

(** GLSL [clamp(x, lo, hi) = min(max(x, lo), hi)]. *)
Definition clamp (v lo hi : R) : R := Rmin (Rmax v lo) hi.

(** GLSL [smoothstep(edge0, edge1, x)]. *)
Definition smoothstep (edge0 edge1 v : R) : R :=
  let t := clamp ((v - edge0) / (edge1 - edge0)) 0 1 in
  t * t * (3 - 2 * t).

(** GLSL [mix(a, b, t) = a * (1 - t) + b * t]. *)
Definition mix (a b t : R) : R := a * (1 - t) + b * t.

Definition scale3 (v : vec3) (k : R) : vec3 :=
  mkVec3 (px v * k) (py v * k) (pz v * k).

Definition length3 (v : vec3) : R :=
  sqrt (px v * px v + py v * py v + pz v * pz v).

(** [length(pos.xy)]. *)
Definition lengthXY (v : vec3) : R := sqrt (px v * px v + py v * py v).

(** *** Vertex program *)

Definition shapeScale (u : Uniforms) : R :=
  let contraction := smoothstep 0.0 1.0 (uHandFactor u) in
  0.1 + 1.8 * contraction.

(** The twist branch, entered when [uHandFactor < 0.9]. *)
Definition twist (u : Uniforms) (pos : vec3) : vec3 :=
  let dist := lengthXY pos in
  let twistStrength := 4.0 * (1.0 - uHandFactor u) in
  let angle := twistStrength * (1.0 - smoothstep 0.0 15.0 dist) in
  let s := sin angle in
  let c := cos angle in
  let nx := px pos * c - py pos * s in
  let ny := px pos * s + py pos * c in
  mkVec3 nx ny
         (pz pos + (1.0 - uHandFactor u) * sin (dist * 0.5 - uTime u * 2.0) * 2.0).

(** Hand gesture control: scale, then twist. *)
Definition handStage (u : Uniforms) (position : vec3) : vec3 :=
  let pos := scale3 position (shapeScale u) in
  if Rlt_dec (uHandFactor u) 0.9 then twist u pos else pos.

(** Idle breathing; the second line reads the [x] the first has written. *)
Definition idleStage (u : Uniforms) (pos : vec3) : vec3 :=
  let idleSpeed := uTime u * 0.1 in
  let idleAmp := 0.2 in
  let x1 := px pos + sin (idleSpeed + py pos * 0.2) * idleAmp in
  let y1 := py pos + cos (idleSpeed + x1 * 0.2) * idleAmp in
  let z1 := pz pos + sin (idleSpeed * 0.8 + pz pos * 0.2) * idleAmp in
  mkVec3 x1 y1 z1.

(** [normalize(v)], undefined on the zero vector. *)
Definition normalize3 (v : vec3) : option vec3 :=
  if Req_dec_T (length3 v) 0 then None
  else Some (mkVec3 (px v / length3 v) (py v / length3 v) (pz v / length3 v)).

(** [pos += normal * explosion * aScale]. *)
Definition explode (u : Uniforms) (aScale : R) (pos normal : vec3) : vec3 :=
  let explosion := uAudioLevel u * 5.0 * uSensitivity u in
  mkVec3 (px pos + px normal * explosion * aScale)
         (py pos + py normal * explosion * aScale)
         (pz pos + pz normal * explosion * aScale).

(** [pos += vibration], the scalar added to every component. *)
Definition vibrate (u : Uniforms) (pos : vec3) : vec3 :=
  let vibration := sin (uTime u * 20.0 + px pos) * uAudioLevel u * 0.5 in
  mkVec3 (px pos + vibration) (py pos + vibration) (pz pos + vibration).

(** The beat block, entered when [uAudioLevel > 0.01]. *)
Definition audioStage (u : Uniforms) (aScale : R) (pos : vec3) : option vec3 :=
  if Rgt_dec (uAudioLevel u) 0.01 then
    match normalize3 pos with
    | None => None
    | Some normal => Some (vibrate u (explode u aScale pos normal))
    end
  else Some pos.

(** The model-space position handed to the view and projection matrices. *)
Definition vertexPosition (u : Uniforms) (aScale : R) (position : vec3) : option vec3 :=
  audioStage u aScale (idleStage u (handStage u position)).

(** [gl_PointSize], given the view-space depth [mvPosition.z]. *)
Definition pointSize (u : Uniforms) (aScale mvz : R) : number :=
  let size0 := uSize u * aScale * uPixelRatio u * (1.0 + uAudioLevel u * 1.5) in
  match jsdiv (Some 20.0) (- mvz) with
  | Some k => Some (size0 * k)
  | None => None
  end.

Definition vAlpha (u : Uniforms) : R := 0.6 + uTreble u * 0.4.

(** *** Fragment program *)

Definition dot3 (a b : vec3) : R := px a * px b + py a * py b + pz a * pz b.

Definition cross3 (a b : vec3) : vec3 :=
  mkVec3 (py a * pz b - pz a * py b)
         (pz a * px b - px a * pz b)
         (px a * py b - py a * px b).

Definition add3 (a b : vec3) : vec3 :=
  mkVec3 (px a + px b) (py a + py b) (pz a + pz b).

Definition mix3 (a b : vec3) (t : R) : vec3 :=
  mkVec3 (mix (px a) (px b) t) (mix (py a) (py b) t) (mix (pz a) (pz b) t).

Definition hueShift (color : vec3) (hue : R) : vec3 :=
  let k := mkVec3 0.57735 0.57735 0.57735 in
  let cosAngle := cos hue in
  add3 (add3 (scale3 color cosAngle) (scale3 (cross3 k color) (sin hue)))
       (scale3 k (dot3 k color * (1.0 - cosAngle))).

Inductive Fragment :=
| Discard
| Undefined
| Color (rgb : vec3) (alpha : R).

(** [main] of the fragment program at [gl_PointCoord = (cx, cy)]. *)
Definition fragment (u : Uniforms) (uColorA uColorB uColorC vRandom : vec3)
    (alphaIn cx cy : R) : Fragment :=
  let d := sqrt ((cx - 0.5) * (cx - 0.5) + (cy - 0.5) * (cy - 0.5)) in
  if Rgt_dec d 0.5 then Discard
  else
    match Math_pow (1.0 - d * 2.0) 2.5 with
    | None => Undefined
    | Some strength =>
        let variedA := hueShift uColorA (px vRandom * 0.1) in
        let variedB := hueShift uColorB (py vRandom * 0.1) in
        let finalColor := mix3 variedA variedB strength in
        let variedC := hueShift uColorC (pz vRandom * 0.2) in
        let flash := smoothstep 0.4 0.6 strength * uBass u * 2.0 * uSensitivity u in
        Color (mix3 finalColor variedC flash) (alphaIn * strength)
    end.

End InkParticleShader.

(* ================================================================== *)
(** ** [App]: the audio loop and the auto-morph timer *)

Module App.
Import ShapeGenerator.

(** [Object.values(ShapeType)], in declaration order. *)
Definition allShapes : list ShapeType :=
  [NEBULA; HEART; FLOWER; SATURN; CAKE; FIREWORKS; SPIRAL; LEMNISCATE; KOCH;
   ASTROID; BUTTERFLY; CATENOID; ROSE].

Definition shape_eq_dec (a b : ShapeType) : {a = b} + {a <> b}.
Proof. decide equality. Defined.

(** [allShapes.filter(s => s !== currentShape)]. *)
Definition nextShapes (currentShape : ShapeType) : list ShapeType :=
  filter (fun s => if shape_eq_dec s currentShape then false else true) allShapes.

(** The shape the timer sets, on the draw [u]; [None] is [undefined]. *)
Definition autoMorph (currentShape : ShapeType) (u : R) : option ShapeType :=
  let k := floor (u * INR (length (nextShapes currentShape))) in
  if (k <? 0)%Z then None
  else nth_error (nextShapes currentShape) (Z.to_nat k).

(** [prev.band * 0.9]. *)
Definition fade (a : number) : number :=
  match a with
  | Some v => Some (v * 0.9)
  | None => None
  end.

(** One tick of [analyze]: the new [audioData] and the service afterwards. *)
Definition analyze (isPlaying : bool) (service : AudioService.t)
    (prev : AudioService.Bands) : AudioService.Bands * AudioService.t :=
  if isPlaying then AudioService.getFrequencyData service
  else (AudioService.mkBands (fade (AudioService.bass prev))
                             (fade (AudioService.mid prev))
                             (fade (AudioService.treble prev)),
        service).

(** [k] ticks with playback paused. *)
Definition idleTicks (k : nat) (service : AudioService.t)
    (prev : AudioService.Bands) : AudioService.Bands :=
  Nat.iter k (fun b => fst (analyze false service b)) prev.

End App.

(* ================================================================== *)
(** ** Reference notions used to state properties

    None of these is code of the repository: they are the mathematical
    notions the properties below compare the code with. *)

Module BandSpec.

(** The sum of [byte / 255] over a list of bytes. *)
Definition normSum (l : list Z) : R :=
  fold_right (fun d acc => IZR d / 255 + acc) 0 l.

(** The bins of index [a <= i < b]. *)
Definition slice (a b : nat) (l : list Z) : list Z := firstn (b - a) (skipn a l).

(** The arithmetic mean of [byte / 255] over the bins [a <= i < b]. *)
Definition mean (a b : nat) (l : list Z) : R :=
  normSum (slice a b l) / INR (b - a).

End BandSpec.

Module GestureSpec.
Import VisionController.

(** The similarity [(x, y, z) -> (k x + dx, k y + dy, k z + dz)] applied to a
    landmark: a hand seen larger or smaller, and elsewhere in the image. *)
Definition similarity (k dx dy dz : R) (l : Landmark) : Landmark :=
  mkLandmark (k * x l + dx) (k * y l + dy) (k * z l + dz).

End GestureSpec.

(* ================================================================== *)
(** * Properties *)

(** ** Typed-array and number helpers *)

(** Decimal literals are [Q2R] of a fraction; [ring] and [field] want them
    as quotients of integers. *)
Ltac decimals :=
  unfold Q2R in *; cbn [QArith_base.Qnum QArith_base.Qden] in *.

Lemma upd_length {A : Type} (l : list A) (i : nat) (v : A) :
  length (upd l i v) = length l.
Proof.
  revert i; induction l as [|h t IH]; intros [|j]; simpl; auto.
Qed.

Lemma nth_error_upd_same {A : Type} (l : list A) (i : nat) (v : A) :
  (i < length l)%nat -> nth_error (upd l i v) i = Some v.
Proof.
  revert i; induction l as [|h t IH]; intros [|j] Hlt; simpl in *;
    try lia; auto.
  apply IH; lia.
Qed.

Lemma nth_error_upd_other {A : Type} (l : list A) (i j : nat) (v : A) :
  i <> j -> nth_error (upd l i v) j = nth_error l j.
Proof.
  revert i j; induction l as [|h t IH]; intros [|i] [|j] Hne; simpl;
    try congruence; auto.
Qed.

Lemma floor_eq (r : R) (k : Z) : IZR k <= r < IZR k + 1 -> floor r = k.
Proof.
  intros [Hlo Hhi]. unfold floor. symmetry. apply Int_part_spec. lra.
Qed.

Lemma floor_bounds (r : R) : IZR (floor r) <= r < IZR (floor r) + 1.
Proof.
  unfold floor. destruct (base_Int_part r). lra.
Qed.

Lemma jsdiv_Some (u b : R) : b <> 0 -> jsdiv (Some u) b = Some (u / b).
Proof.
  intros Hb. unfold jsdiv. destruct (Req_dec_T b 0); [contradiction | reflexivity].
Qed.

Lemma jsdiv_zero (a : number) : jsdiv a 0 = None.
Proof.
  destruct a; simpl; auto. destruct (Req_dec_T 0 0); [reflexivity | lra].
Qed.

(* ================================================================== *)
(** ** The pop signal *)

Section Pop.
Import ParticleSystem.

Lemma noiseGate_below (b : R) : b < 0.2 -> noiseGate b = 0.
Proof.
  intros H. unfold noiseGate. destruct (Rlt_dec b 0.2); [reflexivity | contradiction].
Qed.

Lemma noiseGate_pass (b : R) : ~ b < 0.2 -> noiseGate b = b.
Proof.
  intros H. unfold noiseGate. destruct (Rlt_dec b 0.2); [contradiction | reflexivity].
Qed.

Lemma popBass_below (b : R) : b < 0.2 -> popBass b = 0.
Proof.
  intros H. unfold popBass. rewrite noiseGate_below by assumption. ring.
Qed.

Lemma popBass_pass (b : R) : ~ b < 0.2 -> popBass b = b ^ 3.
Proof.
  intros H. unfold popBass. now rewrite noiseGate_pass.
Qed.

Lemma useFrame_smoothedBass count target a st :
  smoothedBass (useFrame count target a st) = popStep (bass a) (smoothedBass st).
Proof. reflexivity. Qed.

(** The smoothed level of [frames] is the iterated pop pipeline. *)
Lemma frames_smoothedBass n count target a st :
  smoothedBass (frames n count target a st)
  = popFrames n (bass a) (smoothedBass st).
Proof.
  induction n as [|k IH]; [reflexivity|].
  cbn [frames]. rewrite useFrame_smoothedBass, IH. reflexivity.
Qed.

(** Closed form of the low-pass filter under a constant input. *)
Lemma popFrames_closed (k : nat) (b s0 : R) :
  popFrames k b s0 = popBass b + 0.7 ^ k * (s0 - popBass b).
Proof.
  unfold popFrames. induction k as [|k IH]; simpl.
  - ring.
  - rewrite IH. unfold popStep, smooth. decimals. field.
Qed.

End Pop.

(** C3.  The pop derivation gates the bass at 0.2 and cubes it, and every
    frame updates the smoothed level by [smoothed += (pop - smoothed) * 0.3],
    whatever the morph loop of that frame has stored: a bass of 0.15 gives
    pop 0, a bass of 1.0 gives pop 1.0, and one tick from a smoothed level
    of 0 gives [0.3 * pop]. *)
Theorem pop_derivation :
  (forall b, b < 0.2 -> ParticleSystem.popBass b = 0) /\
  (forall b, ~ b < 0.2 -> ParticleSystem.popBass b = b ^ 3) /\
  (forall count target a st,
      ParticleSystem.smoothedBass (ParticleSystem.useFrame count target a st) =
        ParticleSystem.smoothedBass st
        + (ParticleSystem.popBass (ParticleSystem.bass a)
           - ParticleSystem.smoothedBass st) * 0.3) /\
  ParticleSystem.popBass 0.15 = 0 /\
  ParticleSystem.popBass 1.0 = 1.0 /\
  (forall b, ParticleSystem.popStep b 0 = 0.3 * ParticleSystem.popBass b) /\
  (forall count target a st,
      ParticleSystem.smoothedBass st = 0 ->
      ParticleSystem.smoothedBass (ParticleSystem.useFrame count target a st)
      = 0.3 * ParticleSystem.popBass (ParticleSystem.bass a)).
Proof.
  split; [|split; [|split; [|split; [|split; [|split]]]]].
  - apply popBass_below.
  - apply popBass_pass.
  - intros count target a st. rewrite useFrame_smoothedBass. reflexivity.
  - apply popBass_below; lra.
  - rewrite popBass_pass by lra. lra.
  - intros b. unfold ParticleSystem.popStep, ParticleSystem.smooth. lra.
  - intros count target a st H0. rewrite useFrame_smoothedBass.
    unfold ParticleSystem.popStep, ParticleSystem.smooth. rewrite H0. lra.
Qed.

Lemma pop_derivation_witness :
  ParticleSystem.popBass 0.1 = 0 /\
  ParticleSystem.popBass 0.5 = 0.5 ^ 3 /\
  ParticleSystem.smoothedBass
    (ParticleSystem.useFrame 1 [Some 1; Some 2] (ParticleSystem.mkAudio 1 0 0)
       (ParticleSystem.mkFrame [Some 0; Some 0; Some 0] 0.5))
  = 0.5 + (ParticleSystem.popBass 1 - 0.5) * 0.3 /\
  ParticleSystem.smoothedBass
    (ParticleSystem.useFrame 1 [Some 1; Some 2] (ParticleSystem.mkAudio 1 0 0)
       (ParticleSystem.mkFrame [Some 0; Some 0; Some 0] 0))
  = 0.3 * ParticleSystem.popBass 1.
Proof.
  destruct pop_derivation as (Hlow & Hhigh & Hany & _ & _ & _ & Hframe).
  split; [apply Hlow; lra|].
  split; [apply Hhigh; lra|].
  split.
  - exact (Hany 1%nat [Some 1; Some 2] (ParticleSystem.mkAudio 1 0 0)
             (ParticleSystem.mkFrame [Some 0; Some 0; Some 0] 0.5)).
  - apply (Hframe 1%nat [Some 1; Some 2] (ParticleSystem.mkAudio 1 0 0)
             (ParticleSystem.mkFrame [Some 0; Some 0; Some 0] 0)).
    reflexivity.
Defined.

(** C2, as stated, fails: with a constant bass of 0.9 the level after one
    frame is [0.3 * 0.9^3 = 0.2187], not [0.9 * (1 - 0.7) = 0.27], and after
    ten frames it is more than 0.16 away from 0.875. *)
Lemma pop_constant_bass_counterexample :
  ParticleSystem.popFrames 1 0.9 0 <> 0.9 * (1 - 0.7 ^ 1) /\
  ParticleSystem.popFrames 10 0.9 0 < 0.875 - 0.16.
Proof.
  rewrite !popFrames_closed, popBass_pass by lra. split; lra.
Qed.

(** C2, amended.  From a smoothed level of 0 and under a constant bass of
    0.9, the level after frame [k] is [0.9^3 * (1 - 0.7^k)], that is
    [0.729 * (1 - 0.7^k)]; after 10 frames it lies within 0.001 of 0.708. *)
Theorem pop_constant_bass :
  (forall k, ParticleSystem.popFrames k 0.9 0 = 0.729 * (1 - 0.7 ^ k)) /\
  Rabs (ParticleSystem.popFrames 10 0.9 0 - 0.708) < 0.001.
Proof.
  split.
  - intros k. rewrite popFrames_closed, popBass_pass by lra. lra.
  - rewrite popFrames_closed, popBass_pass by lra.
    apply Rabs_def1; lra.
Qed.

(* ================================================================== *)
(** ** [getFrequencyData] *)

(** C10.  Before a successful [init] (no analyser, or no data buffer)
    [getFrequencyData] returns [{bass: 0, mid: 0, treble: 0}] and leaves the
    service as it was, in the idealised arithmetic and in doubles. *)
Theorem getFrequencyData_uninitialised (s : AudioService.t) :
  AudioService.analyser s = None \/ AudioService.dataArray s = None ->
  AudioService.getFrequencyData s
    = (AudioService.mkBands (Some 0) (Some 0) (Some 0), s) /\
  AudioService.getFrequencyData64 s
    = (AudioService.mkBands64 (S754_zero false) (S754_zero false)
                              (S754_zero false), s).
Proof.
  unfold AudioService.getFrequencyData, AudioService.getFrequencyData64.
  intros [H | H]; rewrite H.
  - split; reflexivity.
  - destruct (AudioService.analyser s); split; reflexivity.
Qed.

Lemma getFrequencyData_uninitialised_witness :
  AudioService.getFrequencyData (AudioService.mkService None None)
    = (AudioService.mkBands (Some 0) (Some 0) (Some 0),
       AudioService.mkService None None) /\
  AudioService.getFrequencyData64 (AudioService.mkService None None)
    = (AudioService.mkBands64 (S754_zero false) (S754_zero false)
                              (S754_zero false),
       AudioService.mkService None None).
Proof.
  apply (getFrequencyData_uninitialised (AudioService.mkService None None)).
  left; reflexivity.
Defined.

Lemma acc_eq (a b c a' b' c' : R) :
  a = a' -> b = b' -> c = c' ->
  (Some a, Some b, Some c) = (Some a', Some b', Some c').
Proof. intros; subst; reflexivity. Qed.

Section FlatSpectrum.
Import AudioService.

Variables (data : list Z) (m : Z) (bassRange midRange : Z).
Hypothesis Hflat : forall i v, nth_error data i = Some v -> v = m.
Hypothesis Hranges : (0 <= bassRange <= midRange)%Z.

Local Abbreviation v := (IZR m / 255).

(** After [k] iterations over a flat buffer each accumulator is the number
    of indices of its band seen so far, times the common value. *)
Lemma bandLoop_flat (k : nat) :
  (k <= length data)%nat ->
  fold_left (bandStep data bassRange midRange) (seq 0 k) (Some 0, Some 0, Some 0)
  = (Some (IZR (Z.min (Z.of_nat k) bassRange) * v),
     Some (IZR (Z.min (Z.of_nat k) midRange - Z.min (Z.of_nat k) bassRange) * v),
     Some (IZR (Z.of_nat k - Z.min (Z.of_nat k) midRange) * v)).
Proof.
  induction k as [|k IH]; intros Hk.
  - simpl. rewrite !Z.min_l by lia. simpl. apply acc_eq; ring.
  - rewrite seq_S, fold_left_app, IH by lia. simpl fold_left.
    unfold bandStep.
    destruct (nth_error data k) as [d|] eqn:Ed.
    2:{ apply nth_error_None in Ed. lia. }
    rewrite (Hflat _ _ Ed). simpl option_map.
    rewrite jsdiv_Some by lra.
    rewrite Nat2Z.inj_succ.
    destruct (Z.ltb_spec (Z.of_nat k) bassRange) as [Hb|Hb];
      [|destruct (Z.ltb_spec (Z.of_nat k) midRange) as [Hm|Hm]];
      simpl jsadd; apply acc_eq.
    + rewrite !Z.min_l by lia. rewrite succ_IZR. ring.
    + rewrite !Z.min_l by lia. rewrite !Z.sub_diag. reflexivity.
    + rewrite !Z.min_l by lia. rewrite !Z.sub_diag. reflexivity.
    + rewrite !Z.min_r by lia. reflexivity.
    + rewrite !(Z.min_r _ bassRange), !(Z.min_l _ midRange) by lia.
      rewrite !minus_IZR, succ_IZR. ring.
    + rewrite !(Z.min_l _ midRange) by lia. rewrite !Z.sub_diag. reflexivity.
    + rewrite !Z.min_r by lia. reflexivity.
    + rewrite !Z.min_r by lia. reflexivity.
    + rewrite !Z.min_r by lia. rewrite !minus_IZR, succ_IZR. ring.
Qed.

End FlatSpectrum.

(** The two band limits for a buffer of at least ten bins. *)
Lemma band_limits (L : nat) :
  (10 <= L)%nat ->
  let bassRange := floor (INR L * 0.1) in
  let midRange := floor (INR L * 0.5) in
  (1 <= bassRange /\ bassRange < midRange /\ midRange < Z.of_nat L)%Z.
Proof.
  intros HL bassRange midRange.
  pose proof (floor_bounds (INR L * 0.1)) as Hb.
  pose proof (floor_bounds (INR L * 0.5)) as Hm.
  fold bassRange in Hb. fold midRange in Hm.
  assert (HLr : 10 <= INR L) by (apply le_INR in HL; simpl in HL; lra).
  rewrite INR_IZR_INZ in *.
  repeat split.
  - assert (0 < bassRange)%Z by (apply lt_IZR; lra). lia.
  - assert (bassRange < midRange + 1)%Z by (apply lt_IZR; rewrite plus_IZR; lra).
    assert (bassRange + 3 < midRange + 1)%Z; [|lia].
    apply lt_IZR. rewrite !plus_IZR. lra.
  - apply lt_IZR. lra.
Qed.

Lemma getByteFrequencyData_full (L : nat) (bytes arr : list Z) :
  length bytes = L -> length arr = L ->
  AudioService.getByteFrequencyData (AudioService.mkAnalyser L bytes) arr = bytes.
Proof.
  intros Hb Ha. unfold AudioService.getByteFrequencyData.
  cbn [AudioService.byteFrequencyData].
  rewrite Hb, Ha, skipn_all2, app_nil_r by lia.
  apply firstn_all2. lia.
Qed.

(** Runs of the binary64 computation at the bin count the service uses
    ([fftSize = 512], 256 bins), on flat buffers of four byte values. *)
Lemma flat64_sample_bytes :
  forallb (fun m => AudioService.flat64 (1 # 100000000000000) m
                      (AudioService.computeBands64 256 (repeat m 256)))
          [0; 1; 128; 255]%Z = true.
Proof. vm_compute. reflexivity. Qed.

(** C4, as stated, fails.  On a flat buffer of length 5 the bass band is
    empty, its mean is [0 / 0], and the result is [NaN] (in doubles as in
    the idealised arithmetic), not [m / 255].  And in doubles the means are
    not exact even at length 256: for [m = 1] the mid band differs from the
    double [1 / 255]. *)
Lemma flat_spectrum_counterexample :
  let s5 := AudioService.mkService
              (Some (AudioService.mkAnalyser 5 (repeat 255%Z 5)))
              (Some (repeat 0%Z 5)) in
  let s256 := AudioService.mkService
                (Some (AudioService.mkAnalyser 256 (repeat 1%Z 256)))
                (Some (repeat 0%Z 256)) in
  AudioService.bass64 (fst (AudioService.getFrequencyData64 s5)) = S754_nan /\
  AudioService.bass (fst (AudioService.getFrequencyData s5)) = None /\
  AudioService.bass (fst (AudioService.getFrequencyData s5)) <> Some (255 / 255) /\
  AudioService.mid64 (fst (AudioService.getFrequencyData64 s256))
    <> Binary64.div (Binary64.ofZ 1) (Binary64.ofZ 255).
Proof.
  assert (H : AudioService.bass
                (fst (AudioService.getFrequencyData
                        (AudioService.mkService
                           (Some (AudioService.mkAnalyser 5 (repeat 255%Z 5)))
                           (Some (repeat 0%Z 5))))) = None).
  { unfold AudioService.getFrequencyData. cbn [AudioService.analyser
      AudioService.dataArray AudioService.frequencyBinCount fst].
    unfold AudioService.computeBands.
    replace (floor (INR 5 * 0.1)) with 0%Z
      by (symmetry; apply floor_eq; simpl; lra).
    destruct (AudioService.bandLoop _ _ _ _) as [[b md] t].
    cbn [AudioService.bass]. apply jsdiv_zero. }
  cbv zeta. rewrite H.
  split; [vm_compute; reflexivity|].
  split; [reflexivity|]. split; [discriminate|].
  vm_compute. discriminate.
Qed.

(** C4, amended.  For every buffer length [L >= 10] (so that no band is
    empty) and every buffer whose magnitudes all equal the byte [m], the
    band computation returns [bass = mid = treble = m / 255] in exact
    arithmetic.  In double arithmetic the three means agree with [m / 255]
    up to rounding only: at the length 256 that the service uses and for
    the bytes 0, 1, 128 and 255, each of them is finite and within [10^-14]
    of [m / 255]. *)
Theorem flat_spectrum :
  (forall (L : nat) (m : Z) (arr : list Z),
      (10 <= L)%nat ->
      length arr = L ->
      fst (AudioService.getFrequencyData
             (AudioService.mkService
                (Some (AudioService.mkAnalyser L (repeat m L))) (Some arr)))
      = AudioService.mkBands (Some (IZR m / 255)) (Some (IZR m / 255))
                             (Some (IZR m / 255))) /\
  (forall (m : Z) (arr : list Z),
      In m [0; 1; 128; 255]%Z ->
      length arr = 256%nat ->
      AudioService.flat64 (1 # 100000000000000) m
        (fst (AudioService.getFrequencyData64
                (AudioService.mkService
                   (Some (AudioService.mkAnalyser 256 (repeat m 256)))
                   (Some arr)))) = true).
Proof.
  split.
  - intros L m arr HL Harr.
    unfold AudioService.getFrequencyData.
    cbn [AudioService.analyser AudioService.dataArray
         AudioService.frequencyBinCount fst].
    rewrite getByteFrequencyData_full by (auto using repeat_length).
    unfold AudioService.computeBands, AudioService.bandLoop.
    destruct (band_limits L HL) as (Hb & Hbm & Hm).
    set (bassRange := floor (INR L * 0.1)) in *.
    set (midRange := floor (INR L * 0.5)) in *.
    rewrite (bandLoop_flat (repeat m L) m bassRange midRange).
    + rewrite !Z.min_r by lia.
      assert (IZR bassRange <> 0) by (apply not_0_IZR; lia).
      assert (IZR (midRange - bassRange) <> 0) by (apply not_0_IZR; lia).
      assert (IZR (Z.of_nat L - midRange) <> 0) by (apply not_0_IZR; lia).
      rewrite !jsdiv_Some by assumption.
      f_equal; f_equal; field; assumption.
    + intros i d Hd. apply nth_error_In, repeat_spec in Hd. exact Hd.
    + lia.
    + rewrite repeat_length. lia.
  - intros m arr Hm Harr.
    unfold AudioService.getFrequencyData64.
    cbn [AudioService.analyser AudioService.dataArray
         AudioService.frequencyBinCount fst].
    rewrite getByteFrequencyData_full by (auto using repeat_length).
    pose proof flat64_sample_bytes as Hall.
    rewrite forallb_forall in Hall. now apply Hall.
Qed.

Lemma flat_spectrum_witness :
  fst (AudioService.getFrequencyData
         (AudioService.mkService
            (Some (AudioService.mkAnalyser 10 (repeat 51%Z 10)))
            (Some (repeat 0%Z 10))))
  = AudioService.mkBands (Some (IZR 51 / 255)) (Some (IZR 51 / 255))
                         (Some (IZR 51 / 255)) /\
  AudioService.flat64 (1 # 100000000000000) 128
    (fst (AudioService.getFrequencyData64
            (AudioService.mkService
               (Some (AudioService.mkAnalyser 256 (repeat 128%Z 256)))
               (Some (repeat 0%Z 256))))) = true.
Proof.
  destruct flat_spectrum as [Hideal Hdouble]. split.
  - apply (Hideal 10%nat 51%Z (repeat 0%Z 10)); [lia | reflexivity].
  - apply (Hdouble 128%Z (repeat 0%Z 256)); [simpl; tauto | reflexivity].
Defined.

(* ================================================================== *)
(** ** The morph loop *)

Section Morph.
Import ParticleSystem.

Lemma read_Some (a : list number) (j : nat) (x : R) :
  read a j = Some x <-> nth_error a j = Some (Some x).
Proof.
  unfold read. destruct (nth_error a j) as [[v|]|]; split; intros H;
    try discriminate; inversion H; reflexivity.
Qed.

Lemma read_inside (a : list number) (j : nat) :
  (j < length a)%nat -> nth_error a j = Some (read a j).
Proof.
  intros H. unfold read. destruct (nth_error a j) eqn:E; [reflexivity|].
  apply nth_error_None in E. lia.
Qed.

Lemma read_beyond (a : list number) (j : nat) :
  (length a <= j)%nat -> read a j = None.
Proof.
  intros H. unfold read. apply nth_error_None in H. now rewrite H.
Qed.

Lemma read_upd_same (a : list number) (ix : nat) (v : number) :
  (ix < length a)%nat -> read (upd a ix v) ix = v.
Proof. intros H. unfold read. now rewrite nth_error_upd_same. Qed.

Lemma read_upd_other (a : list number) (ix j : nat) (v : number) :
  ix <> j -> read (upd a ix v) j = read a j.
Proof. intros H. unfold read. now rewrite nth_error_upd_other. Qed.

Lemma lerpNumber_nan (speed : R) (t : number) : lerpNumber speed t None = None.
Proof. now destruct t. Qed.

Lemma lerpNumber_same (speed : R) (t : number) : lerpNumber speed t t = t.
Proof.
  destruct t as [t|]; [|reflexivity]. simpl. unfold lerpStep. f_equal. ring.
Qed.

Variables (target : list number) (speed : R).

Local Abbreviation lerped := (lerpedUpTo target speed).

Lemma lerped_start (pos0 : list number) : lerped pos0 0 pos0.
Proof. split; reflexivity. Qed.

Lemma morphAxis_lerped (pos0 q : list number) (n : nat) :
  lerped pos0 n q -> lerped pos0 (S n) (morphAxis target speed q n).
Proof.
  intros [Hq Hread]. unfold morphAxis. split; [now rewrite upd_length|].
  intros j. destruct (Nat.eq_dec n j) as [<-|Hne].
  - replace (n <? S n)%nat with true by (symmetry; apply Nat.ltb_lt; lia).
    pose proof (Hread n) as Hn. rewrite Nat.ltb_irrefl in Hn.
    destruct (Nat.lt_ge_cases n (length q)) as [Hin|Hout].
    + rewrite read_upd_same by assumption. now rewrite Hn.
    + rewrite read_beyond by (rewrite upd_length; assumption).
      rewrite (read_beyond pos0) by lia. now rewrite lerpNumber_nan.
  - rewrite read_upd_other by assumption. rewrite Hread.
    destruct (Nat.ltb_spec j n), (Nat.ltb_spec j (S n)); try reflexivity; lia.
Qed.

Lemma morphParticle_lerped (pos0 q : list number) (i : nat) :
  lerped pos0 (i * 3) q -> lerped pos0 (S i * 3) (morphParticle target speed q i).
Proof.
  intros Hq. unfold morphParticle.
  replace (S i * 3)%nat with (S (i * 3 + 2)) by lia.
  apply morphAxis_lerped.
  replace (i * 3 + 2)%nat with (S (i * 3 + 1)) at 1 by lia.
  apply morphAxis_lerped.
  replace (i * 3 + 1)%nat with (S (i * 3)) at 1 by lia.
  now apply morphAxis_lerped.
Qed.

Lemma morphLoop_prefix (pos0 : list number) (k : nat) :
  lerped pos0 (k * 3) (fold_left (morphParticle target speed) (seq 0 k) pos0).
Proof.
  induction k as [|k IH].
  - apply lerped_start.
  - rewrite seq_S, fold_left_app. simpl fold_left.
    now apply morphParticle_lerped.
Qed.

(** One pass of the loop moves each of the first [count * 3] coordinates
    one interpolation step towards its target and leaves the others. *)
Lemma morphLoop_spec (count : nat) (pos0 : list number) :
  length (morphLoop count target speed pos0) = length pos0 /\
  forall j, read (morphLoop count target speed pos0) j
            = if (j <? count * 3)%nat
              then lerpNumber speed (read target j) (read pos0 j)
              else read pos0 j.
Proof. exact (morphLoop_prefix pos0 count). Qed.

End Morph.

Section MorphAxis.
Import ParticleSystem.

(** Closed form of the interpolation: the offset from the target shrinks by
    the factor [1 - speed] every frame. *)
Lemma lerpFrames_closed (n : nat) (speed t p : R) :
  lerpFrames n speed t p - t = (1 - speed) ^ n * (p - t).
Proof.
  unfold lerpFrames. induction n as [|n IH]; simpl.
  - ring.
  - unfold lerpStep at 1.
    replace (Nat.iter n (lerpStep speed t) p + (t - Nat.iter n (lerpStep speed t) p) * speed - t)
      with ((1 - speed) * (Nat.iter n (lerpStep speed t) p - t)) by ring.
    rewrite IH. ring.
Qed.

Lemma morphSpeed_range (a : AudioData) :
  0 <= treble a <= 1 -> 0 < morphSpeed a < 1.
Proof.
  unfold morphSpeed. intros H. lra.
Qed.

Lemma frames_length (n count : nat) (target : list number) (a : AudioData)
    (st : Frame) :
  length (positions (frames n count target a st)) = length (positions st).
Proof.
  induction n as [|n IH]; [reflexivity|].
  cbn [frames useFrame positions].
  now rewrite (proj1 (morphLoop_spec target (morphSpeed a) count _)).
Qed.

(** The position buffer after [n] frames holds the iterated interpolation
    of every finite coordinate the loop reaches. *)
Lemma frames_positions (n count : nat) (target : list number) (a : AudioData)
    (st : Frame) (j : nat) (t p : R) :
  (j < count * 3)%nat ->
  read target j = Some t -> read (positions st) j = Some p ->
  read (positions (frames n count target a st)) j
  = Some (lerpFrames n (morphSpeed a) t p).
Proof.
  intros Hj Ht Hp. induction n as [|n IH]; [exact Hp|].
  cbn [frames useFrame positions].
  rewrite (proj2 (morphLoop_spec target (morphSpeed a) count _)).
  replace (j <? count * 3)%nat with true by (symmetry; apply Nat.ltb_lt; lia).
  rewrite Ht, IH. reflexivity.
Qed.

End MorphAxis.

Section Morph32.
Import ParticleSystem.

Variables (count : nat) (target : list Binary64.double)
          (treble64 : Binary64.double).

Lemma morphFrames32_shift (n : nat) (pos : list Binary64.double) :
  morphFrames32 (S n) count target treble64 pos
  = morphFrames32 n count target treble64
      (morphLoop32 count target (morphSpeed64 treble64) pos).
Proof. unfold morphFrames32. apply Nat.iter_succ_r. Qed.

(** A buffer that a frame leaves unchanged is never left again. *)
Lemma morphFrames32_stalled (N : nat) (pos q : list Binary64.double) :
  morphFrames32 N count target treble64 pos = q ->
  morphLoop32 count target (morphSpeed64 treble64) q = q ->
  forall n, (N <= n)%nat -> morphFrames32 n count target treble64 pos = q.
Proof.
  intros HN Hfix n Hn. induction Hn as [|n Hn IH]; [exact HN|].
  unfold morphFrames32 in *. rewrite Nat.iter_succ, IH. exact Hfix.
Qed.

Lemma approaches32_sound (n : nat) :
  forall pos, approaches32 n count target treble64 pos = true ->
  forall k, (k < n)%nat ->
    between32 (morphFrames32 k count target treble64 pos)
              (morphFrames32 (S k) count target treble64 pos) target = true.
Proof.
  induction n as [|n IH]; intros pos H k Hk; [lia|].
  cbn [approaches32] in H. apply andb_prop in H. destruct H as [H0 Hrest].
  destruct k as [|k].
  - exact H0.
  - rewrite (morphFrames32_shift k), (morphFrames32_shift (S k)).
    apply IH; [exact Hrest | lia].
Qed.

End Morph32.

(** The sample run: one particle morphing from [(0, 0, 0)] to [(1, 2, 3)]
    at treble 1 stops at frame 176, six binary32 units short of each
    target coordinate. *)
Lemma morph32_sample_run :
  let target := [Binary64.ofZ 1; Binary64.ofZ 2; Binary64.ofZ 3] in
  let start := [Binary64.ofZ 0; Binary64.ofZ 0; Binary64.ofZ 0] in
  let stalled := [S754_finite false 16777210 (-24);
                  S754_finite false 16777210 (-23);
                  S754_finite false 12582906 (-22)] in
  ParticleSystem.approaches32 176 1 target (Binary64.ofZ 1) start = true /\
  ParticleSystem.morphFrames32 176 1 target (Binary64.ofZ 1) start = stalled /\
  ParticleSystem.morphLoop32 1 target
    (ParticleSystem.morphSpeed64 (Binary64.ofZ 1)) stalled = stalled /\
  ParticleSystem.between32 stalled stalled target = true.
Proof. vm_compute. repeat split. Qed.

(** C5, as stated, fails for the buffer the program keeps: the positions
    are a [Float32Array], and the rounding of each store stops the
    interpolation short of the target.  Morphing one particle from
    [(0, 0, 0)] to [(1, 2, 3)] at treble 1, the x coordinate is
    [1 - 6 * 2^-24 = 0.99999964...] at frame 176 and at every later frame:
    the distance to the target neither keeps decreasing nor tends to 0. *)
Lemma morph_converges_counterexample :
  (forall n, (176 <= n)%nat ->
     nth 0 (ParticleSystem.morphFrames32 n 1
              [Binary64.ofZ 1; Binary64.ofZ 2; Binary64.ofZ 3] (Binary64.ofZ 1)
              [Binary64.ofZ 0; Binary64.ofZ 0; Binary64.ofZ 0]) S754_nan
     = S754_finite false 16777210 (-24)) /\
  Binary64.near (3 # 10000000) 1 (S754_finite false 16777210 (-24)) = false.
Proof.
  destruct morph32_sample_run as (_ & H176 & Hfix & _).
  split; [|reflexivity].
  intros n Hn.
  now rewrite (morphFrames32_stalled _ _ _ 176 _ _ H176 Hfix n Hn).
Qed.

(** C5, amended.  For every particle axis with a finite target and a finite
    current value, with [morphSpeed = 0.03 + treble * 0.05] and [treble] in
    [[0, 1]], the interpolation step evaluated in exact arithmetic brings
    the coordinate to its target monotonically: the distance never grows
    (and shrinks strictly while it is not zero), the sign of
    [target - current] never flips, and the distance tends to 0.  In the
    binary32 buffer of the program the distance need not tend to 0:
    morphing one particle from [(0, 0, 0)] to [(1, 2, 3)] at treble 1, no
    frame moves a coordinate away from its target or past it, but from
    frame 176 on the buffer stays at
    [(1 - 6 * 2^-24, 2 - 6 * 2^-23, 3 - 6 * 2^-22)], within [1.5e-6] of the
    target. *)
Theorem morph_converges :
  (forall (count : nat) (target : list number)
          (a : ParticleSystem.AudioData) (st : ParticleSystem.Frame)
          (j : nat) (t p : R),
      0 <= ParticleSystem.treble a <= 1 ->
      length target = (count * 3)%nat ->
      length (ParticleSystem.positions st) = (count * 3)%nat ->
      nth_error target j = Some (Some t) ->
      nth_error (ParticleSystem.positions st) j = Some (Some p) ->
      exists cur : nat -> R,
        cur 0%nat = p /\
        (forall n,
            nth_error
              (ParticleSystem.positions (ParticleSystem.frames n count target a st)) j
            = Some (Some (cur n))) /\
        (forall n, Rabs (cur (S n) - t) <= Rabs (cur n - t)) /\
        (forall n, p <> t -> Rabs (cur (S n) - t) < Rabs (cur n - t)) /\
        (forall n, (0 < t - p -> 0 < t - cur n) /\
                   (t - p < 0 -> t - cur n < 0) /\
                   (t = p -> cur n = t)) /\
        (forall eps, 0 < eps ->
            exists N, forall n, (N <= n)%nat -> Rabs (cur n - t) < eps)) /\
  (let target := [Binary64.ofZ 1; Binary64.ofZ 2; Binary64.ofZ 3] in
   let run := fun n =>
     ParticleSystem.morphFrames32 n 1 target (Binary64.ofZ 1)
       [Binary64.ofZ 0; Binary64.ofZ 0; Binary64.ofZ 0] in
   let stalled := [S754_finite false 16777210 (-24);
                   S754_finite false 16777210 (-23);
                   S754_finite false 12582906 (-22)] in
   (forall n, ParticleSystem.between32 (run n) (run (S n)) target = true) /\
   (forall n, (176 <= n)%nat -> run n = stalled) /\
   Binary64.near (15 # 10000000) 1 (nth 0 stalled S754_nan) = true /\
   Binary64.near (15 # 10000000) 2 (nth 1 stalled S754_nan) = true /\
   Binary64.near (15 # 10000000) 3 (nth 2 stalled S754_nan) = true).
Proof.
  split.
  - intros count target a st j t p Htr Ht Hp Htj Hpj.
    pose proof (morphSpeed_range a Htr) as Hs.
    set (s := ParticleSystem.morphSpeed a) in *.
    exists (fun n => ParticleSystem.lerpFrames n s t p).
    assert (Hpow : forall n, 0 < (1 - s) ^ n) by (intros n; apply pow_lt; lra).
    split; [reflexivity|]. split; [|split; [|split; [|split]]].
    + intros n. apply read_Some. apply frames_positions.
      * rewrite <- Hp. apply nth_error_Some. congruence.
      * now apply read_Some.
      * now apply read_Some.
    + intros n. rewrite !lerpFrames_closed, !Rabs_mult.
      rewrite !(Rabs_pos_eq (_ ^ _)) by (apply pow_le; lra).
      simpl pow. rewrite Rmult_assoc.
      assert (0 <= (1 - s) ^ n * Rabs (p - t))
        by (apply Rmult_le_pos; [apply pow_le; lra | apply Rabs_pos]).
      nra.
    + intros n Hne. rewrite !lerpFrames_closed, !Rabs_mult.
      rewrite !(Rabs_pos_eq (_ ^ _)) by (apply pow_le; lra).
      simpl pow. rewrite Rmult_assoc.
      assert (0 < (1 - s) ^ n * Rabs (p - t))
        by (apply Rmult_lt_0_compat; [apply Hpow | apply Rabs_pos_lt; lra]).
      nra.
    + intros n. pose proof (lerpFrames_closed n s t p) as Hc.
      specialize (Hpow n). repeat split; intros; nra.
    + intros eps Heps.
      destruct (Req_dec_T p t) as [->|Hne].
      * exists 0%nat. intros n _. rewrite lerpFrames_closed.
        rewrite Rminus_diag, Rmult_0_r, Rabs_R0. exact Heps.
      * assert (Hd : 0 < Rabs (p - t)) by (apply Rabs_pos_lt; lra).
        destruct (pow_lt_1_zero (1 - s)) with (y := eps / Rabs (p - t))
          as (N & HN).
        -- rewrite Rabs_pos_eq; lra.
        -- apply Rdiv_lt_0_compat; assumption.
        -- exists N. intros n Hn. rewrite lerpFrames_closed, Rabs_mult.
           specialize (HN n Hn).
           apply (Rmult_lt_compat_r (Rabs (p - t))) in HN; [|exact Hd].
           unfold Rdiv in HN. rewrite Rmult_assoc, Rinv_l, Rmult_1_r in HN; lra.
  - cbv zeta. destruct morph32_sample_run as (Happ & H176 & Hfix & Hsame).
    cbv zeta in Happ, H176, Hfix, Hsame.
    pose proof (morphFrames32_stalled _ _ _ 176 _ _ H176 Hfix) as Hstall.
    split; [|split; [exact Hstall | repeat split; reflexivity]].
    intros n. destruct (Nat.lt_ge_cases n 176) as [Hlt|Hge].
    + exact (approaches32_sound _ _ _ 176 _ Happ n Hlt).
    + rewrite (Hstall n Hge), (Hstall (S n)) by lia. exact Hsame.
Qed.

Lemma morph_converges_witness :
  exists cur : nat -> R,
    cur 0%nat = 0 /\
    (forall n,
        nth_error
          (ParticleSystem.positions
             (ParticleSystem.frames n 1 [Some 1; Some 2; Some 3]
                (ParticleSystem.mkAudio 0 0 1)
                (ParticleSystem.mkFrame [Some 0; Some 0; Some 0] 0))) 1
        = Some (Some (cur n))) /\
    (forall n, Rabs (cur (S n) - 2) <= Rabs (cur n - 2)) /\
    (forall n, 0 <> 2 -> Rabs (cur (S n) - 2) < Rabs (cur n - 2)) /\
    (forall n, (0 < 2 - 0 -> 0 < 2 - cur n) /\
               (2 - 0 < 0 -> 2 - cur n < 0) /\
               (2 = 0 -> cur n = 2)) /\
    (forall eps, 0 < eps ->
        exists N, forall n, (N <= n)%nat -> Rabs (cur n - 2) < eps).
Proof.
  destruct morph_converges as [Hexact _].
  apply (Hexact 1%nat [Some 1; Some 2; Some 3] (ParticleSystem.mkAudio 0 0 1)
           (ParticleSystem.mkFrame [Some 0; Some 0; Some 0] 0) 1%nat 2 0).
  - simpl; lra.
  - reflexivity.
  - reflexivity.
  - reflexivity.
  - reflexivity.
Defined.

(* ================================================================== *)
(** ** The gesture mapper *)

Section Gesture.
Import VisionController.

Lemma clamp_range (f : R) : 0 <= clamp f <= 1.
Proof.
  unfold clamp. destruct (Rgt_dec f 1.0); destruct (Rlt_dec _ 0.0); lra.
Qed.

Lemma clamp_Rmax_Rmin (f : R) : clamp f = Rmax 0 (Rmin 1 f).
Proof.
  unfold clamp, Rmax, Rmin.
  destruct (Rgt_dec f 1.0); destruct (Rlt_dec _ 0.0);
    destruct (Rle_dec 1 f); destruct (Rle_dec 0 _); lra.
Qed.

Lemma palmSize_nonneg (wrist indexBase : Landmark) :
  0 <= palmSize wrist indexBase.
Proof. apply sqrt_pos. Qed.

Lemma palmDivisor_nonzero (palm : R) : palm <> 0 -> palmDivisor palm = palm.
Proof.
  intros H. unfold palmDivisor, jsOr.
  destruct (Req_dec_T palm 0); [contradiction | reflexivity].
Qed.

Lemma palmDivisor_zero : palmDivisor 0 = 0.1.
Proof.
  unfold palmDivisor, jsOr. destruct (Req_dec_T 0 0); [reflexivity | lra].
Qed.

Lemma palmDivisor_pos (palm : R) : 0 <= palm -> 0 < palmDivisor palm.
Proof.
  intros H. unfold palmDivisor, jsOr. destruct (Req_dec_T palm 0); lra.
Qed.

(** A hand with the four landmarks present is always answered. *)
Lemma onResults_hand (landmarks : list Landmark) (rest : list (list Landmark))
    (thumbTip indexTip wrist indexBase : Landmark) :
  nth_error landmarks 4 = Some thumbTip ->
  nth_error landmarks 8 = Some indexTip ->
  nth_error landmarks 0 = Some wrist ->
  nth_error landmarks 5 = Some indexBase ->
  onResults (mkResults (Some (landmarks :: rest)))
  = Some (detected, handFactor thumbTip indexTip wrist indexBase).
Proof.
  intros H4 H8 H0 H5. unfold onResults. cbn [multiHandLandmarks].
  rewrite H4, H8, H0, H5. reflexivity.
Qed.

Lemma handOf_landmarks (wrist thumbTip indexBase indexTip : Landmark) :
  nth_error (handOf wrist thumbTip indexBase indexTip) 4 = Some thumbTip /\
  nth_error (handOf wrist thumbTip indexBase indexTip) 8 = Some indexTip /\
  nth_error (handOf wrist thumbTip indexBase indexTip) 0 = Some wrist /\
  nth_error (handOf wrist thumbTip indexBase indexTip) 5 = Some indexBase.
Proof. repeat split. Qed.

End Gesture.

(** C7.  The gesture factor is always in [[0, 1]] (and a factor is always
    produced when there is no hand or the hand carries its landmarks); with
    no hand it is exactly 1.0; with a hand whose thumb tip and index tip are
    at distance 0 it is exactly 0.0, whatever the palm reference. *)
Theorem gesture_factor_range :
  (forall results status factor,
      VisionController.onResults results = Some (status, factor) ->
      0 <= factor <= 1) /\
  (forall landmarks rest,
      (9 <= length landmarks)%nat ->
      exists factor,
        VisionController.onResults
          (VisionController.mkResults (Some (landmarks :: rest)))
        = Some (VisionController.detected, factor)) /\
  (forall results,
      VisionController.multiHandLandmarks results = None \/
      VisionController.multiHandLandmarks results = Some [] ->
      VisionController.onResults results = Some (VisionController.waiting, 1)) /\
  (forall landmarks rest thumbTip indexTip wrist indexBase,
      nth_error landmarks 4 = Some thumbTip ->
      nth_error landmarks 8 = Some indexTip ->
      nth_error landmarks 0 = Some wrist ->
      nth_error landmarks 5 = Some indexBase ->
      VisionController.pinchDist thumbTip indexTip = 0 ->
      VisionController.onResults
        (VisionController.mkResults (Some (landmarks :: rest)))
      = Some (VisionController.detected, 0)).
Proof.
  split; [|split; [|split]].
  - intros results status factor. unfold VisionController.onResults.
    destruct (VisionController.multiHandLandmarks results) as [[|lm rest]|].
    + intros H; inversion H; lra.
    + destruct (nth_error lm 4), (nth_error lm 8), (nth_error lm 0),
        (nth_error lm 5); try discriminate.
      intros H; inversion H. apply clamp_range.
    + intros H; inversion H; lra.
  - intros landmarks rest Hlen.
    destruct (nth_error landmarks 4) as [thumbTip|] eqn:E4;
      [|apply nth_error_None in E4; lia].
    destruct (nth_error landmarks 8) as [indexTip|] eqn:E8;
      [|apply nth_error_None in E8; lia].
    destruct (nth_error landmarks 0) as [wrist|] eqn:E0;
      [|apply nth_error_None in E0; lia].
    destruct (nth_error landmarks 5) as [indexBase|] eqn:E5;
      [|apply nth_error_None in E5; lia].
    eexists. apply (onResults_hand _ _ _ _ _ _ E4 E8 E0 E5).
  - intros results [H | H]; unfold VisionController.onResults; rewrite H;
      f_equal; f_equal; lra.
  - intros landmarks rest thumbTip indexTip wrist indexBase H4 H8 H0 H5 Hd.
    rewrite (onResults_hand _ _ _ _ _ _ H4 H8 H0 H5).
    unfold VisionController.handFactor. rewrite Hd.
    unfold VisionController.clamp, Rdiv. rewrite Rmult_0_l.
    destruct (Rgt_dec _ 1.0); destruct (Rlt_dec _ 0.0);
      f_equal; f_equal; lra.
Qed.

Lemma gesture_factor_range_witness :
  0 <= 1 <= 1 /\
  VisionController.onResults (VisionController.mkResults None)
    = Some (VisionController.waiting, 1) /\
  VisionController.onResults
    (VisionController.mkResults
       (Some [VisionController.handOf
                (VisionController.mkLandmark 0 0 0)
                (VisionController.mkLandmark 1 1 0)
                (VisionController.mkLandmark 1 0 0)
                (VisionController.mkLandmark 1 1 0)]))
    = Some (VisionController.detected, 0).
Proof.
  destruct gesture_factor_range as (Hrange & _ & Hnone & Hzero).
  pose proof (Hnone (VisionController.mkResults None) (or_introl eq_refl)) as E.
  split; [exact (Hrange _ _ _ E)|]. split; [exact E|].
  apply (Hzero _ [] (VisionController.mkLandmark 1 1 0)
           (VisionController.mkLandmark 1 1 0)
           (VisionController.mkLandmark 0 0 0)
           (VisionController.mkLandmark 1 0 0)); try reflexivity.
  unfold VisionController.pinchDist. cbn [VisionController.x VisionController.y].
  replace ((1 - 1) * (1 - 1) + (1 - 1) * (1 - 1)) with 0 by ring.
  apply sqrt_0.
Defined.

(** C6, as stated, fails: a palm distance of 0.05 is used as the divisor
    unchanged, so a pinch distance of 0.05 maps to the factor 0.8 and not to
    the 0.3 that a floor of 0.1 would give. *)
Lemma palm_floor_counterexample :
  0 < 0.05 < 0.1 /\
  VisionController.palmDivisor 0.05 = 0.05 /\
  VisionController.palmDivisor 0.05 <> 0.1 /\
  VisionController.onResults
    (VisionController.mkResults
       (Some [VisionController.handOf
                (VisionController.mkLandmark 0 0 0)
                (VisionController.mkLandmark 0.05 0 0)
                (VisionController.mkLandmark 0.05 0 0)
                (VisionController.mkLandmark 0 0 0)]))
    = Some (VisionController.detected, 0.8).
Proof.
  assert (Hd : VisionController.palmDivisor 0.05 = 0.05)
    by (apply palmDivisor_nonzero; lra).
  split; [lra|]. split; [exact Hd|]. split; [rewrite Hd; lra|].
  unfold VisionController.onResults, VisionController.handOf.
  cbn [VisionController.multiHandLandmarks nth_error].
  unfold VisionController.handFactor, VisionController.pinchDist,
    VisionController.palmSize.
  cbn [VisionController.x VisionController.y].
  replace ((0.05 - 0) * (0.05 - 0) + (0 - 0) * (0 - 0)) with (0.05 * 0.05) by lra.
  replace ((0 - 0.05) * (0 - 0.05) + (0 - 0) * (0 - 0)) with (0.05 * 0.05) by lra.
  rewrite sqrt_square by lra. rewrite Hd.
  unfold VisionController.clamp.
  destruct (Rgt_dec _ 1.0); destruct (Rlt_dec _ 0.0); f_equal; f_equal; lra.
Qed.

(** C6, amended.  For every detected hand the gesture factor is the
    thumb-tip-to-index-tip distance divided by the palm-reference distance,
    remapped from [[0.2, 1.2]] to [[0, 1]] and clamped; the divisor is the
    palm distance itself whenever that is not zero (in particular for every
    palm distance [p] with [0 < p < 0.1]) and is 0.1 only when the palm
    distance is exactly 0. *)
Theorem gesture_factor_formula :
  (forall landmarks rest thumbTip indexTip wrist indexBase,
      nth_error landmarks 4 = Some thumbTip ->
      nth_error landmarks 8 = Some indexTip ->
      nth_error landmarks 0 = Some wrist ->
      nth_error landmarks 5 = Some indexBase ->
      let pinch := VisionController.pinchDist thumbTip indexTip in
      let palm := VisionController.palmSize wrist indexBase in
      let divisor := VisionController.palmDivisor palm in
      VisionController.onResults
        (VisionController.mkResults (Some (landmarks :: rest)))
      = Some (VisionController.detected,
              Rmax 0 (Rmin 1 (pinch / divisor - 0.2))) /\
      (0 < palm -> divisor = palm) /\
      (palm = 0 -> divisor = 0.1) /\
      0 < divisor) /\
  (forall p, 0 < p < 0.1 -> VisionController.palmDivisor p = p).
Proof.
  split.
  - intros landmarks rest thumbTip indexTip wrist indexBase H4 H8 H0 H5
      pinch palm divisor.
    split; [|split; [|split]].
    + rewrite (onResults_hand _ _ _ _ _ _ H4 H8 H0 H5).
      unfold VisionController.handFactor. rewrite clamp_Rmax_Rmin.
      fold pinch palm divisor. do 4 f_equal. lra.
    + intros Hpos. apply palmDivisor_nonzero. lra.
    + intros Hz. unfold divisor. rewrite Hz. apply palmDivisor_zero.
    + apply palmDivisor_pos, palmSize_nonneg.
  - intros p Hp. apply palmDivisor_nonzero. lra.
Qed.

Lemma gesture_factor_formula_witness :
  VisionController.palmDivisor 0.05 = 0.05 /\
  VisionController.onResults
    (VisionController.mkResults
       (Some [VisionController.handOf
                (VisionController.mkLandmark 0 0 0)
                (VisionController.mkLandmark 1 1 0)
                (VisionController.mkLandmark 1 0 0)
                (VisionController.mkLandmark 1 1 0)]))
  = Some (VisionController.detected,
          Rmax 0 (Rmin 1
            (VisionController.pinchDist (VisionController.mkLandmark 1 1 0)
                                        (VisionController.mkLandmark 1 1 0)
             / VisionController.palmDivisor
                 (VisionController.palmSize (VisionController.mkLandmark 0 0 0)
                                            (VisionController.mkLandmark 1 0 0))
             - 0.2))).
Proof.
  destruct gesture_factor_formula as (Hhand & Hdiv).
  split; [apply Hdiv; lra|].
  apply (Hhand _ [] (VisionController.mkLandmark 1 1 0)
           (VisionController.mkLandmark 1 1 0)
           (VisionController.mkLandmark 0 0 0)
           (VisionController.mkLandmark 1 0 0)); reflexivity.
Defined.

(* ================================================================== *)
(** ** The shape generator: the sampling monad and the loop *)

Lemma nth_upd_same {A : Type} (l : list A) (i : nat) (v d : A) :
  (i < length l)%nat -> nth i (upd l i v) d = v.
Proof.
  intros H. apply nth_error_nth. now apply nth_error_upd_same.
Qed.

Lemma nth_upd_other {A : Type} (l : list A) (i j : nat) (v d : A) :
  i <> j -> nth j (upd l i v) d = nth j l d.
Proof.
  revert i j; induction l as [|h t IH]; intros [|i] [|j] Hne; simpl;
    try congruence; auto.
Qed.

Section Sampling.
Import ShapeGenerator.

Variable draws : nat -> R.

Lemma yields_ret {A : Type} (a : A) (Q : A -> Prop) :
  Q a -> yields (ret a) draws Q.
Proof. intros H n. exists a, n. split; [reflexivity | exact H]. Qed.

Lemma yields_bind {A B : Type} (m : Gen A) (k : A -> Gen B)
    (P : A -> Prop) (Q : B -> Prop) :
  yields m draws P -> (forall a, P a -> yields (k a) draws Q) ->
  yields (bind m k) draws Q.
Proof.
  intros Hm Hk n. destruct (Hm n) as (a & n1 & Em & Ha).
  destruct (Hk a Ha n1) as (b & n2 & Ek & Hb).
  exists b, n2. unfold bind. rewrite Em. split; assumption.
Qed.

Lemma yields_weaken {A : Type} (m : Gen A) (P Q : A -> Prop) :
  yields m draws P -> (forall a, P a -> Q a) -> yields m draws Q.
Proof.
  intros Hm HPQ n. destruct (Hm n) as (a & n' & E & Ha).
  exists a, n'. split; [exact E | apply HPQ, Ha].
Qed.

Lemma yields_random_any : yields random draws (fun _ => True).
Proof. intros n. exists (draws n), (S n). split; [reflexivity | exact I]. Qed.

Lemma yields_num (a : number) (r : R) :
  a = Some r -> yields (num a) draws (fun v => v = r).
Proof.
  intros -> n. exists r, n. split; reflexivity.
Qed.

Lemma yields_div (a b : R) :
  b <> 0 -> yields (div a b) draws (fun v => v = a / b).
Proof.
  intros Hb. apply yields_num. now apply jsdiv_Some.
Qed.

Lemma yields_fallback (radius : R) :
  yields (fallback radius) draws (fun _ => True).
Proof.
  unfold fallback.
  do 3 (eapply yields_bind; [apply yields_random_any | intros ? _]).
  now apply yields_ret.
Qed.

Lemma forEach_app {S : Type} (body : S -> nat -> Gen S) (l1 l2 : list nat)
    (s : S) (n : nat) :
  forEach body (l1 ++ l2) s draws n
  = bind (forEach body l1 s) (forEach body l2) draws n.
Proof.
  revert s n; induction l1 as [|i l1 IH]; intros s n; simpl.
  - reflexivity.
  - unfold bind.
    destruct (body s i draws n) as [[s' n']|]; [|reflexivity].
    rewrite IH. reflexivity.
Qed.

(** Invariant rule for the counting loop [for (i = 0; i < k; i++)]. *)
Lemma forEach_invariant {S : Type} (body : S -> nat -> Gen S)
    (Inv : nat -> S -> Prop) (bound : nat) (s0 : S) :
  Inv 0%nat s0 ->
  (forall i s, (i < bound)%nat -> Inv i s -> yields (body s i) draws (Inv (Datatypes.S i))) ->
  forall k, (k <= bound)%nat -> yields (forEach body (seq 0 k) s0) draws (Inv k).
Proof.
  intros H0 Hstep. induction k as [|k IH]; intros Hk.
  - simpl. now apply yields_ret.
  - intros n. rewrite seq_S, forEach_app. simpl seq.
    revert n. eapply yields_bind; [apply IH; lia|].
    intros s Hs. simpl forEach.
    eapply yields_bind; [apply Hstep; [lia | exact Hs]|].
    intros s' Hs'. now apply yields_ret.
Qed.

Lemma store_length (ps : list R) (i : nat) (v : Vector3) :
  length (store ps i v) = length ps.
Proof. unfold store. now rewrite !upd_length. Qed.

Lemma point_store_same (ps : list R) (i : nat) (v : Vector3) :
  (i * 3 + 2 < length ps)%nat -> point (store ps i v) i = v.
Proof.
  intros H. unfold point, store. destruct v as [a b c]; cbn [vx vy vz].
  f_equal.
  - rewrite !nth_upd_other by lia. apply nth_upd_same; lia.
  - rewrite nth_upd_other by lia. apply nth_upd_same. rewrite upd_length; lia.
  - apply nth_upd_same. rewrite !upd_length; lia.
Qed.

Lemma point_store_other (ps : list R) (i j : nat) (v : Vector3) :
  i <> j -> point (store ps i v) j = point ps j.
Proof.
  intros H. unfold point, store. f_equal; rewrite !nth_upd_other by lia; reflexivity.
Qed.

Variables (type : ShapeType) (count : nat) (radius : R).
Variable P : nat -> Vector3 -> Prop.

Hypothesis Hpoint : forall i tempVec, (i < count)%nat ->
  yields (shapePoint type i count (INR i / INR count) radius tempVec) draws (P i).

Lemma iteration_yields (st : list R * Vector3) (i : nat) :
  (i < count)%nat ->
  yields (iteration type count radius st i) draws
         (fun st' => fst st' = store (fst st) i (snd st') /\ P i (snd st')).
Proof.
  intros Hi. unfold iteration.
  eapply yields_bind.
  - apply yields_div. apply not_0_INR. lia.
  - intros t ->. eapply yields_bind; [apply yields_fallback | intros _ _].
    eapply yields_bind; [apply Hpoint, Hi|].
    intros v Hv. apply yields_ret. split; [reflexivity | exact Hv].
Qed.

(** The whole call returns a buffer of [count * 3] numbers whose [i]-th
    point is what iteration [i] produced. *)
Lemma generate_yields :
  exists ps, generate type count radius draws = Some ps /\
             length ps = (count * 3)%nat /\
             forall i, (i < count)%nat -> P i (point ps i).
Proof.
  pose (Inv := fun (k : nat) (st : list R * Vector3) =>
                 length (fst st) = (count * 3)%nat /\
                 forall i, (i < k)%nat -> P i (point (fst st) i)).
  assert (H : yields (forEach (iteration type count radius) (seq 0 count)
                        (repeat 0 (count * 3), vec 0 0 0)) draws (Inv count)).
  { apply forEach_invariant with (bound := count); [| |lia].
    - split; [apply repeat_length | intros i Hi; lia].
    - intros i st Hi [Hlen Hdone].
      eapply yields_weaken; [apply iteration_yields, Hi|].
      intros st' [Efst HP]. split.
      + rewrite Efst, store_length. exact Hlen.
      + intros j Hj. rewrite Efst.
        destruct (Nat.eq_dec i j) as [<-|Hne].
        * rewrite point_store_same by lia. exact HP.
        * rewrite point_store_other by assumption. apply Hdone. lia. }
  destruct (H 0%nat) as ([ps tv] & n' & E & Hlen & Hps).
  exists ps. unfold generate, generateShapePositions, bind.
  rewrite E. simpl. split; [reflexivity|]. split; assumption.
Qed.

End Sampling.

(* ================================================================== *)
(** ** Geometry of the vector operations *)

Section Geometry.
Import ShapeGenerator.

Lemma Math_acos_in (v : R) : -1 <= v <= 1 -> Math_acos v = Some (acos v).
Proof.
  intros [Hl Hu]. unfold Math_acos.
  destruct (Rle_dec (-1) v); [|contradiction].
  destruct (Rle_dec v 1); [reflexivity | contradiction].
Qed.

Lemma Math_sqrt_in (v : R) : 0 <= v -> Math_sqrt v = Some (sqrt v).
Proof.
  intros H. unfold Math_sqrt. destruct (Rle_dec 0 v); [reflexivity | contradiction].
Qed.

(** [Math.pow(u, 0.1)] of a draw is a number of the unit interval. *)
Lemma Math_pow_unit (u : R) :
  0 <= u < 1 -> exists p, Math_pow u 0.1 = Some p /\ 0 <= p <= 1.
Proof.
  intros [Hl Hu]. unfold Math_pow.
  destruct (Rlt_dec 0 u) as [Hpos|Hnpos].
  - exists (Rpower u 0.1). split; [reflexivity|].
    unfold Rpower. split; [left; apply exp_pos|].
    rewrite <- exp_0. left. apply exp_increasing.
    assert (ln u < 0) by (rewrite <- ln_1; apply ln_increasing; lra).
    lra.
  - assert (u = 0) by lra. subst u.
    destruct (Req_dec_T 0 0); [|lra].
    destruct (Rlt_dec 0 0.1); [|lra].
    exists 0. split; [reflexivity | lra].
Qed.

Lemma trig_square (a : R) : sin a * sin a + cos a * cos a = 1.
Proof. pose proof (sin2_cos2 a) as H. unfold Rsqr in H. exact H. Qed.

Lemma sin_range (a : R) : -1 <= sin a <= 1.
Proof. apply SIN_bound. Qed.

Lemma cos_range (a : R) : -1 <= cos a <= 1.
Proof. apply COS_bound. Qed.

Lemma spherical_lengthSq (r phi theta : R) :
  lengthSq (setFromSphericalCoords r phi theta) = r * r.
Proof.
  unfold lengthSq, setFromSphericalCoords; cbn [vx vy vz].
  replace (sin phi * r * sin theta * (sin phi * r * sin theta)
           + cos phi * r * (cos phi * r)
           + sin phi * r * cos theta * (sin phi * r * cos theta))
    with (r * r * (sin phi * sin phi * (sin theta * sin theta + cos theta * cos theta)
                   + cos phi * cos phi)) by ring.
  rewrite trig_square, Rmult_1_r, trig_square. ring.
Qed.

(** [applyAxisAngle] about the unit X axis is the usual rotation matrix. *)
Lemma applyAxisAngle_X (v : Vector3) (angle : R) :
  applyAxisAngle v (vec 1 0 0) angle = rotateX angle v.
Proof.
  unfold applyAxisAngle, applyQuaternion, setFromAxisAngle, rotateX.
  cbn [vx vy vz qx qy qz qw].
  replace (cos angle) with (cos (2 * (angle / 2))) by (f_equal; field).
  replace (sin angle) with (sin (2 * (angle / 2))) by (f_equal; field).
  rewrite cos_2a_sin, sin_2a.
  f_equal; ring.
Qed.

Lemma rotateX_lengthSq (v : Vector3) (angle : R) :
  lengthSq (rotateX angle v) = lengthSq v.
Proof.
  unfold lengthSq, rotateX; cbn [vx vy vz].
  replace (vx v * vx v
           + (vy v * cos angle - vz v * sin angle) * (vy v * cos angle - vz v * sin angle)
           + (vy v * sin angle + vz v * cos angle) * (vy v * sin angle + vz v * cos angle))
    with (vx v * vx v
          + (vy v * vy v + vz v * vz v) * (sin angle * sin angle + cos angle * cos angle))
    by ring.
  rewrite trig_square. ring.
Qed.

(** A point on the circle of radius [r] in the XZ plane. *)
Lemma circle_square (r a : R) :
  r * cos a * (r * cos a) + r * sin a * (r * sin a) = r * r.
Proof.
  replace (r * cos a * (r * cos a) + r * sin a * (r * sin a))
    with (r * r * (sin a * sin a + cos a * cos a)) by ring.
  rewrite trig_square. ring.
Qed.

Lemma lengthSq_nonneg (v : Vector3) : 0 <= lengthSq v.
Proof. unfold lengthSq. nra. Qed.

Lemma length_le (v : Vector3) (b : R) :
  0 <= b -> lengthSq v <= b * b -> Vector3_length v <= b.
Proof.
  intros Hb H. unfold Vector3_length.
  rewrite <- (sqrt_square b) by assumption.
  apply sqrt_le_1; [apply lengthSq_nonneg | nra | exact H].
Qed.

Lemma cube_range (a : R) : -1 <= a <= 1 -> -1 <= a ^ 3 <= 1.
Proof. intros H. simpl. nra. Qed.

End Geometry.

(* ================================================================== *)
(** ** The heart does not read the radius *)

Section HeartRadius.
Import ShapeGenerator.

Lemma forEach_ext {S : Type} (body1 body2 : S -> nat -> Gen S) (l : list nat) :
  (forall s i draws n, body1 s i draws n = body2 s i draws n) ->
  forall s draws n, forEach body1 l s draws n = forEach body2 l s draws n.
Proof.
  intros Hb. induction l as [|i l IH]; intros s draws n; simpl.
  - reflexivity.
  - unfold bind. rewrite Hb.
    destruct (body2 s i draws n) as [[s' n']|]; [apply IH | reflexivity].
Qed.

(** The fallback draws move the cursor by three, whatever the radius. *)
Lemma fallback_cursor (radius : R) (draws : nat -> R) (n : nat) :
  option_map snd (fallback radius draws n) = Some (S (S (S n))).
Proof. reflexivity. Qed.

Lemma iteration_heart_radius (count : nat) (r1 r2 : R)
    (st : list R * Vector3) (i : nat) (draws : nat -> R) (n : nat) :
  iteration HEART count r1 st i draws n = iteration HEART count r2 st i draws n.
Proof.
  unfold iteration, bind.
  destruct (div (INR i) (INR count) draws n) as [[t n1]|]; reflexivity.
Qed.

End HeartRadius.

Lemma heart_total (draws : nat -> R) :
  ShapeGenerator.yields ShapeGenerator.heart draws (fun _ => True).
Proof.
  unfold ShapeGenerator.heart.
  do 3 (eapply yields_bind; [apply yields_random_any | intros ? _; cbv zeta]).
  now apply yields_ret.
Qed.

(** C9.  The heart generator does not depend on the radius: on the same
    random draws, [generateShapePositions(HEART, count, r1)] and
    [generateShapePositions(HEART, count, r2)] return the same buffer, for
    every count and any two radii. *)
Theorem heart_radius_independent (count : nat) (r1 r2 : R) (draws : nat -> R) :
  exists ps,
    ShapeGenerator.generate ShapeGenerator.HEART count r1 draws = Some ps /\
    ShapeGenerator.generate ShapeGenerator.HEART count r2 draws = Some ps.
Proof.
  destruct (generate_yields draws ShapeGenerator.HEART count r1 (fun _ _ => True))
    as (ps & E & _).
  { intros i tempVec _. apply heart_total. }
  exists ps. split; [exact E|]. rewrite <- E.
  unfold ShapeGenerator.generate, ShapeGenerator.generateShapePositions,
    ShapeGenerator.bind.
  rewrite (forEach_ext _ (ShapeGenerator.iteration ShapeGenerator.HEART count r1));
    [reflexivity|].
  intros st i d n. apply iteration_heart_radius.
Qed.

(* ================================================================== *)
(** ** The thirteen samplers

    Every sampler returns for every [radius > 0] and every stream of draws
    from [[0, 1)]; its point lies within [2.5 * radius] of the origin when
    [5 <= radius <= 50]. *)

Section Shapes.
Import ShapeGenerator.


Variable draws : nat -> R.
Hypothesis Hdraws : forall n, 0 <= draws n < 1.
Variable radius : R.
Hypothesis Hradius : 0 < radius.

Local Abbreviation bounded :=
  (fun v : Vector3 => 5 <= radius <= 50 -> lengthSq v <= (2.5 * radius) * (2.5 * radius)).

Lemma yields_random : yields random draws (fun u => 0 <= u < 1).
Proof. intros n. exists (draws n), (S n). split; [reflexivity | apply Hdraws]. Qed.

Ltac draw u Hu :=
  eapply yields_bind; [apply yields_random | intros u Hu; cbv beta in Hu; cbv zeta].

Ltac acos_of u Hu phi :=
  eapply yields_bind;
  [apply yields_num, Math_acos_in; lra | intros phi _; cbv zeta].

Lemma nebula_bounded : yields (nebula radius) draws bounded.
Proof.
  unfold nebula. draw u1 H1. draw u2 H2. draw u3 H3. acos_of u3 H3 phi.
  apply yields_ret. intros HR.
  set (v := setFromSphericalCoords (u1 * radius) phi (u2 * PI * 2)).
  pose proof (spherical_lengthSq (u1 * radius) phi (u2 * PI * 2)) as Hv.
  fold v in Hv. unfold lengthSq in *. cbn [vx vy vz].
  pose proof (trig_square (sin (u1 * radius * 0.5))) as Ht.
  set (s := sin (sin (u1 * radius * 0.5))) in *.
  set (c := cos (sin (u1 * radius * 0.5))) in *.
  replace ((vx v * c - vz v * s) * (vx v * c - vz v * s)
           + vy v * 0.3 * (vy v * 0.3)
           + (vx v * s + vz v * c) * (vx v * s + vz v * c))
    with ((vx v * vx v + vz v * vz v) * (s * s + c * c) + 0.09 * (vy v * vy v))
    by (decimals; field).
  rewrite Ht.
  assert (0 <= u1 * radius <= radius) by nra.
  assert (u1 * radius * (u1 * radius) <= radius * radius) by nra.
  pose proof (Rle_0_sqr (vy v)) as Hy. unfold Rsqr in Hy.
  nra.
Qed.

Lemma heart_bounded : yields heart draws bounded.
Proof.
  unfold heart. draw u1 H1. draw u2 H2. draw u3 H3.
  apply yields_ret. intros HR.
  unfold lengthSq, multiplyScalar; cbn [vx vy vz].
  pose proof (cube_range _ (sin_range (u1 * PI * 2))) as Hs3.
  pose proof (sin_range (u1 * PI * 2)) as Hs.
  pose proof (cos_range (u1 * PI * 2)) as Hc1.
  pose proof (cos_range (2 * (u1 * PI * 2))) as Hc2.
  pose proof (cos_range (3 * (u1 * PI * 2))) as Hc3.
  pose proof (cos_range (4 * (u1 * PI * 2))) as Hc4.
  set (s3 := sin (u1 * PI * 2) ^ 3) in *.
  set (s := sin (u1 * PI * 2)) in *.
  set (hy := 13 * cos (u1 * PI * 2) - 5 * cos (2 * (u1 * PI * 2))
             - 2 * cos (3 * (u1 * PI * 2)) - cos (4 * (u1 * PI * 2))).
  assert (Hhy : -21 <= hy <= 21) by (unfold hy; lra).
  set (hz := (u3 - 0.5) * 6 * s).
  assert (Hhz : -3 <= hz <= 3) by (unfold hz; nra).
  nra.
Qed.

Lemma flower_bounded (t : R) : yields (flower t radius) draws bounded.
Proof.
  unfold flower.
  eapply yields_bind; [apply yields_div; lra | intros q Hq; cbv beta in Hq; cbv zeta].
  draw u1 H1. apply yields_ret. intros HR.
  unfold lengthSq; cbn [vx vy vz].
  pose proof (cos_range (5 * (t * PI * 2 * 10))) as Hc.
  set (c5 := cos (5 * (t * PI * 2 * 10))) in *.
  assert (Hq01 : 0 <= q <= 1).
  { subst q. rewrite Rabs_mult, (Rabs_pos_eq radius) by lra.
    unfold Rdiv. rewrite Rmult_assoc, Rinv_r, Rmult_1_r by lra.
    split; [apply Rabs_pos | apply Rabs_le; lra]. }
  pose proof (trig_square (t * PI * 2 * 10)) as Ht.
  set (su := sin (t * PI * 2 * 10)) in *. set (cu := cos (t * PI * 2 * 10)) in *.
  set (y := q ^ 2 * 5 - 2 + (u1 - 0.5)).
  assert (Hy : -2.5 <= y <= 3.5) by (unfold y; simpl; nra).
  replace (c5 * radius * cu * (c5 * radius * cu) + y * y + c5 * radius * su * (c5 * radius * su))
    with (c5 * c5 * (radius * radius) * (su * su + cu * cu) + y * y) by ring.
  rewrite Ht.
  assert (c5 * c5 <= 1) by nra.
  assert (y * y <= 12.25) by nra.
  assert (c5 * c5 * (radius * radius) <= radius * radius) by nra.
  nra.
Qed.

Lemma saturn_spec (i count : nat) :
  yields (saturn i count radius) draws
    (fun v =>
       (INR i < INR count * 0.4 -> lengthSq v = (radius * 0.6) * (radius * 0.6)) /\
       (~ INR i < INR count * 0.4 ->
        exists px h pz,
          v = rotateX (PI / 6) (vec px h pz) /\
          1.2 * radius <= sqrt (px * px + pz * pz) <= 2.0 * radius /\
          -0.25 <= h <= 0.25)).
Proof.
  unfold saturn. destruct (Rlt_dec (INR i) (INR count * 0.4)) as [Hi|Hi]; cbv zeta.
  - draw u1 H1. draw u2 H2. acos_of u2 H2 phi.
    apply yields_ret. split; [|contradiction].
    intros _. apply spherical_lengthSq.
  - draw u1 H1. draw u2 H2. draw u3 H3.
    apply yields_ret. split; [contradiction|]. intros _.
    eexists _, _, _. split; [apply applyAxisAngle_X|].
    rewrite circle_square.
    assert (0 <= radius * (1.2 + u2 * 0.8)) by nra.
    rewrite sqrt_square by assumption. nra.
Qed.

Lemma saturn_bounded (i count : nat) : yields (saturn i count radius) draws bounded.
Proof.
  eapply yields_weaken; [apply saturn_spec|].
  intros v [Hsphere Hring] HR.
  destruct (Rlt_dec (INR i) (INR count * 0.4)) as [Hi|Hi].
  - rewrite (Hsphere Hi). nra.
  - destruct (Hring Hi) as (px & h & pz & -> & Hd & Hh).
    rewrite rotateX_lengthSq. unfold lengthSq; cbn [vx vy vz].
    assert (Hpos : 0 <= px * px + pz * pz) by nra.
    pose proof (sqrt_sqrt _ Hpos) as Hs.
    set (d := sqrt (px * px + pz * pz)) in *.
    assert (d * d <= 2.0 * radius * (2.0 * radius)) by nra.
    assert (h * h <= 0.0625) by nra.
    nra.
Qed.

Lemma square_le (a b : R) : 0 <= a <= b -> a * a <= b * b.
Proof. intros H. nra. Qed.

Lemma square_abs_le (a b : R) : - b <= a <= b -> a * a <= b * b.
Proof. intros H. nra. Qed.

Lemma sqrt_unit (u : R) : 0 <= u < 1 -> 0 <= sqrt u <= 1.
Proof.
  intros [Hl Hu]. split; [apply sqrt_pos|].
  rewrite <- sqrt_1. apply sqrt_le_1; lra.
Qed.

Ltac circle r a x z Hxz :=
  pose proof (circle_square r a) as Hxz;
  set (x := r * cos a) in *; set (z := r * sin a) in *; clearbody x z.

Lemma cake_bounded (i count : nat) : yields (cake i count radius) draws bounded.
Proof.
  unfold cake. draw rand Hrand.
  eapply yields_bind with
    (P := fun v0 => 5 <= radius <= 50 ->
                    vx v0 * vx v0 + vz v0 * vz v0 <= 1.21 * (radius * radius) /\
                    0 <= vy v0 <= 1.1 * radius).
  - destruct (Rgt_dec (INR i) (INR count * 0.98));
      [|destruct (Rgt_dec (INR i) (INR count * 0.95));
        [|destruct (Rgt_dec (INR i) (INR count * 0.90));
          [|destruct (Rgt_dec (INR i) (INR count * 0.55))]]]; cbv zeta.
    + draw u1 H1. draw u2 H2. draw u3 H3. draw u4 H4.
      apply yields_ret. intros HR. unfold setX, setZ; cbn [vx vy vz].
      set (a := IZR _ / 6 * PI * 2).
      circle (radius * 0.65 * 0.6) a x z Hxz.
      split; [|nra].
      assert (x * x <= 0.1521 * (radius * radius)) by nra.
      assert (z * z <= 0.1521 * (radius * radius)) by nra.
      assert (-0.4 * radius <= x <= 0.4 * radius) by nra.
      assert (-0.4 * radius <= z <= 0.4 * radius) by nra.
      nra.
    + draw u1 H1. draw u2 H2.
      apply yields_ret. intros HR. cbn [vx vy vz].
      set (a := IZR _ / 6 * PI * 2).
      circle (radius * 0.65 * 0.6) a x z Hxz.
      split; nra.
    + draw u1 H1. draw u2 H2.
      apply yields_ret. intros HR. cbn [vx vy vz].
      pose proof (sin_range (u1 * PI * 2 * 20)) as Hs.
      set (s20 := sin (u1 * PI * 2 * 20)) in *. clearbody s20.
      destruct (Rgt_dec u2 0.5).
      * circle (radius * 0.65 + 0.5 * s20 * 0.2) (u1 * PI * 2) x z Hxz.
        split; nra.
      * circle (radius + 0.5 * s20 * 0.2) (u1 * PI * 2) x z Hxz.
        split; nra.
    + draw u1 H1. draw u2 H2.
      eapply yields_bind;
        [apply yields_num, Math_sqrt_in; lra | intros sq ->; cbv zeta].
      draw u3 H3. apply yields_ret. intros HR. cbn [vx vy vz].
      pose proof (sqrt_unit u2 H2) as Hsq. set (sq := sqrt u2) in *. clearbody sq.
      assert (Hr : 0 <= sq * (radius * 0.65) <= 0.65 * radius) by nra.
      apply square_le in Hr.
      circle (sq * (radius * 0.65)) (u1 * PI * 2) x z Hxz.
      split; nra.
    + draw u1 H1. draw u2 H2.
      eapply yields_bind;
        [apply yields_num, Math_sqrt_in; lra | intros sq ->; cbv zeta].
      draw u3 H3. apply yields_ret. intros HR. cbn [vx vy vz].
      pose proof (sqrt_unit u2 H2) as Hsq. set (sq := sqrt u2) in *. clearbody sq.
      assert (Hr : 0 <= sq * radius <= radius) by nra.
      apply square_le in Hr.
      circle (sq * radius) (u1 * PI * 2) x z Hxz.
      split; nra.
  - intros v0 Hv0. apply yields_ret. intros HR.
    destruct (Hv0 HR) as [Hxz Hy].
    unfold lengthSq, setY; cbn [vx vy vz]. nra.
Qed.

Lemma fireworks_bounded : yields (fireworks radius) draws bounded.
Proof.
  unfold fireworks. draw u1 H1. draw u2 H2. acos_of u2 H2 phi. draw u3 H3.
  destruct (Math_pow_unit u3 H3) as (p & Ep & Hp).
  eapply yields_bind; [apply yields_num, Ep | intros p' ->; cbv zeta].
  apply yields_ret. intros HR. rewrite spherical_lengthSq.
  apply square_le. nra.
Qed.

Lemma spiral_bounded (t : R) :
  0 <= t < 1 -> yields (spiral t radius) draws bounded.
Proof.
  intros Ht. unfold spiral.
  assert (HPI : PI * 2 * 4 <> 0) by (pose proof PI_RGT_0; lra).
  eapply yields_bind; [apply yields_div, HPI | intros q Hq; cbv beta in Hq; cbv zeta].
  assert (Hqt : q = t) by (rewrite Hq; field; pose proof PI_RGT_0; lra).
  rewrite Hqt. clear q Hq Hqt.
  draw u1 H1. draw u2 H2. apply yields_ret. intros HR.
  unfold lengthSq; cbn [vx vy vz].
  assert (Hw : - (1.6 * radius)
               <= t * radius * 1.5 + (u1 - 0.5) * (radius * 0.2)
               <= 1.6 * radius) by nra.
  apply square_abs_le in Hw.
  assert (Hy : - (0.05 * radius) <= (u2 - 0.5) * radius * 0.1 <= 0.05 * radius) by nra.
  apply square_abs_le in Hy.
  circle (t * radius * 1.5 + (u1 - 0.5) * (radius * 0.2)) (t * PI * 2 * 4) x z Hxz.
  nra.
Qed.

Lemma div_shrink (a d : R) : 1 <= d -> (a / d) * (a / d) <= a * a.
Proof.
  intros Hd. assert (Hi : 0 < / d <= 1).
  { split; [apply Rinv_0_lt_compat; lra|].
    rewrite <- Rinv_1. apply Rinv_le_contravar; lra. }
  unfold Rdiv. set (k := / d) in *. clearbody k.
  assert (k * k <= 1) by nra. pose proof (Rle_0_sqr a) as Ha. unfold Rsqr in Ha.
  nra.
Qed.

Lemma lemniscate_bounded (t : R) : yields (lemniscate t radius) draws bounded.
Proof.
  unfold lemniscate.
  set (sinT := sin (t * PI * 2)). set (cosT := cos (t * PI * 2)).
  assert (Hd : 1 <= 1 + sinT * sinT) by nra.
  eapply yields_bind; [apply yields_div; lra | intros bx Hbx; cbv beta in Hbx; cbv zeta].
  eapply yields_bind; [apply yields_div; lra | intros by_ Hby; cbv beta in Hby; cbv zeta].
  draw u1 H1. apply yields_ret. intros HR.
  rewrite applyAxisAngle_X, rotateX_lengthSq. unfold lengthSq; cbn [vx vy vz].
  pose proof (div_shrink (radius * 1.2 * cosT) _ Hd) as Hx. rewrite <- Hbx in Hx.
  pose proof (div_shrink (radius * 1.2 * cosT * sinT) _ Hd) as Hy. rewrite <- Hby in Hy.
  pose proof (sin_range (t * PI * 2)) as Hs. fold sinT in Hs.
  pose proof (cos_range (t * PI * 2)) as Hc. fold cosT in Hc.
  clearbody sinT cosT.
  assert (cosT * cosT <= 1) by nra.
  assert (sinT * sinT <= 1) by nra.
  assert (cosT * sinT * (cosT * sinT) <= 1) by nra.
  assert (radius * 1.2 * cosT * (radius * 1.2 * cosT) <= 1.44 * (radius * radius)) by nra.
  assert (radius * 1.2 * cosT * sinT * (radius * 1.2 * cosT * sinT)
          <= 1.44 * (radius * radius)) by nra.
  assert ((u1 - 0.5) * 2.0 * ((u1 - 0.5) * 2.0) <= 1) by nra.
  nra.
Qed.

(** *** The fractal *)

Lemma normalize_box (v : Vector3) : box 1 (normalize v).
Proof.
  unfold normalize, divideScalar, jsOr, Vector3_length.
  pose proof (lengthSq_nonneg v) as Hsq.
  pose proof (sqrt_pos (lengthSq v)) as Hlen.
  pose proof (sqrt_sqrt _ Hsq) as Hll.
  destruct (Req_dec_T (sqrt (lengthSq v)) 0) as [Hz|Hnz].
  - rewrite Hz in Hll. unfold lengthSq in Hll.
    assert (vx v = 0 /\ vy v = 0 /\ vz v = 0) as (Hx & Hy & Hzz) by (repeat split; nra).
    unfold box, multiplyScalar; cbn [vx vy vz]. rewrite Hx, Hy, Hzz. lra.
  - set (l := sqrt (lengthSq v)) in *.
    assert (Hl : 0 < l) by lra.
    unfold lengthSq in Hll.
    assert (Hb : forall a, a * a <= l * l -> -1 <= a * (1 / l) <= 1).
    { intros a Ha. assert (- l <= a <= l) by nra.
      split.
      - apply Rmult_le_reg_r with l; [exact Hl|]. field_simplify; lra.
      - apply Rmult_le_reg_r with l; [exact Hl|]. field_simplify; lra. }
    unfold box, multiplyScalar; cbn [vx vy vz].
    repeat split; apply Hb; nra.
Qed.

Lemma yields_pick (u : R) :
  0 <= u < 1 -> yields (pick tetrahedron (floor (u * 4)%R)) draws (box 1).
Proof.
  intros Hu n. pose proof (floor_bounds (u * 4)) as Hf.
  set (k := floor (u * 4)) in *.
  assert (Hk : (-1 < k < 4)%Z).
  { split; apply lt_IZR; [|lra]. replace (IZR (-1)) with (-1) by reflexivity. lra. }
  unfold pick.
  assert (Hcases : (k = 0 \/ k = 1 \/ k = 2 \/ k = 3)%Z) by lia.
  destruct Hcases as [-> | [-> | [-> | ->]]]; simpl;
    eexists _, _; (split; [reflexivity|]); unfold box; cbn [vx vy vz]; lra.
Qed.

Lemma chaosGame_box (depth : nat) :
  forall current,
    yields (chaosGame depth current) draws
      (fun v => forall b, 1 <= b -> box b current ->
                          box (1 + (b - 1) / 2 ^ depth) v).
Proof.
  induction depth as [|d IH]; intros current; simpl chaosGame.
  - apply yields_ret. intros b Hb Hc. simpl.
    replace (1 + (b - 1) / 1) with b by field. exact Hc.
  - draw u Hu.
    eapply yields_bind; [apply yields_pick, Hu | intros target Ht].
    eapply yields_weaken; [apply IH|].
    intros v Hv b Hb Hc.
    replace (1 + (b - 1) / 2 ^ S d) with (1 + ((0.5 * b + 0.5) - 1) / 2 ^ d).
    2:{ simpl. decimals. field. apply pow_nonzero. lra. }
    apply Hv; [lra|].
    destruct Hc as (Hx & Hy & Hz). destruct Ht as (Tx & Ty & Tz).
    unfold box, add, multiplyScalar, sub; cbn [vx vy vz]. lra.
Qed.

Lemma koch_bounded : yields (koch radius) draws bounded.
Proof.
  unfold koch, getTetrahedronPoint.
  draw a Ha. draw b Hb. draw c Hc.
  eapply yields_bind; [apply chaosGame_box | intros cur Hcur; cbv beta in Hcur].
  apply yields_ret. intros HR.
  assert (Hpt : box radius
                  (multiplyScalar (normalize (vec (a - 0.5) (b - 0.5) (c - 0.5))) radius)).
  { destruct (normalize_box (vec (a - 0.5) (b - 0.5) (c - 0.5))) as (Hx & Hy & Hz).
    unfold box, multiplyScalar; cbn [vx vy vz]. nra. }
  specialize (Hcur radius ltac:(lra) Hpt).
  replace (1 + (radius - 1) / 2 ^ 6) with ((radius + 63) / 64) in Hcur
    by (simpl; field).
  destruct Hcur as (Hx & Hy & Hz).
  unfold lengthSq, multiplyScalar; cbn [vx vy vz].
  assert (Hk : 0 <= (radius + 63) / 64 <= 1.8) by lra.
  set (k := (radius + 63) / 64) in *. clearbody k.
  assert (Hs : forall w, - k <= w <= k ->
                         w * (radius * 0.8) * (w * (radius * 0.8))
                         <= 2.08 * (radius * radius)).
  { intros w Hw. assert (w * w <= k * k) by nra.
    assert (k * k <= 3.24) by nra.
    assert (0 <= radius * radius) by nra.
    nra. }
  pose proof (Hs _ Hx). pose proof (Hs _ Hy). pose proof (Hs _ Hz).
  nra.
Qed.

(** *** Astroid, butterfly, catenoid, rose *)

Lemma unit_product (a b : R) : -1 <= a <= 1 -> -1 <= b <= 1 -> -1 <= a * b <= 1.
Proof. intros Ha Hb. nra. Qed.

Lemma astroid_bounded (tempVec : Vector3) :
  yields (astroid radius tempVec) draws bounded.
Proof.
  unfold astroid. draw u1 H1. draw u2 H2.
  apply yields_ret. intros HR.
  unfold lengthSq, setX, setY, setZ; cbn [vx vy vz].
  pose proof (cube_range _ (cos_range (u1 * PI * 2))) as Hcu.
  pose proof (cube_range _ (sin_range (u1 * PI * 2))) as Hsu.
  pose proof (cube_range _ (cos_range ((u2 - 0.5) * PI))) as Hcv.
  pose proof (cube_range _ (sin_range ((u2 - 0.5) * PI))) as Hsv.
  pose proof (unit_product _ _ Hcu Hcv) as Hx.
  pose proof (unit_product _ _ Hsu Hcv) as Hz.
  rewrite !(Rmult_assoc (radius * 1.2)).
  set (px := cos (u1 * PI * 2) ^ 3 * cos ((u2 - 0.5) * PI) ^ 3) in *.
  set (pz := sin (u1 * PI * 2) ^ 3 * cos ((u2 - 0.5) * PI) ^ 3) in *.
  set (py := sin ((u2 - 0.5) * PI) ^ 3) in *.
  clearbody px py pz.
  assert (Hs : forall w, -1 <= w <= 1 ->
                         radius * 1.2 * w * (radius * 1.2 * w)
                         <= 1.44 * (radius * radius)).
  { intros w Hw. assert (w * w <= 1) by nra.
    assert (0 <= radius * radius) by nra. nra. }
  pose proof (Hs _ Hx). pose proof (Hs _ Hz). pose proof (Hs _ Hsv).
  nra.
Qed.

Lemma pow5_range (a : R) : -1 <= a <= 1 -> -1 <= a ^ 5 <= 1.
Proof.
  intros H. replace (a ^ 5) with (a ^ 3 * (a * a)) by ring.
  apply unit_product; [apply cube_range, H | nra].
Qed.

Lemma exp_cos_range (a : R) : 0 < exp (cos a) <= 3.
Proof.
  split; [apply exp_pos|].
  apply Rle_trans with (exp 1); [|apply exp_le_3].
  destruct (cos_range a) as [_ [Hlt | Heq]].
  - left. now apply exp_increasing.
  - rewrite Heq. apply Rle_refl.
Qed.

Lemma butterfly_bounded (t : R) (tempVec : Vector3) :
  yields (butterfly t radius tempVec) draws bounded.
Proof.
  unfold butterfly. draw u1 H1. apply yields_ret. intros HR.
  unfold lengthSq, setX, setY, setZ; cbn [vx vy vz].
  set (tVal := t * PI * 2 * 12).
  pose proof (exp_cos_range tVal) as He.
  pose proof (cos_range (4 * tVal)) as Hc4.
  pose proof (pow5_range _ (sin_range (tVal / 12))) as Hs5.
  set (term := exp (cos tVal) - 2 * cos (4 * tVal) - sin (tVal / 12) ^ 5).
  assert (Hterm : -3 <= term <= 6) by (unfold term; lra).
  clearbody term.
  set (r := radius * 0.3 * term).
  assert (Hr : - (1.8 * radius) <= r <= 1.8 * radius) by (unfold r; nra).
  assert (Hrr : r * r <= 3.24 * (radius * radius)).
  { apply square_abs_le in Hr. nra. }
  assert (Hz : (u1 - 0.5) * Rabs r * 0.5 * ((u1 - 0.5) * Rabs r * 0.5) <= r * r / 16).
  { replace ((u1 - 0.5) * Rabs r * 0.5 * ((u1 - 0.5) * Rabs r * 0.5))
      with ((u1 - 0.5) * (u1 - 0.5) * 0.25 * (Rabs r * Rabs r)) by (decimals; field).
    replace (Rabs r * Rabs r) with (r * r)
      by (rewrite <- Rabs_mult; symmetry; apply Rabs_pos_eq; nra).
    assert ((u1 - 0.5) * (u1 - 0.5) <= 0.25) by nra.
    assert (0 <= r * r) by nra. nra. }
  pose proof (circle_square r tVal) as Hxy.
  clearbody r.
  set (x := r * sin tVal) in *. set (y := r * cos tVal) in *. clearbody x y.
  nra.
Qed.

Lemma exp_below (x : R) : 0 < x < 1 -> exp x < / (1 - x).
Proof.
  intros Hx. assert (H : 1 + - x < exp (- x)) by (apply exp_ineq1; lra).
  rewrite exp_Ropp in H.
  pose proof (exp_pos x) as Hp.
  assert (Hinv : 0 < / exp x) by (apply Rinv_0_lt_compat, Hp).
  rewrite <- (Rinv_inv (exp x)).
  apply Rinv_lt_contravar; [|lra].
  apply Rmult_lt_0_compat; lra.
Qed.

Lemma exp_double (x : R) : exp (2 * x) = exp x * exp x.
Proof. replace (2 * x) with (x + x) by ring. apply exp_plus. Qed.

Lemma exp_5_2 : exp (5 / 2) < 14.
Proof.
  assert (H0 : exp (5 / 64) < 64 / 59).
  { replace (64 / 59) with (/ (1 - 5 / 64)) by field. apply exp_below. lra. }
  assert (P0 := exp_pos (5 / 64)).
  assert (H1 : exp (5 / 32) < 1.1768).
  { replace (5 / 32) with (2 * (5 / 64)) by field. rewrite exp_double. nra. }
  assert (P1 := exp_pos (5 / 32)).
  assert (H2 : exp (5 / 16) < 1.3849).
  { replace (5 / 16) with (2 * (5 / 32)) by field. rewrite exp_double. nra. }
  assert (P2 := exp_pos (5 / 16)).
  assert (H3 : exp (5 / 8) < 1.918).
  { replace (5 / 8) with (2 * (5 / 16)) by field. rewrite exp_double. nra. }
  assert (P3 := exp_pos (5 / 8)).
  assert (H4 : exp (5 / 4) < 3.679).
  { replace (5 / 4) with (2 * (5 / 8)) by field. rewrite exp_double. nra. }
  assert (P4 := exp_pos (5 / 4)).
  replace (5 / 2) with (2 * (5 / 4)) by field. rewrite exp_double. nra.
Qed.

Lemma exp_le_mono (x y : R) : x <= y -> exp x <= exp y.
Proof.
  intros [Hlt | ->]; [left; now apply exp_increasing | apply Rle_refl].
Qed.

Lemma cosh_range (q : R) : -2.5 <= q <= 2.5 -> 0 < cosh q < 7.5.
Proof.
  intros Hq. unfold cosh.
  pose proof (exp_pos q). pose proof (exp_pos (- q)).
  pose proof exp_5_2 as H52.
  assert (exp q <= exp (5 / 2)) by (apply exp_le_mono; lra).
  assert (exp (- q) <= exp (5 / 2)) by (apply exp_le_mono; lra).
  destruct (Rle_dec 0 q).
  - assert (exp (- q) <= exp 0) by (apply exp_le_mono; lra).
    rewrite exp_0 in *. lra.
  - assert (exp q <= exp 0) by (apply exp_le_mono; lra).
    rewrite exp_0 in *. lra.
Qed.

Lemma catenoid_bounded (t : R) (tempVec : Vector3) :
  0 <= t < 1 -> yields (catenoid t radius tempVec) draws bounded.
Proof.
  intros Ht. unfold catenoid. draw u1 H1.
  eapply yields_bind; [apply yields_div; lra | intros q Hq; cbv beta in Hq; cbv zeta].
  apply yields_ret. intros HR.
  unfold lengthSq, setX, setY, setZ; cbn [vx vy vz].
  assert (Hq5 : q = 5 * (t - 0.5)) by (rewrite Hq; decimals; field; lra).
  pose proof (cosh_range q ltac:(lra)) as Hc.
  set (k := cosh q) in *. clearbody k.
  assert (Hr : 0 <= radius * 0.3 * k <= 2.25 * radius) by nra.
  apply square_le in Hr.
  assert (Hv : - (0.75 * radius) <= (t - 0.5) * radius * 1.5 <= 0.75 * radius) by nra.
  apply square_abs_le in Hv.
  circle (radius * 0.3 * k) (u1 * PI * 2) x z Hxz.
  nra.
Qed.

Lemma rose_bounded : yields (rose radius) draws bounded.
Proof.
  unfold rose. draw u1 H1. draw u2 H2. apply yields_ret. intros HR.
  rewrite spherical_lengthSq.
  pose proof (unit_product _ _ (sin_range (6 * (u1 * PI * 2)))
                (sin_range (6 * (u2 * PI)))) as Hb.
  set (rBase := sin (6 * (u1 * PI * 2)) * sin (6 * (u2 * PI))) in *.
  assert (Ha : 0 <= Rabs rBase <= 1) by (split; [apply Rabs_pos | apply Rabs_le; lra]).
  apply Rle_trans with (radius * radius); [|nra].
  apply square_le. nra.
Qed.

(** *** All shapes *)

Lemma shapePoint_bounded (type : ShapeType) (i count : nat) (t : R)
    (tempVec : Vector3) :
  0 <= t < 1 ->
  yields (shapePoint type i count t radius tempVec) draws bounded.
Proof.
  intros Ht. destruct type; cbn [shapePoint].
  - apply nebula_bounded.
  - apply heart_bounded.
  - apply flower_bounded.
  - apply saturn_bounded.
  - apply cake_bounded.
  - apply fireworks_bounded.
  - now apply spiral_bounded.
  - apply lemniscate_bounded.
  - apply koch_bounded.
  - apply astroid_bounded.
  - apply butterfly_bounded.
  - now apply catenoid_bounded.
  - apply rose_bounded.
Qed.

End Shapes.

(* ================================================================== *)
(** ** Count, finiteness and magnitude of the generated points *)

Lemma unit_fraction (i count : nat) :
  (i < count)%nat -> 0 <= INR i / INR count < 1.
Proof.
  intros Hi. assert (Hc : 0 < INR count) by (apply lt_0_INR; lia).
  pose proof (pos_INR i) as Hi0. apply lt_INR in Hi.
  split.
  - apply Rmult_le_pos; [exact Hi0 | left; now apply Rinv_0_lt_compat].
  - apply Rmult_lt_reg_r with (INR count); [exact Hc|].
    unfold Rdiv. rewrite Rmult_assoc, Rinv_l, Rmult_1_r; lra.
Qed.

Lemma length_ge_x (v : ShapeGenerator.Vector3) :
  Rabs (ShapeGenerator.vx v) <= ShapeGenerator.Vector3_length v.
Proof.
  unfold ShapeGenerator.Vector3_length.
  rewrite <- sqrt_Rsqr_abs. apply sqrt_le_1.
  - apply Rle_0_sqr.
  - apply lengthSq_nonneg.
  - unfold ShapeGenerator.lengthSq, Rsqr.
    pose proof (Rle_0_sqr (ShapeGenerator.vy v)).
    pose proof (Rle_0_sqr (ShapeGenerator.vz v)). unfold Rsqr in *. lra.
Qed.

Section ConstantDraws.
Import ShapeGenerator.

Variable c : R.

Lemma yields_random_const : yields random (fun _ => c) (fun u => u = c).
Proof. intros n. exists c, (S n). split; reflexivity. Qed.

End ConstantDraws.

(** On the stream that always draws 0.25 the heart lands on [x = 6.4]. *)
Lemma heart_quarter :
  ShapeGenerator.yields ShapeGenerator.heart (fun _ => 0.25)
    (fun v => ShapeGenerator.vx v = 6.4).
Proof.
  unfold ShapeGenerator.heart.
  do 3 (eapply yields_bind; [apply yields_random_const | intros ? ->; cbv zeta]).
  apply yields_ret. cbn [ShapeGenerator.multiplyScalar ShapeGenerator.vx].
  replace (0.25 * PI * 2) with (PI / 2) by (decimals; field).
  rewrite sin_PI2. lra.
Qed.

(** On the stream that always draws 0 every chaos-game step contracts
    towards the vertex [(1, 1, 1)]. *)
Lemma chaosGame_zero (depth : nat) (current : ShapeGenerator.Vector3) :
  ShapeGenerator.yields (ShapeGenerator.chaosGame depth current) (fun _ => 0)
    (fun v => ShapeGenerator.vx v = 1 + (ShapeGenerator.vx current - 1) / 2 ^ depth).
Proof.
  revert current; induction depth as [|d IH]; intros current;
    simpl ShapeGenerator.chaosGame.
  - apply yields_ret. simpl. field.
  - eapply yields_bind; [apply yields_random_const | intros ? ->].
    replace (floor (0 * 4)) with 0%Z by (symmetry; apply floor_eq; simpl; lra).
    eapply yields_bind with (P := fun t => t = ShapeGenerator.vec 1 1 1).
    + intros n. eexists _, _. split; reflexivity.
    + intros t ->. eapply yields_weaken; [apply IH|].
      intros v ->. cbn [ShapeGenerator.add ShapeGenerator.multiplyScalar
                        ShapeGenerator.sub ShapeGenerator.vx].
      simpl pow. decimals. field. apply pow_nonzero. lra.
Qed.

Lemma koch_zero :
  ShapeGenerator.yields (ShapeGenerator.koch 1000) (fun _ => 0)
    (fun v => ShapeGenerator.vx v <= -5000).
Proof.
  unfold ShapeGenerator.koch, ShapeGenerator.getTetrahedronPoint.
  do 3 (eapply yields_bind; [apply yields_random_const | intros ? ->; cbv zeta]).
  eapply yields_bind; [apply chaosGame_zero | intros cur Hcur; cbv beta in Hcur].
  apply yields_ret.
  cbn [ShapeGenerator.multiplyScalar ShapeGenerator.vx] in *. rewrite Hcur.
  unfold ShapeGenerator.normalize, ShapeGenerator.divideScalar,
    ShapeGenerator.Vector3_length, ShapeGenerator.lengthSq, jsOr.
  cbn [ShapeGenerator.multiplyScalar ShapeGenerator.vx ShapeGenerator.vy
       ShapeGenerator.vz].
  replace ((0 - 0.5) * (0 - 0.5) + (0 - 0.5) * (0 - 0.5) + (0 - 0.5) * (0 - 0.5))
    with 0.75 by lra.
  assert (Hl : 0 < sqrt 0.75 <= 1).
  { split; [apply sqrt_lt_R0; lra|].
    rewrite <- sqrt_1. apply sqrt_le_1; lra. }
  destruct (Req_dec_T (sqrt 0.75) 0) as [Hz|_]; [lra|].
  set (l := sqrt 0.75) in *. clearbody l.
  assert (Hinv : 1 <= 1 / l).
  { unfold Rdiv. rewrite Rmult_1_l, <- Rinv_1.
    apply Rinv_le_contravar; lra. }
  set (k := 1 / l) in *. clearbody k. simpl pow. nra.
Qed.

(** C1, as stated, fails at both ends of the radius range.  With radius 1
    the heart (whose curve is not scaled by the radius) yields a point of
    magnitude at least 6.4 > 2.5; with radius 1000 the fractal (whose final
    scaling multiplies by the radius a second time) yields a point of
    magnitude at least 5000 > 2500. *)
Lemma generate_bound_counterexample :
  (exists ps,
      ShapeGenerator.generate ShapeGenerator.HEART 1 1 (fun _ => 0.25) = Some ps /\
      2.5 * 1 < ShapeGenerator.Vector3_length (ShapeGenerator.point ps 0)) /\
  (exists ps,
      ShapeGenerator.generate ShapeGenerator.KOCH 1 1000 (fun _ => 0) = Some ps /\
      2.5 * 1000 < ShapeGenerator.Vector3_length (ShapeGenerator.point ps 0)).
Proof.
  split.
  - destruct (generate_yields (fun _ => 0.25) ShapeGenerator.HEART 1 1
                (fun _ v => ShapeGenerator.vx v = 6.4)) as (ps & E & _ & Hp).
    { intros i tempVec _. apply heart_quarter. }
    exists ps. split; [exact E|].
    pose proof (length_ge_x (ShapeGenerator.point ps 0)) as Hx.
    rewrite (Hp 0%nat) in Hx by lia. rewrite Rabs_pos_eq in Hx; lra.
  - destruct (generate_yields (fun _ => 0) ShapeGenerator.KOCH 1 1000
                (fun _ v => ShapeGenerator.vx v <= -5000)) as (ps & E & _ & Hp).
    { intros i tempVec _. apply koch_zero. }
    exists ps. split; [exact E|].
    pose proof (length_ge_x (ShapeGenerator.point ps 0)) as Hx.
    specialize (Hp 0%nat ltac:(lia)).
    rewrite Rabs_left in Hx; lra.
Qed.

(** C1, amended.  For every shape among the 13, every [count > 0], every
    [radius > 0] and every stream of draws from [[0, 1)],
    [generateShapePositions] returns exactly [count] 3D points with finite
    coordinates; and when [5 <= radius <= 50] (which includes the default
    radius 10) every point's Euclidean magnitude is at most
    [2.5 * radius]. *)
Theorem generate_count_finite_bounded (type : ShapeGenerator.ShapeType)
    (count : nat) (radius : R) (draws : nat -> R) :
  (forall n, 0 <= draws n < 1) ->
  (0 < count)%nat ->
  0 < radius ->
  exists ps,
    ShapeGenerator.generate type count radius draws = Some ps /\
    length ps = (count * 3)%nat /\
    (5 <= radius <= 50 ->
     forall i, (i < count)%nat ->
       ShapeGenerator.Vector3_length (ShapeGenerator.point ps i) <= 2.5 * radius).
Proof.
  intros Hdraws Hcount Hradius.
  destruct (generate_yields draws type count radius
              (fun _ v => 5 <= radius <= 50 ->
                          ShapeGenerator.lengthSq v
                          <= (2.5 * radius) * (2.5 * radius)))
    as (ps & E & Hlen & Hp).
  { intros i tempVec Hi.
    apply shapePoint_bounded; [exact Hdraws | exact Hradius |].
    now apply unit_fraction. }
  exists ps. split; [exact E|]. split; [exact Hlen|].
  intros HR i Hi. apply length_le; [lra|]. now apply Hp.
Qed.

Lemma generate_count_finite_bounded_witness :
  exists ps,
    ShapeGenerator.generate ShapeGenerator.KOCH 2 10 (fun _ => 0.5) = Some ps /\
    length ps = (2 * 3)%nat /\
    (5 <= 10 <= 50 ->
     forall i, (i < 2)%nat ->
       ShapeGenerator.Vector3_length (ShapeGenerator.point ps i) <= 2.5 * 10).
Proof.
  apply (generate_count_finite_bounded ShapeGenerator.KOCH 2 10 (fun _ => 0.5)).
  - intros _. lra.
  - lia.
  - lra.
Defined.

(* ================================================================== *)
(** ** Saturn *)






(* ================================================================== *)
(** [getFrequencyData]: the three bands as slice means *)

Section BandMeans.
Import AudioService BandSpec.

Lemma normSum_app (l1 l2 : list Z) : normSum (l1 ++ l2) = normSum l1 + normSum l2.
Proof. induction l1 as [|d l1 IH]; simpl; [ring | rewrite IH; ring]. Qed.

Lemma firstn_snoc {A : Type} (l : list A) (n : nat) (a : A) :
  nth_error l n = Some a -> firstn (S n) l = firstn n l ++ [a].
Proof.
  revert n; induction l as [|h t IH]; intros [|n] H; simpl in *; try discriminate.
  - now inversion H.
  - now rewrite (IH n H).
Qed.

Lemma nth_error_skipn_plus {A : Type} (l : list A) (a n : nat) :
  nth_error (skipn a l) n = nth_error l (a + n).
Proof.
  revert l; induction a as [|a IH]; intros [|h t]; simpl; auto.
  now destruct n.
Qed.

Lemma slice_snoc (a b : nat) (l : list Z) (d : Z) :
  (a <= b)%nat -> nth_error l b = Some d ->
  slice a (S b) l = slice a b l ++ [d].
Proof.
  intros Hab Hd. unfold slice.
  replace (S b - a)%nat with (S (b - a)) by lia.
  apply firstn_snoc. rewrite nth_error_skipn_plus.
  replace (a + (b - a))%nat with b by lia. exact Hd.
Qed.

Lemma slice_empty (a : nat) (l : list Z) : slice a a l = [].
Proof. unfold slice. now rewrite Nat.sub_diag. Qed.

Lemma slice_length (a b : nat) (l : list Z) :
  (b <= length l)%nat -> length (slice a b l) = (b - a)%nat.
Proof.
  intros H. unfold slice. rewrite length_firstn, length_skipn. lia.
Qed.

Variables (data : list Z) (nb nm : nat).
Hypothesis Hnbm : (nb <= nm)%nat.

Lemma bandLoop_slices (k : nat) :
  (k <= length data)%nat ->
  fold_left (bandStep data (Z.of_nat nb) (Z.of_nat nm)) (seq 0 k)
            (Some 0, Some 0, Some 0)
  = (Some (normSum (slice 0 (Nat.min k nb) data)),
     Some (normSum (slice (Nat.min k nb) (Nat.min k nm) data)),
     Some (normSum (slice (Nat.min k nm) k data))).
Proof.
  induction k as [|k IH]; intros Hk.
  - cbn [seq fold_left]. rewrite !Nat.min_0_l, !slice_empty. reflexivity.
  - rewrite seq_S, fold_left_app, IH by lia. simpl fold_left.
    unfold bandStep.
    destruct (nth_error data k) as [d|] eqn:Ed;
      [|apply nth_error_None in Ed; lia].
    simpl option_map. rewrite jsdiv_Some by lra.
    destruct (Z.ltb_spec (Z.of_nat k) (Z.of_nat nb)) as [Hb|Hb];
      [|destruct (Z.ltb_spec (Z.of_nat k) (Z.of_nat nm)) as [Hm|Hm]];
      simpl jsadd; apply acc_eq.
    + rewrite !(Nat.min_l k), !(Nat.min_l (S k)) by lia.
      rewrite (slice_snoc 0 k data d) by (auto; lia).
      rewrite normSum_app. simpl. ring.
    + rewrite !(Nat.min_l k), !(Nat.min_l (S k)) by lia.
      now rewrite !slice_empty.
    + rewrite !(Nat.min_l k), !(Nat.min_l (S k)) by lia.
      now rewrite !slice_empty.
    + rewrite !(Nat.min_r _ nb) by lia. reflexivity.
    + rewrite !(Nat.min_r _ nb), !(Nat.min_l _ nm) by lia.
      rewrite (slice_snoc nb k data d) by (auto; lia).
      rewrite normSum_app. simpl. ring.
    + rewrite !(Nat.min_l _ nm) by lia. now rewrite !slice_empty.
    + rewrite !(Nat.min_r _ nb) by lia. reflexivity.
    + rewrite !(Nat.min_r _ nb), !(Nat.min_r _ nm) by lia. reflexivity.
    + rewrite !(Nat.min_r _ nm) by lia.
      rewrite (slice_snoc nm k data d) by (auto; lia).
      rewrite normSum_app. simpl. ring.
Qed.

End BandMeans.

Lemma floor_tenth (L : nat) : floor (INR L * 0.1) = Z.of_nat (L / 10).
Proof.
  apply floor_eq. pose proof (Nat.div_mod_eq L 10) as E.
  pose proof (Nat.mod_upper_bound L 10 ltac:(lia)) as Hr.
  rewrite <- INR_IZR_INZ.
  assert (HL : INR L = 10 * INR (L / 10) + INR (L mod 10)).
  { rewrite E at 1. rewrite plus_INR, mult_INR, (INR_IZR_INZ 10). simpl Z.of_nat. ring. }
  assert (0 <= INR (L mod 10) <= 9).
  { split; [apply pos_INR|].
    assert (H9 : (L mod 10 <= 9)%nat) by lia. apply le_INR in H9.
    rewrite (INR_IZR_INZ 9) in H9. simpl Z.of_nat in H9. lra. }
  lra.
Qed.

Lemma floor_half (L : nat) : floor (INR L * 0.5) = Z.of_nat (L / 2).
Proof.
  apply floor_eq. pose proof (Nat.div_mod_eq L 2) as E.
  pose proof (Nat.mod_upper_bound L 2 ltac:(lia)) as Hr.
  rewrite <- INR_IZR_INZ.
  assert (HL : INR L = 2 * INR (L / 2) + INR (L mod 2)).
  { rewrite E at 1. rewrite plus_INR, mult_INR, (INR_IZR_INZ 2). simpl Z.of_nat. ring. }
  assert (0 <= INR (L mod 2) <= 1).
  { split; [apply pos_INR|].
    assert (H1 : (L mod 2 <= 1)%nat) by lia. apply le_INR in H1.
    rewrite (INR_IZR_INZ 1) in H1. simpl Z.of_nat in H1. lra. }
  lra.
Qed.

Lemma computeBands_slices (L : nat) (data : list Z) :
  length data = L ->
  AudioService.computeBands L data
  = AudioService.mkBands
      (jsdiv (Some (BandSpec.normSum (BandSpec.slice 0 (L / 10) data))) (INR (L / 10)))
      (jsdiv (Some (BandSpec.normSum (BandSpec.slice (L / 10) (L / 2) data)))
             (INR (L / 2 - L / 10)))
      (jsdiv (Some (BandSpec.normSum (BandSpec.slice (L / 2) L data)))
             (INR (L - L / 2))).
Proof.
  intros Hlen. unfold AudioService.computeBands, AudioService.bandLoop.
  rewrite floor_tenth, floor_half.
  assert (H10 : (L / 10 <= L / 2)%nat).
  { pose proof (Nat.div_mod_eq L 10). pose proof (Nat.div_mod_eq L 2).
    pose proof (Nat.mod_upper_bound L 10 ltac:(lia)).
    pose proof (Nat.mod_upper_bound L 2 ltac:(lia)). lia. }
  assert (H2 : (L / 2 <= L)%nat).
  { pose proof (Nat.div_mod_eq L 2). lia. }
  rewrite (bandLoop_slices data (L / 10) (L / 2) H10 L) by lia.
  rewrite !Nat.min_r by lia.
  rewrite <- !Nat2Z.inj_sub by lia. rewrite <- !INR_IZR_INZ. reflexivity.
Qed.

Lemma normSum_slice_split (a b c : nat) (l : list Z) :
  (a <= b)%nat -> (b <= c)%nat -> (c <= length l)%nat ->
  BandSpec.normSum (BandSpec.slice a b l) + BandSpec.normSum (BandSpec.slice b c l)
  = BandSpec.normSum (BandSpec.slice a c l).
Proof.
  intros Hab Hbc. induction c as [|c IH]; intros Hc.
  - assert (b = 0%nat) by lia. subst b. rewrite slice_empty. simpl. ring.
  - destruct (Nat.eq_dec b (S c)) as [->|Hne].
    + rewrite slice_empty. simpl. ring.
    + destruct (nth_error l c) as [d|] eqn:Ed;
        [|apply nth_error_None in Ed; lia].
      rewrite (slice_snoc b c l d), (slice_snoc a c l d) by (auto; lia).
      rewrite !normSum_app, <- IH by lia. ring.
Qed.

Lemma slice_all (l : list Z) : BandSpec.slice 0 (length l) l = l.
Proof.
  unfold BandSpec.slice. rewrite Nat.sub_0_r. simpl. apply firstn_all.
Qed.

Lemma normSum_range (l : list Z) :
  (forall d, In d l -> (0 <= d <= 255)%Z) ->
  0 <= BandSpec.normSum l <= INR (length l).
Proof.
  induction l as [|d l IH]; intros H.
  - simpl. lra.
  - assert (Hd : (0 <= d <= 255)%Z) by (apply H; now left).
    assert (Hl : 0 <= BandSpec.normSum l <= INR (length l))
      by (apply IH; intros; apply H; now right).
    change (BandSpec.normSum (d :: l)) with (IZR d / 255 + BandSpec.normSum l).
    change (length (d :: l)) with (S (length l)). rewrite S_INR.
    destruct Hd as [Hd0 Hd1]. apply IZR_le in Hd0, Hd1. lra.
Qed.

Lemma In_slice (a b : nat) (l : list Z) (d : Z) :
  In d (BandSpec.slice a b l) -> In d l.
Proof.
  unfold BandSpec.slice. intros H.
  rewrite <- (firstn_skipn a l). apply in_or_app. right.
  rewrite <- (firstn_skipn (b - a) (skipn a l)). apply in_or_app. now left.
Qed.

Lemma band_sizes (L : nat) :
  (10 <= L)%nat -> (1 <= L / 10 /\ L / 10 < L / 2 /\ L / 2 < L)%nat.
Proof.
  intros HL.
  pose proof (Nat.div_mod_eq L 10). pose proof (Nat.div_mod_eq L 2).
  pose proof (Nat.mod_upper_bound L 10 ltac:(lia)).
  pose proof (Nat.mod_upper_bound L 2 ltac:(lia)). lia.
Qed.

Lemma bands_are_slice_means_aux (L : nat) (bytes arr : list Z) :
  (10 <= L)%nat -> length bytes = L -> length arr = L ->
  AudioService.getFrequencyData
    (AudioService.mkService (Some (AudioService.mkAnalyser L bytes)) (Some arr))
  = (AudioService.mkBands (Some (BandSpec.mean 0 (L / 10) bytes))
                          (Some (BandSpec.mean (L / 10) (L / 2) bytes))
                          (Some (BandSpec.mean (L / 2) L bytes)),
     AudioService.mkService (Some (AudioService.mkAnalyser L bytes)) (Some bytes)).
Proof.
  intros HL Hb Ha. unfold AudioService.getFrequencyData.
  cbn [AudioService.analyser AudioService.dataArray AudioService.frequencyBinCount].
  rewrite (getByteFrequencyData_full L bytes arr Hb Ha).
  rewrite (computeBands_slices L bytes Hb).
  destruct (band_sizes L HL) as (H1 & H2 & H3).
  rewrite !jsdiv_Some by (apply not_0_INR; lia).
  unfold BandSpec.mean. rewrite Nat.sub_0_r. reflexivity.
Qed.

(** X1.  [getFrequencyData] on an initialised service with at least
    ten frequency bins: the call first refreshes [dataArray] with the
    analyser's bytes, and with [L = frequencyBinCount] the three bands are the
    arithmetic means of [byte / 255] over the index ranges
    [0 .. L/10), [L/10 .. L/2) and [L/2 .. L) (integer division). *)
Theorem bands_are_slice_means (L : nat) (bytes arr : list Z) :
  (10 <= L)%nat -> length bytes = L -> length arr = L ->
  AudioService.getFrequencyData
    (AudioService.mkService (Some (AudioService.mkAnalyser L bytes)) (Some arr))
  = (AudioService.mkBands (Some (BandSpec.mean 0 (L / 10) bytes))
                          (Some (BandSpec.mean (L / 10) (L / 2) bytes))
                          (Some (BandSpec.mean (L / 2) L bytes)),
     AudioService.mkService (Some (AudioService.mkAnalyser L bytes)) (Some bytes)).
Proof. exact (bands_are_slice_means_aux L bytes arr). Qed.

Lemma bands_are_slice_means_witness :
  AudioService.getFrequencyData
    (AudioService.mkService
       (Some (AudioService.mkAnalyser 10 [255; 0; 0; 0; 0; 0; 0; 0; 0; 0]%Z))
       (Some (repeat 0%Z 10)))
  = (AudioService.mkBands
       (Some (BandSpec.mean 0 (10 / 10) [255; 0; 0; 0; 0; 0; 0; 0; 0; 0]%Z))
       (Some (BandSpec.mean (10 / 10) (10 / 2) [255; 0; 0; 0; 0; 0; 0; 0; 0; 0]%Z))
       (Some (BandSpec.mean (10 / 2) 10 [255; 0; 0; 0; 0; 0; 0; 0; 0; 0]%Z)),
     AudioService.mkService
       (Some (AudioService.mkAnalyser 10 [255; 0; 0; 0; 0; 0; 0; 0; 0; 0]%Z))
       (Some [255; 0; 0; 0; 0; 0; 0; 0; 0; 0]%Z)).
Proof.
  apply (bands_are_slice_means 10 [255; 0; 0; 0; 0; 0; 0; 0; 0; 0]%Z (repeat 0%Z 10));
    [lia | reflexivity | reflexivity].
Defined.

Lemma mean_range (a b : nat) (l : list Z) :
  (a < b)%nat -> (b <= length l)%nat ->
  (forall d, In d l -> (0 <= d <= 255)%Z) ->
  0 <= BandSpec.mean a b l <= 1.
Proof.
  intros Hab Hb Hl. unfold BandSpec.mean.
  assert (Hs : 0 <= BandSpec.normSum (BandSpec.slice a b l) <= INR (b - a)).
  { rewrite <- (slice_length a b l Hb). apply normSum_range.
    intros d Hd. apply Hl. eapply In_slice; eauto. }
  assert (Hn : 0 < INR (b - a)) by (apply lt_0_INR; lia).
  split.
  - apply Rmult_le_pos; [lra | left; now apply Rinv_0_lt_compat].
  - apply Rmult_le_reg_r with (INR (b - a)); [exact Hn|].
    unfold Rdiv. rewrite Rmult_assoc, Rinv_l, Rmult_1_r, Rmult_1_l; lra.
Qed.

(** X2.  With at least ten bins and every byte between 0 and 255,
    the bass, mid and treble that [getFrequencyData] returns are numbers
    between 0 and 1. *)
Theorem bands_in_unit_interval (L : nat) (bytes arr : list Z) :
  (10 <= L)%nat -> length bytes = L -> length arr = L ->
  (forall d, In d bytes -> (0 <= d <= 255)%Z) ->
  exists b m t,
    fst (AudioService.getFrequencyData
           (AudioService.mkService (Some (AudioService.mkAnalyser L bytes)) (Some arr)))
    = AudioService.mkBands (Some b) (Some m) (Some t) /\
    0 <= b <= 1 /\ 0 <= m <= 1 /\ 0 <= t <= 1.
Proof.
  intros HL Hb Ha Hbytes.
  rewrite (bands_are_slice_means_aux L bytes arr HL Hb Ha). cbn [fst].
  destruct (band_sizes L HL) as (H1 & H2 & H3).
  eexists _, _, _. split; [reflexivity|].
  repeat split; apply mean_range; auto; lia.
Qed.

Lemma bands_in_unit_interval_witness :
  exists b m t,
    fst (AudioService.getFrequencyData
           (AudioService.mkService
              (Some (AudioService.mkAnalyser 10 (repeat 200%Z 10)))
              (Some (repeat 0%Z 10))))
    = AudioService.mkBands (Some b) (Some m) (Some t) /\
    0 <= b <= 1 /\ 0 <= m <= 1 /\ 0 <= t <= 1.
Proof.
  apply (bands_in_unit_interval 10 (repeat 200%Z 10) (repeat 0%Z 10));
    [lia | reflexivity | reflexivity |].
  intros d Hd. apply repeat_spec in Hd. lia.
Defined.

(** X3.  The three ranges of [getFrequencyData] partition the
    spectrum: each band times the number of bins it averages, summed over the
    three bands, is the sum of [byte / 255] over all bins, so every bin is
    counted once and in exactly one band. *)
Theorem bands_partition_spectrum (L : nat) (bytes arr : list Z) :
  (10 <= L)%nat -> length bytes = L -> length arr = L ->
  exists b m t,
    fst (AudioService.getFrequencyData
           (AudioService.mkService (Some (AudioService.mkAnalyser L bytes)) (Some arr)))
    = AudioService.mkBands (Some b) (Some m) (Some t) /\
    b * INR (L / 10) + m * INR (L / 2 - L / 10) + t * INR (L - L / 2)
    = BandSpec.normSum bytes.
Proof.
  intros HL Hb Ha.
  rewrite (bands_are_slice_means_aux L bytes arr HL Hb Ha). cbn [fst].
  destruct (band_sizes L HL) as (H1 & H2 & H3).
  eexists _, _, _. split; [reflexivity|].
  unfold BandSpec.mean. rewrite Nat.sub_0_r.
  assert (INR (L / 10) <> 0) by (apply not_0_INR; lia).
  assert (INR (L / 2 - L / 10) <> 0) by (apply not_0_INR; lia).
  assert (INR (L - L / 2) <> 0) by (apply not_0_INR; lia).
  rewrite <- (slice_all bytes) at 4. rewrite Hb.
  rewrite <- (normSum_slice_split 0 (L / 2) L bytes) by lia.
  rewrite <- (normSum_slice_split 0 (L / 10) (L / 2) bytes) by lia.
  field. auto.
Qed.

Lemma bands_partition_spectrum_witness :
  exists b m t,
    fst (AudioService.getFrequencyData
           (AudioService.mkService
              (Some (AudioService.mkAnalyser 10 (repeat 200%Z 10)))
              (Some (repeat 0%Z 10))))
    = AudioService.mkBands (Some b) (Some m) (Some t) /\
    b * INR (10 / 10) + m * INR (10 / 2 - 10 / 10) + t * INR (10 - 10 / 2)
    = BandSpec.normSum (repeat 200%Z 10).
Proof.
  apply (bands_partition_spectrum 10 (repeat 200%Z 10) (repeat 0%Z 10));
    [lia | reflexivity | reflexivity].
Defined.

(** X4.  With fewer than ten frequency bins [bassRange] is
    [Math.floor(bufferLength * 0.1) = 0], no bin is counted as bass, and
    [bass /= bassRange] is [0 / 0]: the bass [getFrequencyData] returns is
    not a finite number. *)
Theorem short_spectrum_bass_nan (a : AudioService.AnalyserNode) (arr : list Z) :
  (AudioService.frequencyBinCount a < 10)%nat ->
  AudioService.bass
    (fst (AudioService.getFrequencyData (AudioService.mkService (Some a) (Some arr))))
  = None.
Proof.
  intros HL. unfold AudioService.getFrequencyData.
  cbn [AudioService.analyser AudioService.dataArray fst].
  unfold AudioService.computeBands. rewrite floor_tenth.
  rewrite Nat.div_small by exact HL.
  destruct (AudioService.bandLoop _ _ _ _) as [[b m] t].
  cbn [AudioService.bass]. apply jsdiv_zero.
Qed.

Lemma short_spectrum_bass_nan_witness :
  AudioService.bass
    (fst (AudioService.getFrequencyData
            (AudioService.mkService
               (Some (AudioService.mkAnalyser 9 (repeat 7%Z 9)))
               (Some (repeat 0%Z 9)))))
  = None.
Proof.
  apply (short_spectrum_bass_nan (AudioService.mkAnalyser 9 (repeat 7%Z 9))).
  simpl. lia.
Defined.

(* ================================================================== *)
(** [useFrame]: edge cases and invariants of a frame *)

Section MorphEdges.
Import ParticleSystem.

Lemma lerpStep_within (lo hi s t p : R) :
  0 < s < 1 -> lo <= t <= hi -> lo <= p <= hi -> lo <= lerpStep s t p <= hi.
Proof.
  intros Hs Ht Hp. unfold lerpStep.
  replace (p + (t - p) * s) with ((1 - s) * p + s * t) by ring.
  split; nra.
Qed.

Lemma popBass_range (b : R) : 0 <= b <= 1 -> 0 <= popBass b <= b.
Proof.
  intros Hb. destruct (Rlt_dec b 0.2) as [Hlt|Hge].
  - rewrite popBass_below by assumption. lra.
  - rewrite popBass_pass by assumption. simpl. split; nra.
Qed.

End MorphEdges.

(** X5.  The morph loop of [useFrame] reads
    [targetPositions[ix]] without a bounds check: when the target array is
    shorter than both [count * 3] and the position buffer, the coordinate
    just past the end of the target is computed from [undefined] and [NaN]
    is stored there.  The frame still runs to its end and updates the
    smoothed level. *)
Theorem useFrame_short_target_poisons (count : nat) (target : list number)
    (a : ParticleSystem.AudioData) (st : ParticleSystem.Frame) :
  (length target < count * 3)%nat ->
  (length target < length (ParticleSystem.positions st))%nat ->
  nth_error (ParticleSystem.positions (ParticleSystem.useFrame count target a st))
            (length target) = Some None /\
  ParticleSystem.smoothedBass (ParticleSystem.useFrame count target a st)
  = ParticleSystem.popStep (ParticleSystem.bass a) (ParticleSystem.smoothedBass st).
Proof.
  intros Hc Hp. split; [|reflexivity].
  cbn [ParticleSystem.useFrame ParticleSystem.positions].
  destruct (morphLoop_spec target (ParticleSystem.morphSpeed a) count
              (ParticleSystem.positions st)) as [Hlen Hread].
  rewrite read_inside by lia. f_equal. rewrite Hread.
  replace (length target <? count * 3)%nat with true
    by (symmetry; apply Nat.ltb_lt; assumption).
  now rewrite (read_beyond target) by lia.
Qed.

Lemma useFrame_short_target_poisons_witness :
  nth_error
    (ParticleSystem.positions
       (ParticleSystem.useFrame 1 [Some 1; Some 2] (ParticleSystem.mkAudio 1 0 0)
          (ParticleSystem.mkFrame [Some 0; Some 0; Some 0] 0.5)))
    (length [Some 1; Some 2]) = Some None /\
  ParticleSystem.smoothedBass
    (ParticleSystem.useFrame 1 [Some 1; Some 2] (ParticleSystem.mkAudio 1 0 0)
       (ParticleSystem.mkFrame [Some 0; Some 0; Some 0] 0.5))
  = ParticleSystem.popStep 1 0.5.
Proof.
  apply (useFrame_short_target_poisons 1 [Some 1; Some 2]
           (ParticleSystem.mkAudio 1 0 0)
           (ParticleSystem.mkFrame [Some 0; Some 0; Some 0] 0.5)); simpl; lia.
Defined.

(** X6.  Once the position buffer equals the target array, a
    frame of [useFrame] leaves every coordinate unchanged, whatever the audio
    data. *)
Theorem useFrame_fixed_point (count : nat) (target : list number)
    (a : ParticleSystem.AudioData) (smoothed : R) :
  length target = (count * 3)%nat ->
  ParticleSystem.positions
    (ParticleSystem.useFrame count target a (ParticleSystem.mkFrame target smoothed))
  = target.
Proof.
  intros Ht. cbn [ParticleSystem.useFrame ParticleSystem.positions].
  destruct (morphLoop_spec target (ParticleSystem.morphSpeed a) count target)
    as [Hlen Hread].
  apply nth_error_ext. intros j.
  destruct (Nat.lt_ge_cases j (length target)) as [Hin|Hout].
  - rewrite !read_inside by lia. f_equal. rewrite Hread.
    replace (j <? count * 3)%nat with true by (symmetry; apply Nat.ltb_lt; lia).
    apply lerpNumber_same.
  - transitivity (@None number); [|symmetry]; apply nth_error_None; lia.
Qed.

Lemma useFrame_fixed_point_witness :
  ParticleSystem.positions
    (ParticleSystem.useFrame 1 [Some 1; Some 2; Some 3]
       (ParticleSystem.mkAudio 0 0 1)
       (ParticleSystem.mkFrame [Some 1; Some 2; Some 3] 0))
  = [Some 1; Some 2; Some 3].
Proof.
  apply (useFrame_fixed_point 1 [Some 1; Some 2; Some 3]
           (ParticleSystem.mkAudio 0 0 1) 0).
  reflexivity.
Defined.

(** X7.  With treble between 0 and 1, one frame of [useFrame]
    keeps the particles inside any interval [[lo, hi]] that contains both the
    current coordinates and the target coordinates: every coordinate stays
    finite and interpolation never overshoots. *)
Theorem useFrame_stays_in_box (count : nat) (target : list number)
    (a : ParticleSystem.AudioData) (st : ParticleSystem.Frame) (lo hi : R) :
  0 <= ParticleSystem.treble a <= 1 ->
  length target = (count * 3)%nat ->
  length (ParticleSystem.positions st) = (count * 3)%nat ->
  ParticleSystem.within lo hi target ->
  ParticleSystem.within lo hi (ParticleSystem.positions st) ->
  ParticleSystem.within lo hi
    (ParticleSystem.positions (ParticleSystem.useFrame count target a st)).
Proof.
  intros Htr Ht Hp Htb Hpb.
  cbn [ParticleSystem.useFrame ParticleSystem.positions].
  destruct (morphLoop_spec target (ParticleSystem.morphSpeed a) count
              (ParticleSystem.positions st)) as [Hlen Hread].
  intros j v Hj.
  assert (Hjlt : (j < count * 3)%nat)
    by (rewrite <- Hp, <- Hlen; apply nth_error_Some; congruence).
  rewrite read_inside in Hj by lia. injection Hj as <-.
  rewrite Hread.
  replace (j <? count * 3)%nat with true by (symmetry; apply Nat.ltb_lt; lia).
  destruct (Htb j _ (read_inside target j ltac:(lia))) as (t & -> & Htj).
  destruct (Hpb j _ (read_inside (ParticleSystem.positions st) j ltac:(lia)))
    as (p & -> & Hpj).
  eexists. split; [reflexivity|].
  apply lerpStep_within; [apply morphSpeed_range, Htr | assumption | assumption].
Qed.

Lemma useFrame_stays_in_box_witness :
  ParticleSystem.within 0 3
    (ParticleSystem.positions
       (ParticleSystem.useFrame 1 [Some 1; Some 2; Some 3]
          (ParticleSystem.mkAudio 0 0 1)
          (ParticleSystem.mkFrame [Some 0; Some 0; Some 0] 0))).
Proof.
  apply (useFrame_stays_in_box 1 [Some 1; Some 2; Some 3]
           (ParticleSystem.mkAudio 0 0 1)
           (ParticleSystem.mkFrame [Some 0; Some 0; Some 0] 0) 0 3).
  - simpl; lra.
  - reflexivity.
  - reflexivity.
  - intros [|[|[|j]]] v H; simpl in H; inversion H;
      try (eexists; split; [reflexivity | lra]).
    destruct j; discriminate.
  - intros [|[|[|j]]] v H; simpl in H; inversion H;
      try (eexists; split; [reflexivity | lra]).
    destruct j; discriminate.
Defined.

(** X8.  With a bass between 0 and 1 and a smoothed
    level that starts between 0 and 1, the level written to [uAudioLevel]
    stays between 0 and 1 after any number of frames; the gated, cubed bass
    never exceeds the bass itself. *)
Theorem pop_level_stays_in_unit_interval (k count : nat) (target : list number)
    (a : ParticleSystem.AudioData) (st : ParticleSystem.Frame) :
  0 <= ParticleSystem.bass a <= 1 ->
  0 <= ParticleSystem.smoothedBass st <= 1 ->
  0 <= ParticleSystem.smoothedBass (ParticleSystem.frames k count target a st) <= 1 /\
  ParticleSystem.popBass (ParticleSystem.bass a) <= ParticleSystem.bass a.
Proof.
  intros Hb Hs.
  pose proof (popBass_range _ Hb) as Hpop.
  split; [|lra].
  rewrite frames_smoothedBass, popFrames_closed.
  set (P := ParticleSystem.popBass (ParticleSystem.bass a)) in *.
  assert (Hpow : 0 <= 0.7 ^ k <= 1).
  { split; [apply pow_le; lra|]. rewrite <- (pow1 k). apply pow_incr. lra. }
  set (w := 0.7 ^ k) in *. clearbody w P.
  replace (P + w * (ParticleSystem.smoothedBass st - P))
    with ((1 - w) * P + w * ParticleSystem.smoothedBass st) by ring.
  split; nra.
Qed.

Lemma pop_level_stays_in_unit_interval_witness :
  0 <= ParticleSystem.smoothedBass
         (ParticleSystem.frames 3 1 [Some 1; Some 2; Some 3]
            (ParticleSystem.mkAudio 1 0 0)
            (ParticleSystem.mkFrame [Some 0; Some 0; Some 0] 0.5)) <= 1 /\
  ParticleSystem.popBass 1 <= 1.
Proof.
  apply (pop_level_stays_in_unit_interval 3 1 [Some 1; Some 2; Some 3]
           (ParticleSystem.mkAudio 1 0 0)
           (ParticleSystem.mkFrame [Some 0; Some 0; Some 0] 0.5)).
  - simpl; lra.
  - simpl; lra.
Defined.

(* ================================================================== *)
(** [onResults]: thresholds, invariance and monotonicity *)

Section GestureExtras.
Import VisionController GestureSpec.

Lemma pinchDist_nonneg (a b : Landmark) : 0 <= pinchDist a b.
Proof. apply sqrt_pos. Qed.

Lemma clamp_low (f : R) : f <= 0 -> clamp f = 0.
Proof.
  intros H. unfold clamp. destruct (Rgt_dec f 1.0); destruct (Rlt_dec _ 0.0); lra.
Qed.

Lemma clamp_high (f : R) : 1 <= f -> clamp f = 1.
Proof.
  intros H. unfold clamp. destruct (Rgt_dec f 1.0); destruct (Rlt_dec _ 0.0); lra.
Qed.

Lemma clamp_mid (f : R) : 0 <= f <= 1 -> clamp f = f.
Proof.
  intros H. unfold clamp. destruct (Rgt_dec f 1.0); destruct (Rlt_dec _ 0.0); lra.
Qed.

Lemma clamp_monotone (f g : R) : f <= g -> clamp f <= clamp g.
Proof.
  intros H. pose proof (clamp_range f). pose proof (clamp_range g).
  destruct (Rle_dec f 0) as [Hf|Hf]; [rewrite (clamp_low f) by lra; lra|].
  destruct (Rle_dec 1 g) as [Hg|Hg]; [rewrite (clamp_high g) by lra; lra|].
  destruct (Rle_dec 1 f) as [Hf1|Hf1]; [lra|].
  rewrite (clamp_mid f), (clamp_mid g) by lra. exact H.
Qed.

Lemma sqrt_scaled (k a b : R) :
  0 <= k -> sqrt ((k * a) * (k * a) + (k * b) * (k * b)) = k * sqrt (a * a + b * b).
Proof.
  intros Hk.
  replace ((k * a) * (k * a) + (k * b) * (k * b)) with ((k * k) * (a * a + b * b)) by ring.
  rewrite sqrt_mult_alt by nra. now rewrite sqrt_square.
Qed.

Lemma pinchDist_similarity (k dx dy dz : R) (a b : Landmark) :
  0 <= k ->
  pinchDist (similarity k dx dy dz a) (similarity k dx dy dz b) = k * pinchDist a b.
Proof.
  intros Hk. unfold pinchDist, similarity. cbn [x y].
  rewrite <- sqrt_scaled by assumption. f_equal. ring.
Qed.

Lemma palmSize_similarity (k dx dy dz : R) (a b : Landmark) :
  0 <= k ->
  palmSize (similarity k dx dy dz a) (similarity k dx dy dz b) = k * palmSize a b.
Proof.
  intros Hk. unfold palmSize, similarity. cbn [x y].
  rewrite <- sqrt_scaled by assumption. f_equal. ring.
Qed.

Lemma handFactor_similarity (k dx dy dz : R) (thumbTip indexTip wrist indexBase : Landmark) :
  0 < k -> palmSize wrist indexBase <> 0 ->
  handFactor (similarity k dx dy dz thumbTip) (similarity k dx dy dz indexTip)
             (similarity k dx dy dz wrist) (similarity k dx dy dz indexBase)
  = handFactor thumbTip indexTip wrist indexBase.
Proof.
  intros Hk Hp. unfold handFactor.
  rewrite pinchDist_similarity, palmSize_similarity by lra.
  assert (Hkp : k * palmSize wrist indexBase <> 0)
    by (apply Rmult_integral_contrapositive_currified; [lra | assumption]).
  rewrite (palmDivisor_nonzero _ Hkp), (palmDivisor_nonzero _ Hp).
  do 3 f_equal. field. split; [assumption | lra].
Qed.

End GestureExtras.

(** X9.  [onResults] with a hand whose palm size is not zero:
    the factor is 0 when the thumb-index distance is at most 0.2 palm sizes,
    1 when it is at least 1.2 palm sizes, and [distance / palm - 0.2] in
    between. *)
Theorem gesture_thresholds (landmarks : list VisionController.Landmark)
    (rest : list (list VisionController.Landmark))
    (thumbTip indexTip wrist indexBase : VisionController.Landmark) :
  nth_error landmarks 4 = Some thumbTip ->
  nth_error landmarks 8 = Some indexTip ->
  nth_error landmarks 0 = Some wrist ->
  nth_error landmarks 5 = Some indexBase ->
  VisionController.palmSize wrist indexBase <> 0 ->
  let pinch := VisionController.pinchDist thumbTip indexTip in
  let palm := VisionController.palmSize wrist indexBase in
  let out := VisionController.onResults
               (VisionController.mkResults (Some (landmarks :: rest))) in
  (pinch <= 0.2 * palm -> out = Some (VisionController.detected, 0)) /\
  (1.2 * palm <= pinch -> out = Some (VisionController.detected, 1)) /\
  (0.2 * palm <= pinch <= 1.2 * palm ->
   out = Some (VisionController.detected, pinch / palm - 0.2)).
Proof.
  intros H4 H8 H0 H5 Hp pinch palm out.
  unfold out. rewrite (onResults_hand _ _ _ _ _ _ H4 H8 H0 H5).
  unfold VisionController.handFactor. fold pinch palm.
  rewrite palmDivisor_nonzero by assumption.
  assert (Hpos : 0 < palm).
  { pose proof (palmSize_nonneg wrist indexBase) as Hn. fold palm in Hn.
    fold palm in Hp. destruct (Rdichotomy _ _ Hp); lra. }
  assert (Hi : 0 < / palm) by now apply Rinv_0_lt_compat.
  assert (Hq : forall c, (c * palm <= pinch <-> c <= pinch / palm)).
  { intros c. unfold Rdiv. split; intros H.
    - apply Rmult_le_reg_r with palm; [exact Hpos|].
      rewrite Rmult_assoc, Rinv_l, Rmult_1_r; lra.
    - apply (Rmult_le_compat_r palm) in H; [|lra].
      rewrite Rmult_assoc, Rinv_l, Rmult_1_r in H; lra. }
  assert (Hq' : forall c, (pinch <= c * palm <-> pinch / palm <= c)).
  { intros c. unfold Rdiv. split; intros H.
    - apply Rmult_le_reg_r with palm; [exact Hpos|].
      rewrite Rmult_assoc, Rinv_l, Rmult_1_r; lra.
    - apply (Rmult_le_compat_r palm) in H; [|lra].
      rewrite Rmult_assoc, Rinv_l, Rmult_1_r in H; lra. }
  split; [|split].
  - intros H. apply Hq' in H. rewrite clamp_low by lra. reflexivity.
  - intros H. apply Hq in H. rewrite clamp_high by lra. reflexivity.
  - intros [Hl Hh]. apply Hq in Hl. apply Hq' in Hh.
    rewrite clamp_mid by lra. do 2 f_equal. lra.
Qed.

Lemma gesture_thresholds_witness :
  let thumbTip := VisionController.mkLandmark 0.5 0 0 in
  let indexTip := VisionController.mkLandmark 0 0 0 in
  let wrist := VisionController.mkLandmark 0 0 0 in
  let indexBase := VisionController.mkLandmark 1 0 0 in
  let pinch := VisionController.pinchDist thumbTip indexTip in
  let palm := VisionController.palmSize wrist indexBase in
  let out := VisionController.onResults
               (VisionController.mkResults
                  (Some [VisionController.handOf wrist thumbTip indexBase indexTip])) in
  (pinch <= 0.2 * palm -> out = Some (VisionController.detected, 0)) /\
  (1.2 * palm <= pinch -> out = Some (VisionController.detected, 1)) /\
  (0.2 * palm <= pinch <= 1.2 * palm ->
   out = Some (VisionController.detected, pinch / palm - 0.2)).
Proof.
  apply (gesture_thresholds _ [] (VisionController.mkLandmark 0.5 0 0)
           (VisionController.mkLandmark 0 0 0) (VisionController.mkLandmark 0 0 0)
           (VisionController.mkLandmark 1 0 0)); try reflexivity.
  unfold VisionController.palmSize. cbn [VisionController.x VisionController.y].
  replace ((0 - 1) * (0 - 1) + (0 - 0) * (0 - 0)) with 1 by ring.
  rewrite sqrt_1. lra.
Defined.

(** X10.  The factor of [onResults] does not depend on
    where the hand is or how large it appears: scaling every landmark by a
    positive factor and translating it gives the same status and factor, as
    long as the palm size is not zero.  Only the first hand is read. *)
Theorem gesture_similarity_invariant (k dx dy dz : R)
    (landmarks : list VisionController.Landmark)
    (rest rest' : list (list VisionController.Landmark))
    (wrist indexBase : VisionController.Landmark) :
  0 < k ->
  nth_error landmarks 0 = Some wrist ->
  nth_error landmarks 5 = Some indexBase ->
  VisionController.palmSize wrist indexBase <> 0 ->
  VisionController.onResults
    (VisionController.mkResults
       (Some (map (GestureSpec.similarity k dx dy dz) landmarks :: rest')))
  = VisionController.onResults
      (VisionController.mkResults (Some (landmarks :: rest))).
Proof.
  intros Hk H0 H5 Hp. unfold VisionController.onResults.
  cbn [VisionController.multiHandLandmarks].
  rewrite !nth_error_map, H0, H5.
  destruct (nth_error landmarks 4) as [thumbTip|]; [|reflexivity].
  destruct (nth_error landmarks 8) as [indexTip|]; [|reflexivity].
  cbn [option_map]. now rewrite handFactor_similarity.
Qed.

Lemma gesture_similarity_invariant_witness :
  let hand := VisionController.handOf
                (VisionController.mkLandmark 0 0 0)
                (VisionController.mkLandmark 0.5 0 0)
                (VisionController.mkLandmark 1 0 0)
                (VisionController.mkLandmark 0 0 0) in
  VisionController.onResults
    (VisionController.mkResults
       (Some (map (GestureSpec.similarity 2 1 1 0) hand :: [])))
  = VisionController.onResults (VisionController.mkResults (Some (hand :: []))).
Proof.
  apply (gesture_similarity_invariant 2 1 1 0 _ [] []
           (VisionController.mkLandmark 0 0 0)
           (VisionController.mkLandmark 1 0 0)); try reflexivity; [lra|].
  unfold VisionController.palmSize. cbn [VisionController.x VisionController.y].
  replace ((0 - 1) * (0 - 1) + (0 - 0) * (0 - 0)) with 1 by ring.
  rewrite sqrt_1. lra.
Defined.

(** X11.  [onResults] reads [landmarks[8]] without a
    check: a first hand with fewer than nine landmarks makes the callback
    raise (a property of [undefined] is read) instead of reporting a factor. *)
Theorem gesture_missing_landmark_raises
    (landmarks : list VisionController.Landmark)
    (rest : list (list VisionController.Landmark)) :
  (length landmarks < 9)%nat ->
  VisionController.onResults
    (VisionController.mkResults (Some (landmarks :: rest))) = None.
Proof.
  intros Hlen. unfold VisionController.onResults.
  cbn [VisionController.multiHandLandmarks].
  assert (E8 : nth_error landmarks 8 = None) by (apply nth_error_None; lia).
  rewrite E8. destruct (nth_error landmarks 4); reflexivity.
Qed.

Lemma gesture_missing_landmark_raises_witness :
  VisionController.onResults
    (VisionController.mkResults
       (Some ([VisionController.mkLandmark 0 0 0] :: []))) = None.
Proof.
  apply (gesture_missing_landmark_raises [VisionController.mkLandmark 0 0 0] []).
  simpl. lia.
Defined.

(** X12.  For a fixed wrist and index base, the gesture
    factor is monotone in the thumb-index distance: a wider pinch never gives
    a smaller factor. *)
Theorem gesture_monotone_in_pinch
    (thumbTip indexTip thumbTip' indexTip' wrist indexBase : VisionController.Landmark) :
  VisionController.pinchDist thumbTip indexTip
    <= VisionController.pinchDist thumbTip' indexTip' ->
  VisionController.handFactor thumbTip indexTip wrist indexBase
    <= VisionController.handFactor thumbTip' indexTip' wrist indexBase.
Proof.
  intros H. unfold VisionController.handFactor.
  apply clamp_monotone.
  pose proof (palmDivisor_pos _ (palmSize_nonneg wrist indexBase)) as Hd.
  set (d := VisionController.palmDivisor _) in *.
  assert (0 < / d) by now apply Rinv_0_lt_compat.
  unfold Rdiv. nra.
Qed.

Lemma gesture_monotone_in_pinch_witness :
  VisionController.pinchDist (VisionController.mkLandmark 0 0 0)
    (VisionController.mkLandmark 0.3 0 0)
  <= VisionController.pinchDist (VisionController.mkLandmark 0.1 0.2 0)
       (VisionController.mkLandmark 0.7 0.2 0) /\
  VisionController.handFactor (VisionController.mkLandmark 0 0 0)
    (VisionController.mkLandmark 0.3 0 0) (VisionController.mkLandmark 0 0 0)
    (VisionController.mkLandmark 1 0 0)
  <= VisionController.handFactor (VisionController.mkLandmark 0.1 0.2 0)
       (VisionController.mkLandmark 0.7 0.2 0) (VisionController.mkLandmark 0 0 0)
       (VisionController.mkLandmark 1 0 0).
Proof.
  assert (H : VisionController.pinchDist (VisionController.mkLandmark 0 0 0)
                (VisionController.mkLandmark 0.3 0 0)
              <= VisionController.pinchDist (VisionController.mkLandmark 0.1 0.2 0)
                   (VisionController.mkLandmark 0.7 0.2 0)).
  { unfold VisionController.pinchDist.
    cbn [VisionController.x VisionController.y].
    apply sqrt_le_1_alt. lra. }
  split; [exact H|].
  exact (gesture_monotone_in_pinch (VisionController.mkLandmark 0 0 0)
           (VisionController.mkLandmark 0.3 0 0)
           (VisionController.mkLandmark 0.1 0.2 0)
           (VisionController.mkLandmark 0.7 0.2 0)
           (VisionController.mkLandmark 0 0 0)
           (VisionController.mkLandmark 1 0 0) H).
Defined.

(* ================================================================== *)
(** [generateShapePositions]: the surfaces of the shapes *)

Section ShapeExtras.
Import ShapeGenerator.

Variable draws : nat -> R.
Hypothesis Hdraws : forall n, 0 <= draws n < 1.
Variable radius : R.
Hypothesis Hradius : 0 < radius.

Ltac draw u Hu :=
  eapply yields_bind;
  [apply (yields_random draws Hdraws) | intros u Hu; cbv beta in Hu; cbv zeta].

Lemma nebula_disc :
  yields (nebula radius) draws
    (fun v => lengthSq v <= radius * radius /\ Rabs (vy v) <= 0.3 * radius).
Proof.
  unfold nebula. draw u1 H1. draw u2 H2. draw u3 H3.
  eapply yields_bind;
    [apply yields_num, Math_acos_in; lra | intros phi _; cbv zeta].
  apply yields_ret.
  set (v := setFromSphericalCoords (u1 * radius) phi (u2 * PI * 2)).
  pose proof (spherical_lengthSq (u1 * radius) phi (u2 * PI * 2)) as Hv.
  fold v in Hv. unfold lengthSq in *. cbn [vx vy vz].
  pose proof (trig_square (sin (u1 * radius * 0.5))) as Ht.
  set (s := sin (sin (u1 * radius * 0.5))) in *.
  set (c := cos (sin (u1 * radius * 0.5))) in *.
  assert (Hr : 0 <= u1 * radius <= radius) by nra.
  assert (Hrr : u1 * radius * (u1 * radius) <= radius * radius) by nra.
  pose proof (Rle_0_sqr (vx v)) as Hx. pose proof (Rle_0_sqr (vy v)) as Hy.
  pose proof (Rle_0_sqr (vz v)) as Hz. unfold Rsqr in *.
  split.
  - replace ((vx v * c - vz v * s) * (vx v * c - vz v * s)
             + vy v * 0.3 * (vy v * 0.3)
             + (vx v * s + vz v * c) * (vx v * s + vz v * c))
      with ((vx v * vx v + vz v * vz v) * (s * s + c * c) + 0.09 * (vy v * vy v))
      by (decimals; field).
    rewrite Ht. nra.
  - assert (Hyb : - radius <= vy v <= radius) by nra.
    apply Rabs_le. lra.
Qed.

Lemma rose_shell :
  yields (rose radius) draws
    (fun v => 0.5 * radius <= Vector3_length v <= radius).
Proof.
  unfold rose. draw u1 H1. draw u2 H2. apply yields_ret.
  unfold Vector3_length. rewrite spherical_lengthSq.
  pose proof (Rabs_pos (sin (6 * (u1 * PI * 2)) * sin (6 * (u2 * PI)))) as Ha0.
  assert (Ha1 : Rabs (sin (6 * (u1 * PI * 2)) * sin (6 * (u2 * PI))) <= 1).
  { apply Rabs_le.
    pose proof (sin_range (6 * (u1 * PI * 2))). pose proof (sin_range (6 * (u2 * PI))).
    nra. }
  set (m := Rabs _) in *. clearbody m.
  rewrite sqrt_square by nra. nra.
Qed.

Lemma spiral_arm (i count : nat) :
  (i < count)%nat ->
  yields (spiral (INR i / INR count) radius) draws
    (fun v =>
       Rabs (sqrt (vx v * vx v + vz v * vz v) - 1.5 * radius * (INR i / INR count))
         <= 0.1 * radius /\
       Rabs (vy v) <= 0.05 * radius).
Proof.
  intros Hi. pose proof (unit_fraction i count Hi) as Ht.
  set (t := INR i / INR count) in *. clearbody t.
  unfold spiral.
  assert (HPI : PI * 2 * 4 <> 0) by (pose proof PI_RGT_0; lra).
  eapply yields_bind; [apply yields_div, HPI | intros q Hq; cbv beta in Hq; cbv zeta].
  assert (Hqt : q = t) by (rewrite Hq; field; pose proof PI_RGT_0; lra).
  rewrite Hqt. clear q Hq Hqt.
  draw u1 H1. draw u2 H2. apply yields_ret. cbn [vx vy vz].
  rewrite circle_square.
  set (w := t * radius * 1.5 + (u1 - 0.5) * (radius * 0.2)).
  replace (sqrt (w * w)) with (Rabs w)
    by (rewrite <- sqrt_Rsqr_abs; reflexivity).
  split.
  - unfold w. apply Rabs_le.
    destruct (Rle_dec 0 w) as [Hw|Hw]; fold w.
    + rewrite Rabs_pos_eq by exact Hw. unfold w. nra.
    + rewrite Rabs_left by lra. unfold w in *. nra.
  - apply Rabs_le. nra.
Qed.

Lemma lemniscate_curve (t : R) :
  yields (lemniscate t radius) draws
    (fun v =>
       (vx v * vx v + vz v * vz v) * (vx v * vx v + vz v * vz v)
       = (1.2 * radius) * (1.2 * radius) * (vx v * vx v - vz v * vz v) /\
       Rabs (vy v) <= 1).
Proof.
  unfold lemniscate.
  set (sinT := sin (t * PI * 2)). set (cosT := cos (t * PI * 2)).
  assert (Hd : 1 <= 1 + sinT * sinT) by nra.
  eapply yields_bind; [apply yields_div; lra | intros bx Hbx0; cbv beta in Hbx0; cbv zeta].
  eapply yields_bind; [apply yields_div; lra | intros by_ Hby0; cbv beta in Hby0; cbv zeta].
  draw u1 H1. apply yields_ret.
  rewrite applyAxisAngle_X. unfold rotateX. cbn [vx vy vz].
  rewrite cos_PI2, sin_PI2.
  pose proof (trig_square (t * PI * 2)) as Ht. fold sinT cosT in Ht.
  clearbody sinT cosT.
  set (d := 1 + sinT * sinT) in *.
  set (A := radius * 1.2 * cosT / d).
  assert (HA : A * d = radius * 1.2 * cosT) by (unfold A; field; lra).
  assert (Hbx : bx = A) by (rewrite Hbx0; reflexivity).
  assert (Hby : by_ = A * sinT) by (rewrite Hby0; unfold A; field; lra).
  rewrite Hbx, Hby. clearbody A. split.
  - replace ((A * A + (A * sinT * 1 + (u1 - 0.5) * 2.0 * 0)
                      * (A * sinT * 1 + (u1 - 0.5) * 2.0 * 0))
             * (A * A + (A * sinT * 1 + (u1 - 0.5) * 2.0 * 0)
                        * (A * sinT * 1 + (u1 - 0.5) * 2.0 * 0)))
      with (A * A * ((A * d) * (A * d))) by (unfold d; ring).
    replace (A * A - (A * sinT * 1 + (u1 - 0.5) * 2.0 * 0)
                     * (A * sinT * 1 + (u1 - 0.5) * 2.0 * 0))
      with (A * A * (1 - sinT * sinT)) by ring.
    rewrite HA. replace (1 - sinT * sinT) with (cosT * cosT) by lra.
    decimals. field.
  - apply Rabs_le. nra.
Qed.

Lemma catenoid_surface (i count : nat) (tempVec : Vector3) :
  (i < count)%nat ->
  yields (catenoid (INR i / INR count) radius tempVec) draws
    (fun v =>
       vy v = (INR i / INR count - 0.5) * radius * 1.5 /\
       vx v * vx v + vz v * vz v
       = (radius * 0.3 * cosh (vy v / (radius * 0.3)))
         * (radius * 0.3 * cosh (vy v / (radius * 0.3)))).
Proof.
  intros Hi. unfold catenoid. draw u1 H1.
  eapply yields_bind; [apply yields_div; lra | intros q Hq; cbv beta in Hq; cbv zeta].
  apply yields_ret. unfold setX, setY, setZ; cbn [vx vy vz].
  split; [reflexivity|]. rewrite <- Hq. apply circle_square.
Qed.

Lemma cake_tiers (i count : nat) :
  yields (cake i count radius) draws
    (fun v =>
       let planar := vx v * vx v + vz v * vz v in
       (INR i <= INR count * 0.55 ->
        planar <= radius * radius /\ - (0.5 * radius) <= vy v <= 0) /\
       (INR count * 0.55 < INR i <= INR count * 0.90 ->
        planar <= (0.65 * radius) * (0.65 * radius) /\ 0 <= vy v <= 0.4 * radius) /\
       (INR count * 0.90 < INR i <= INR count * 0.95 ->
        exists off, Rabs off <= 0.1 /\
          ((vy v = 0.4 * radius /\
            planar = (0.65 * radius + off) * (0.65 * radius + off)) \/
           (vy v = 0 /\ planar = (radius + off) * (radius + off)))) /\
       (INR count * 0.95 < INR i <= INR count * 0.98 ->
        planar = (0.39 * radius) * (0.39 * radius) /\
        0.4 * radius <= vy v <= 0.55 * radius) /\
       (INR count * 0.98 < INR i ->
        0.55 * radius <= vy v <= 0.55 * radius + 0.2)).
Proof.
  unfold cake. draw rand Hrand.
  eapply yields_bind with
    (P := fun v0 =>
       let v := setY v0 (vy v0 - radius * 0.5) in
       let planar := vx v * vx v + vz v * vz v in
       (INR i <= INR count * 0.55 ->
        planar <= radius * radius /\ - (0.5 * radius) <= vy v <= 0) /\
       (INR count * 0.55 < INR i <= INR count * 0.90 ->
        planar <= (0.65 * radius) * (0.65 * radius) /\ 0 <= vy v <= 0.4 * radius) /\
       (INR count * 0.90 < INR i <= INR count * 0.95 ->
        exists off, Rabs off <= 0.1 /\
          ((vy v = 0.4 * radius /\
            planar = (0.65 * radius + off) * (0.65 * radius + off)) \/
           (vy v = 0 /\ planar = (radius + off) * (radius + off)))) /\
       (INR count * 0.95 < INR i <= INR count * 0.98 ->
        planar = (0.39 * radius) * (0.39 * radius) /\
        0.4 * radius <= vy v <= 0.55 * radius) /\
       (INR count * 0.98 < INR i ->
        0.55 * radius <= vy v <= 0.55 * radius + 0.2)).
  2:{ intros v0 Hv0. apply yields_ret. exact Hv0. }
  destruct (Rgt_dec (INR i) (INR count * 0.98)) as [G98|G98];
    [|destruct (Rgt_dec (INR i) (INR count * 0.95)) as [G95|G95];
      [|destruct (Rgt_dec (INR i) (INR count * 0.90)) as [G90|G90];
        [|destruct (Rgt_dec (INR i) (INR count * 0.55)) as [G55|G55]]]]; cbv zeta.
  - draw u1 H1. draw u2 H2. draw u3 H3. draw u4 H4.
    apply yields_ret. unfold setX, setY, setZ; cbn [vx vy vz].
    assert (0 <= INR count) by apply pos_INR.
    repeat split; intros; try lra.
  - draw u1 H1. draw u2 H2.
    apply yields_ret. unfold setY; cbn [vx vy vz].
    assert (0 <= INR count) by apply pos_INR.
    rewrite circle_square.
    repeat split; intros; try lra; try nra.
  - draw u1 H1. draw u2 H2.
    apply yields_ret. unfold setY; cbn [vx vy vz].
    assert (0 <= INR count) by apply pos_INR.
    pose proof (sin_range (u1 * PI * 2 * 20)) as Hs.
    set (s20 := sin (u1 * PI * 2 * 20)) in *. clearbody s20.
    split; [intros; lra|]. split; [intros; lra|].
    split; [|split; intros; lra].
    intros _. exists (0.5 * s20 * 0.2). split; [apply Rabs_le; lra|].
    destruct (Rgt_dec u2 0.5); rewrite circle_square.
    + left. split; [lra|]. decimals. field.
    + right. split; [lra|]. reflexivity.
  - draw u1 H1. draw u2 H2.
    eapply yields_bind;
      [apply yields_num, Math_sqrt_in; lra | intros sq ->; cbv zeta].
    draw u3 H3. apply yields_ret. unfold setY; cbn [vx vy vz].
    assert (0 <= INR count) by apply pos_INR.
    pose proof (sqrt_unit u2 H2) as Hsq. set (sq := sqrt u2) in *. clearbody sq.
    rewrite circle_square.
    split; [intros; lra|]. split; [|repeat split; intros; lra].
    intros _. split; [|nra].
    apply square_le. nra.
  - draw u1 H1. draw u2 H2.
    eapply yields_bind;
      [apply yields_num, Math_sqrt_in; lra | intros sq ->; cbv zeta].
    draw u3 H3. apply yields_ret. unfold setY; cbn [vx vy vz].
    assert (0 <= INR count) by apply pos_INR.
    pose proof (sqrt_unit u2 H2) as Hsq. set (sq := sqrt u2) in *. clearbody sq.
    rewrite circle_square.
    split; [|repeat split; intros; lra].
    intros _. split; [|nra].
    apply square_le. nra.
Qed.

End ShapeExtras.

Section ShapeEdges.
Import ShapeGenerator.

Lemma shapePoint_fresh (type : ShapeType) (i count : nat) (t radius : R)
    (tv1 tv2 : Vector3) (draws : nat -> R) (n : nat) :
  shapePoint type i count t radius tv1 draws n
  = shapePoint type i count t radius tv2 draws n.
Proof. destruct type; reflexivity. Qed.

Lemma flower_radius0 (t : R) (draws : nat -> R) (n : nat) :
  flower t 0 draws n = None.
Proof.
  unfold flower, bind, div. rewrite jsdiv_zero. reflexivity.
Qed.

Lemma catenoid_radius0 (t : R) (tv : Vector3) (draws : nat -> R) (n : nat) :
  catenoid t 0 tv draws n = None.
Proof.
  unfold catenoid, bind, div, random.
  replace (0 * 0.3) with 0 by lra. rewrite jsdiv_zero. reflexivity.
Qed.

Lemma forEach_fails {S : Type} (body : S -> nat -> Gen S) (l : list nat) (s : S)
    (draws : nat -> R) (n : nat) :
  l <> [] ->
  (forall s i n, body s i draws n = None) ->
  forEach body l s draws n = None.
Proof.
  intros Hl Hb. destruct l as [|i l]; [contradiction|].
  simpl. unfold bind. now rewrite Hb.
Qed.

Lemma iteration_fails (type : ShapeType) (count : nat) (radius : R)
    (draws : nat -> R) :
  (forall i t tv n, shapePoint type i count t radius tv draws n = None) ->
  forall st i n, iteration type count radius st i draws n = None.
Proof.
  intros Hp st i n. unfold iteration, bind.
  destruct (div (INR i) (INR count) draws n) as [[t n1]|]; [|reflexivity].
  destruct (fallback radius draws n1) as [[f n2]|]; [|reflexivity].
  now rewrite Hp.
Qed.

End ShapeEdges.


(** X13.  NEBULA: with draws in [0, 1) and a positive
    radius, every particle lies within distance [radius] of the origin and
    its height [|y|] is at most [0.3 * radius] (the ball is flattened to a
    disc). *)
Theorem nebula_is_flattened_ball (count : nat) (radius : R) (draws : nat -> R) :
  (forall n, 0 <= draws n < 1) ->
  0 < radius ->
  exists ps,
    ShapeGenerator.generate ShapeGenerator.NEBULA count radius draws = Some ps /\
    forall i, (i < count)%nat ->
      ShapeGenerator.Vector3_length (ShapeGenerator.point ps i) <= radius /\
      Rabs (ShapeGenerator.vy (ShapeGenerator.point ps i)) <= 0.3 * radius.
Proof.
  intros Hdraws Hradius.
  destruct (generate_yields draws ShapeGenerator.NEBULA count radius
              (fun _ v => ShapeGenerator.lengthSq v <= radius * radius /\
                          Rabs (ShapeGenerator.vy v) <= 0.3 * radius))
    as (ps & E & _ & Hp).
  { intros i tempVec _. cbn [ShapeGenerator.shapePoint].
    now apply nebula_disc. }
  exists ps. split; [exact E|]. intros i Hi. destruct (Hp i Hi) as [Hl Hy].
  split; [apply length_le; lra | exact Hy].
Qed.

Lemma nebula_is_flattened_ball_witness :
  exists ps,
    ShapeGenerator.generate ShapeGenerator.NEBULA 3 10 (fun _ => 0.5) = Some ps /\
    forall i, (i < 3)%nat ->
      ShapeGenerator.Vector3_length (ShapeGenerator.point ps i) <= 10 /\
      Rabs (ShapeGenerator.vy (ShapeGenerator.point ps i)) <= 0.3 * 10.
Proof.
  apply (nebula_is_flattened_ball 3 10 (fun _ => 0.5)); [intros _; lra | lra].
Defined.

(** X14.  ROSE: with draws in [0, 1) and a positive radius, every
    particle lies at a distance between [0.5 * radius] and [radius] from the
    origin. *)
Theorem rose_lies_in_shell (count : nat) (radius : R) (draws : nat -> R) :
  (forall n, 0 <= draws n < 1) ->
  0 < radius ->
  exists ps,
    ShapeGenerator.generate ShapeGenerator.ROSE count radius draws = Some ps /\
    forall i, (i < count)%nat ->
      0.5 * radius <= ShapeGenerator.Vector3_length (ShapeGenerator.point ps i)
      <= radius.
Proof.
  intros Hdraws Hradius.
  destruct (generate_yields draws ShapeGenerator.ROSE count radius
              (fun _ v => 0.5 * radius <= ShapeGenerator.Vector3_length v <= radius))
    as (ps & E & _ & Hp).
  { intros i tempVec _. cbn [ShapeGenerator.shapePoint]. now apply rose_shell. }
  exists ps. split; [exact E | exact Hp].
Qed.

Lemma rose_lies_in_shell_witness :
  exists ps,
    ShapeGenerator.generate ShapeGenerator.ROSE 3 10 (fun _ => 0.5) = Some ps /\
    forall i, (i < 3)%nat ->
      0.5 * 10 <= ShapeGenerator.Vector3_length (ShapeGenerator.point ps i) <= 10.
Proof.
  apply (rose_lies_in_shell 3 10 (fun _ => 0.5)); [intros _; lra | lra].
Defined.

(** X15.  SPIRAL: with draws in [0, 1) and a positive radius,
    particle [i] of [count] lies within [0.1 * radius] of the arm radius
    [1.5 * radius * i / count] (distance from the y axis) and within
    [0.05 * radius] of the plane [y = 0]. *)
Theorem spiral_follows_arm (count : nat) (radius : R) (draws : nat -> R) :
  (forall n, 0 <= draws n < 1) ->
  0 < radius ->
  exists ps,
    ShapeGenerator.generate ShapeGenerator.SPIRAL count radius draws = Some ps /\
    forall i, (i < count)%nat ->
      let p := ShapeGenerator.point ps i in
      Rabs (sqrt (ShapeGenerator.vx p * ShapeGenerator.vx p
                  + ShapeGenerator.vz p * ShapeGenerator.vz p)
            - 1.5 * radius * (INR i / INR count)) <= 0.1 * radius /\
      Rabs (ShapeGenerator.vy p) <= 0.05 * radius.
Proof.
  intros Hdraws Hradius.
  destruct (generate_yields draws ShapeGenerator.SPIRAL count radius
              (fun i v =>
                 Rabs (sqrt (ShapeGenerator.vx v * ShapeGenerator.vx v
                             + ShapeGenerator.vz v * ShapeGenerator.vz v)
                       - 1.5 * radius * (INR i / INR count)) <= 0.1 * radius /\
                 Rabs (ShapeGenerator.vy v) <= 0.05 * radius))
    as (ps & E & _ & Hp).
  { intros i tempVec Hi. cbn [ShapeGenerator.shapePoint]. now apply spiral_arm. }
  exists ps. split; [exact E | exact Hp].
Qed.

Lemma spiral_follows_arm_witness :
  exists ps,
    ShapeGenerator.generate ShapeGenerator.SPIRAL 3 10 (fun _ => 0.5) = Some ps /\
    forall i, (i < 3)%nat ->
      let p := ShapeGenerator.point ps i in
      Rabs (sqrt (ShapeGenerator.vx p * ShapeGenerator.vx p
                  + ShapeGenerator.vz p * ShapeGenerator.vz p)
            - 1.5 * 10 * (INR i / INR 3)) <= 0.1 * 10 /\
      Rabs (ShapeGenerator.vy p) <= 0.05 * 10.
Proof.
  apply (spiral_follows_arm 3 10 (fun _ => 0.5)); [intros _; lra | lra].
Defined.

(** X16.  LEMNISCATE: with draws in [0, 1) and a positive
    radius, the projection of every particle on the xz plane lies on the
    lemniscate of Bernoulli [(x^2 + z^2)^2 = a^2 (x^2 - z^2)] with
    [a = 1.2 * radius], and its height [|y|] is at most 1. *)
Theorem lemniscate_on_curve (count : nat) (radius : R) (draws : nat -> R) :
  (forall n, 0 <= draws n < 1) ->
  0 < radius ->
  exists ps,
    ShapeGenerator.generate ShapeGenerator.LEMNISCATE count radius draws = Some ps /\
    forall i, (i < count)%nat ->
      let p := ShapeGenerator.point ps i in
      let planar := ShapeGenerator.vx p * ShapeGenerator.vx p
                    + ShapeGenerator.vz p * ShapeGenerator.vz p in
      planar * planar
      = (1.2 * radius) * (1.2 * radius)
        * (ShapeGenerator.vx p * ShapeGenerator.vx p
           - ShapeGenerator.vz p * ShapeGenerator.vz p) /\
      Rabs (ShapeGenerator.vy p) <= 1.
Proof.
  intros Hdraws Hradius.
  destruct (generate_yields draws ShapeGenerator.LEMNISCATE count radius
              (fun _ v =>
                 (ShapeGenerator.vx v * ShapeGenerator.vx v
                  + ShapeGenerator.vz v * ShapeGenerator.vz v)
                 * (ShapeGenerator.vx v * ShapeGenerator.vx v
                    + ShapeGenerator.vz v * ShapeGenerator.vz v)
                 = (1.2 * radius) * (1.2 * radius)
                   * (ShapeGenerator.vx v * ShapeGenerator.vx v
                      - ShapeGenerator.vz v * ShapeGenerator.vz v) /\
                 Rabs (ShapeGenerator.vy v) <= 1))
    as (ps & E & _ & Hp).
  { intros i tempVec _. cbn [ShapeGenerator.shapePoint].
    now apply lemniscate_curve. }
  exists ps. split; [exact E | exact Hp].
Qed.

Lemma lemniscate_on_curve_witness :
  exists ps,
    ShapeGenerator.generate ShapeGenerator.LEMNISCATE 3 10 (fun _ => 0.5) = Some ps /\
    forall i, (i < 3)%nat ->
      let p := ShapeGenerator.point ps i in
      let planar := ShapeGenerator.vx p * ShapeGenerator.vx p
                    + ShapeGenerator.vz p * ShapeGenerator.vz p in
      planar * planar
      = (1.2 * 10) * (1.2 * 10)
        * (ShapeGenerator.vx p * ShapeGenerator.vx p
           - ShapeGenerator.vz p * ShapeGenerator.vz p) /\
      Rabs (ShapeGenerator.vy p) <= 1.
Proof.
  apply (lemniscate_on_curve 3 10 (fun _ => 0.5)); [intros _; lra | lra].
Defined.

(** X17.  CATENOID: with draws in [0, 1) and a positive radius,
    particle [i] of [count] has height [(i / count - 0.5) * 1.5 * radius] and
    lies on the catenoid [x^2 + z^2 = (c cosh (y / c))^2] with
    [c = 0.3 * radius]. *)
Theorem catenoid_on_surface (count : nat) (radius : R) (draws : nat -> R) :
  (forall n, 0 <= draws n < 1) ->
  0 < radius ->
  exists ps,
    ShapeGenerator.generate ShapeGenerator.CATENOID count radius draws = Some ps /\
    forall i, (i < count)%nat ->
      let p := ShapeGenerator.point ps i in
      let c := radius * 0.3 in
      ShapeGenerator.vy p = (INR i / INR count - 0.5) * radius * 1.5 /\
      ShapeGenerator.vx p * ShapeGenerator.vx p
      + ShapeGenerator.vz p * ShapeGenerator.vz p
      = (c * cosh (ShapeGenerator.vy p / c)) * (c * cosh (ShapeGenerator.vy p / c)).
Proof.
  intros Hdraws Hradius.
  destruct (generate_yields draws ShapeGenerator.CATENOID count radius
              (fun i v =>
                 ShapeGenerator.vy v = (INR i / INR count - 0.5) * radius * 1.5 /\
                 ShapeGenerator.vx v * ShapeGenerator.vx v
                 + ShapeGenerator.vz v * ShapeGenerator.vz v
                 = (radius * 0.3 * cosh (ShapeGenerator.vy v / (radius * 0.3)))
                   * (radius * 0.3 * cosh (ShapeGenerator.vy v / (radius * 0.3)))))
    as (ps & E & _ & Hp).
  { intros i tempVec Hi. cbn [ShapeGenerator.shapePoint].
    now apply catenoid_surface. }
  exists ps. split; [exact E | exact Hp].
Qed.

Lemma catenoid_on_surface_witness :
  exists ps,
    ShapeGenerator.generate ShapeGenerator.CATENOID 3 10 (fun _ => 0.5) = Some ps /\
    forall i, (i < 3)%nat ->
      let p := ShapeGenerator.point ps i in
      let c := 10 * 0.3 in
      ShapeGenerator.vy p = (INR i / INR 3 - 0.5) * 10 * 1.5 /\
      ShapeGenerator.vx p * ShapeGenerator.vx p
      + ShapeGenerator.vz p * ShapeGenerator.vz p
      = (c * cosh (ShapeGenerator.vy p / c)) * (c * cosh (ShapeGenerator.vy p / c)).
Proof.
  apply (catenoid_on_surface 3 10 (fun _ => 0.5)); [intros _; lra | lra].
Defined.

(** X18.  CAKE: with draws in [0, 1) and a positive radius, the
    index decides the part of the cake.  Up to [0.55 count]: the bottom tier,
    within [radius] of the axis, height in [[-0.5 radius, 0]].  Up to
    [0.90 count]: the top tier, within [0.65 radius], height in
    [[0, 0.4 radius]].  Up to [0.95 count]: a cream ring on one of the two
    tier rims, at [0.65 radius] or [radius] from the axis up to an offset of
    0.1.  Up to [0.98 count]: the candles, at exactly [0.39 radius] from the
    axis, height in [[0.4 radius, 0.55 radius]].  The rest: the flames, at
    height in [[0.55 radius, 0.55 radius + 0.2]]. *)
Theorem cake_tier_layout (count : nat) (radius : R) (draws : nat -> R) :
  (forall n, 0 <= draws n < 1) ->
  0 < radius ->
  exists ps,
    ShapeGenerator.generate ShapeGenerator.CAKE count radius draws = Some ps /\
    forall i, (i < count)%nat ->
      let p := ShapeGenerator.point ps i in
      let planar := ShapeGenerator.vx p * ShapeGenerator.vx p
                    + ShapeGenerator.vz p * ShapeGenerator.vz p in
      (INR i <= INR count * 0.55 ->
       planar <= radius * radius /\
       - (0.5 * radius) <= ShapeGenerator.vy p <= 0) /\
      (INR count * 0.55 < INR i <= INR count * 0.90 ->
       planar <= (0.65 * radius) * (0.65 * radius) /\
       0 <= ShapeGenerator.vy p <= 0.4 * radius) /\
      (INR count * 0.90 < INR i <= INR count * 0.95 ->
       exists off, Rabs off <= 0.1 /\
         ((ShapeGenerator.vy p = 0.4 * radius /\
           planar = (0.65 * radius + off) * (0.65 * radius + off)) \/
          (ShapeGenerator.vy p = 0 /\ planar = (radius + off) * (radius + off)))) /\
      (INR count * 0.95 < INR i <= INR count * 0.98 ->
       planar = (0.39 * radius) * (0.39 * radius) /\
       0.4 * radius <= ShapeGenerator.vy p <= 0.55 * radius) /\
      (INR count * 0.98 < INR i ->
       0.55 * radius <= ShapeGenerator.vy p <= 0.55 * radius + 0.2).
Proof.
  intros Hdraws Hradius.
  destruct (generate_yields draws ShapeGenerator.CAKE count radius
              (fun i v =>
                 let planar := ShapeGenerator.vx v * ShapeGenerator.vx v
                               + ShapeGenerator.vz v * ShapeGenerator.vz v in
                 (INR i <= INR count * 0.55 ->
                  planar <= radius * radius /\
                  - (0.5 * radius) <= ShapeGenerator.vy v <= 0) /\
                 (INR count * 0.55 < INR i <= INR count * 0.90 ->
                  planar <= (0.65 * radius) * (0.65 * radius) /\
                  0 <= ShapeGenerator.vy v <= 0.4 * radius) /\
                 (INR count * 0.90 < INR i <= INR count * 0.95 ->
                  exists off, Rabs off <= 0.1 /\
                    ((ShapeGenerator.vy v = 0.4 * radius /\
                      planar = (0.65 * radius + off) * (0.65 * radius + off)) \/
                     (ShapeGenerator.vy v = 0 /\
                      planar = (radius + off) * (radius + off)))) /\
                 (INR count * 0.95 < INR i <= INR count * 0.98 ->
                  planar = (0.39 * radius) * (0.39 * radius) /\
                  0.4 * radius <= ShapeGenerator.vy v <= 0.55 * radius) /\
                 (INR count * 0.98 < INR i ->
                  0.55 * radius <= ShapeGenerator.vy v <= 0.55 * radius + 0.2)))
    as (ps & E & _ & Hp).
  { intros i tempVec _. cbn [ShapeGenerator.shapePoint].
    now apply cake_tiers. }
  exists ps. split; [exact E | exact Hp].
Qed.

Lemma cake_tier_layout_witness :
  exists ps,
    ShapeGenerator.generate ShapeGenerator.CAKE 3 10 (fun _ => 0.5) = Some ps /\
    forall i, (i < 3)%nat ->
      let p := ShapeGenerator.point ps i in
      let planar := ShapeGenerator.vx p * ShapeGenerator.vx p
                    + ShapeGenerator.vz p * ShapeGenerator.vz p in
      (INR i <= INR 3 * 0.55 ->
       planar <= 10 * 10 /\
       - (0.5 * 10) <= ShapeGenerator.vy p <= 0) /\
      (INR 3 * 0.55 < INR i <= INR 3 * 0.90 ->
       planar <= (0.65 * 10) * (0.65 * 10) /\
       0 <= ShapeGenerator.vy p <= 0.4 * 10) /\
      (INR 3 * 0.90 < INR i <= INR 3 * 0.95 ->
       exists off, Rabs off <= 0.1 /\
         ((ShapeGenerator.vy p = 0.4 * 10 /\
           planar = (0.65 * 10 + off) * (0.65 * 10 + off)) \/
          (ShapeGenerator.vy p = 0 /\ planar = (10 + off) * (10 + off)))) /\
      (INR 3 * 0.95 < INR i <= INR 3 * 0.98 ->
       planar = (0.39 * 10) * (0.39 * 10) /\
       0.4 * 10 <= ShapeGenerator.vy p <= 0.55 * 10) /\
      (INR 3 * 0.98 < INR i ->
       0.55 * 10 <= ShapeGenerator.vy p <= 0.55 * 10 + 0.2).
Proof.
  apply (cake_tier_layout 3 10 (fun _ => 0.5)); [intros _; lra | lra].
Defined.

(** X19.  The scratch vector [tempVec] is shared by
    all iterations of [generateShapePositions], but nothing leaks from one
    particle to the next: for every shape, what an iteration stores and
    consumes does not depend on the value [tempVec] held before it. *)
Theorem iteration_ignores_stale_tempVec (type : ShapeGenerator.ShapeType)
    (count : nat) (radius : R) (positions : list R)
    (tv1 tv2 : ShapeGenerator.Vector3) (i : nat) (draws : nat -> R) (n : nat) :
  ShapeGenerator.iteration type count radius (positions, tv1) i draws n
  = ShapeGenerator.iteration type count radius (positions, tv2) i draws n.
Proof.
  unfold ShapeGenerator.iteration, ShapeGenerator.bind. cbn [fst snd].
  destruct (ShapeGenerator.div (INR i) (INR count) draws n) as [[t n1]|];
    [|reflexivity].
  destruct (ShapeGenerator.fallback radius draws n1) as [[f n2]|]; [|reflexivity].
  now rewrite (shapePoint_fresh type i count t radius tv1 tv2).
Qed.

(** X20.  [generateShapePositions] with [radius = 0] and
    at least one particle stores a non-finite coordinate for FLOWER (its
    petal height divides by the radius) and for CATENOID (its profile divides
    by [0.3 * radius]). *)
Theorem zero_radius_is_not_finite (count : nat) (draws : nat -> R) :
  (0 < count)%nat ->
  ShapeGenerator.generate ShapeGenerator.FLOWER count 0 draws = None /\
  ShapeGenerator.generate ShapeGenerator.CATENOID count 0 draws = None.
Proof.
  intros Hc.
  assert (Hseq : seq 0 count <> []).
  { destruct count; [lia | discriminate]. }
  unfold ShapeGenerator.generate, ShapeGenerator.generateShapePositions,
    ShapeGenerator.bind.
  split.
  - rewrite forEach_fails; [reflexivity | exact Hseq |].
    apply iteration_fails. intros i t tv n. apply flower_radius0.
  - rewrite forEach_fails; [reflexivity | exact Hseq |].
    apply iteration_fails. intros i t tv n. apply catenoid_radius0.
Qed.

Lemma zero_radius_is_not_finite_witness :
  ShapeGenerator.generate ShapeGenerator.FLOWER 1 0 (fun _ => 0.5) = None /\
  ShapeGenerator.generate ShapeGenerator.CATENOID 1 0 (fun _ => 0.5) = None.
Proof.
  apply (zero_radius_is_not_finite 1 (fun _ => 0.5)). lia.
Defined.

(* ================================================================== *)
(** [App]: the auto-morph timer and the paused audio loop *)

Section AppLogic.
Import ShapeGenerator App.

Lemma nextShapes_length (current : ShapeType) : length (nextShapes current) = 12%nat.
Proof. destruct current; reflexivity. Qed.

Lemma allShapes_complete (s : ShapeType) : In s allShapes.
Proof. destruct s; simpl; tauto. Qed.

Lemma nextShapes_spec (current s : ShapeType) :
  In s (nextShapes current) <-> s <> current.
Proof.
  unfold nextShapes. rewrite filter_In. split.
  - intros [_ H]. destruct (shape_eq_dec s current); [discriminate | assumption].
  - intros H. split; [apply allShapes_complete|].
    destruct (shape_eq_dec s current); [contradiction | reflexivity].
Qed.

Lemma fade_iter (k : nat) (v : R) :
  Nat.iter k fade (Some v) = Some (0.9 ^ k * v).
Proof.
  induction k as [|k IH]; simpl.
  - f_equal. ring.
  - rewrite IH. simpl. f_equal. decimals. field.
Qed.

Lemma fade_iter_nan (k : nat) : Nat.iter k fade None = None.
Proof. induction k as [|k IH]; simpl; [reflexivity | now rewrite IH]. Qed.

Lemma idleTicks_bands (k : nat) (service : AudioService.t) (prev : AudioService.Bands) :
  idleTicks k service prev
  = AudioService.mkBands (Nat.iter k fade (AudioService.bass prev))
                         (Nat.iter k fade (AudioService.mid prev))
                         (Nat.iter k fade (AudioService.treble prev)).
Proof.
  unfold idleTicks. induction k as [|k IH].
  - now destruct prev.
  - rewrite !Nat.iter_succ, IH. reflexivity.
Qed.

End AppLogic.

(** X21.  The auto-morph timer always changes the shape: for
    every current shape and every draw in [0, 1) it sets a shape, and that
    shape is not the current one. *)
Theorem autoMorph_changes_shape (current : ShapeGenerator.ShapeType) (u : R) :
  0 <= u < 1 ->
  exists s, App.autoMorph current u = Some s /\ s <> current.
Proof.
  intros Hu. unfold App.autoMorph. rewrite nextShapes_length.
  pose proof (floor_bounds (u * INR 12)) as Hf.
  set (k := floor (u * INR 12)) in *.
  rewrite (INR_IZR_INZ 12) in Hf. simpl Z.of_nat in Hf.
  assert (Hk : (0 <= k < 12)%Z).
  { split.
    - assert (-1 < k)%Z; [|lia]. apply lt_IZR.
      replace (IZR (-1)) with (-1) by reflexivity. lra.
    - apply lt_IZR. lra. }
  destruct (Z.ltb_spec k 0) as [Hneg|_]; [lia|].
  destruct (nth_error (App.nextShapes current) (Z.to_nat k)) as [s|] eqn:E.
  - exists s. split; [reflexivity|].
    apply nextShapes_spec. eapply nth_error_In; eauto.
  - apply nth_error_None in E. rewrite nextShapes_length in E. lia.
Qed.

Lemma autoMorph_changes_shape_witness :
  exists s, App.autoMorph ShapeGenerator.HEART 0.5 = Some s /\
            s <> ShapeGenerator.HEART.
Proof. apply (autoMorph_changes_shape ShapeGenerator.HEART 0.5). lra. Defined.

(** X22.  Every shape other than the current one
    can be chosen by the auto-morph timer: some draw in [0, 1) selects it. *)
Theorem autoMorph_reaches_every_other_shape (current s : ShapeGenerator.ShapeType) :
  s <> current ->
  exists u, 0 <= u < 1 /\ App.autoMorph current u = Some s.
Proof.
  intros Hs. apply nextShapes_spec in Hs.
  destruct (In_nth_error _ _ Hs) as (j & Hj).
  assert (Hlt : (j < 12)%nat).
  { rewrite <- (nextShapes_length current). apply nth_error_Some. congruence. }
  exists (INR j / 12).
  assert (Hj12 : 0 <= INR j <= 11).
  { split; [apply pos_INR|].
    assert (Hle : (j <= 11)%nat) by lia. apply le_INR in Hle.
    rewrite (INR_IZR_INZ 11) in Hle. simpl Z.of_nat in Hle. exact Hle. }
  split; [lra|].
  unfold App.autoMorph. rewrite nextShapes_length.
  replace (INR j / 12 * INR 12) with (INR j)
    by (rewrite (INR_IZR_INZ 12); simpl Z.of_nat; field).
  unfold floor. rewrite Int_part_INR.
  destruct (Z.ltb_spec (Z.of_nat j) 0) as [Hneg|_]; [lia|].
  now rewrite Nat2Z.id.
Qed.

Lemma autoMorph_reaches_every_other_shape_witness :
  exists u, 0 <= u < 1 /\
            App.autoMorph ShapeGenerator.HEART u = Some ShapeGenerator.ROSE.
Proof.
  apply (autoMorph_reaches_every_other_shape ShapeGenerator.HEART ShapeGenerator.ROSE).
  discriminate.
Defined.

(** X23.  While playback is paused the audio loop does not consult
    the audio service: after [k] ticks each band is [0.9^k] times its value
    at the pause.  A band that was not a number (bass after a short
    spectrum) stays so. *)
Theorem idle_bands_decay (k : nat) (service : AudioService.t) :
  (forall b m t,
      App.idleTicks k service (AudioService.mkBands (Some b) (Some m) (Some t))
      = AudioService.mkBands (Some (0.9 ^ k * b)) (Some (0.9 ^ k * m))
                             (Some (0.9 ^ k * t))) /\
  (forall m t,
      AudioService.bass
        (App.idleTicks k service (AudioService.mkBands None m t)) = None).
Proof.
  split.
  - intros b m t. rewrite idleTicks_bands.
    cbn [AudioService.bass AudioService.mid AudioService.treble].
    now rewrite !fade_iter.
  - intros m t. rewrite idleTicks_bands.
    cbn [AudioService.bass]. apply fade_iter_nan.
Qed.

(* ================================================================== *)
(** [randomAttributes] and the vertex program *)

(** X24.  [randomAttributes] with draws in [0, 1) returns
    [count] scales, each between 0.5 and 1, and [3 * count] randomness
    components, each between 0 and 1.  The upper ends are attained: both
    arrays are [Float32Array]s, and for the largest double below 1 the
    stored scale and the stored randomness component are exactly 1. *)
Theorem randomAttributes_ranges :
  (forall (count : nat) (draws : nat -> R),
      (forall n, 0 <= draws n < 1) ->
      exists scales randomness n',
        Attributes.randomAttributes count draws 0%nat
        = Some ((scales, randomness), n') /\
        length scales = count /\
        length randomness = (count * 3)%nat /\
        (forall j, (j < count)%nat -> 0.5 <= nth j scales 0 <= 1) /\
        (forall j, (j < count * 3)%nat -> 0 <= nth j randomness 0 <= 1)) /\
  (let u := S754_finite false 9007199254740991 (-53) in
   Binary64.ltb u (Binary64.ofZ 1) = true /\
   Binary64.near 0 1 (Attributes.scale32 u) = true /\
   Binary64.near 0 1 (Attributes.randomness32 u) = true).
Proof.
  split; [|vm_compute; repeat split].
  intros count draws Hdraws.
  pose (Inv := fun (k : nat) (st : list R * list R) =>
                 length (fst st) = count /\
                 length (snd st) = (count * 3)%nat /\
                 (forall j, (j < k)%nat -> 0.5 <= nth j (fst st) 0 <= 1) /\
                 (forall j, (j < k * 3)%nat -> 0 <= nth j (snd st) 0 <= 1)).
  assert (H : ShapeGenerator.yields
                (ShapeGenerator.forEach Attributes.attributeStep (seq 0 count)
                   (repeat 0 count, repeat 0 (count * 3))) draws (Inv count)).
  { apply forEach_invariant with (bound := count); [| |lia].
    - unfold Inv. cbn [fst snd].
      split; [apply repeat_length|]. split; [apply repeat_length|].
      split; intros j Hj; lia.
    - intros i [sc rn] Hi (Hs & Hr & Hsc & Hrn). cbn [fst snd] in *.
      unfold Attributes.attributeStep. cbn [fst snd].
      eapply yields_bind; [apply (yields_random draws Hdraws) | intros u Hu; cbv beta in Hu; cbv zeta].
      eapply yields_bind; [apply (yields_random draws Hdraws) | intros r0 H0; cbv beta in H0; cbv zeta].
      eapply yields_bind; [apply (yields_random draws Hdraws) | intros r1 H1; cbv beta in H1; cbv zeta].
      eapply yields_bind; [apply (yields_random draws Hdraws) | intros r2 H2; cbv beta in H2; cbv zeta].
      apply yields_ret. unfold Inv. cbn [fst snd].
      split; [now rewrite upd_length|]. split; [now rewrite !upd_length|].
      split; intros j Hj.
      + destruct (Nat.eq_dec i j) as [<-|Hne].
        * rewrite nth_upd_same by lia. lra.
        * rewrite nth_upd_other by assumption. apply Hsc. lia.
      + destruct (Nat.eq_dec (i * 3 + 2) j) as [<-|Hne2].
        { rewrite nth_upd_same by (rewrite !upd_length; lia). lra. }
        rewrite nth_upd_other by assumption.
        destruct (Nat.eq_dec (i * 3 + 1) j) as [<-|Hne1].
        { rewrite nth_upd_same by (rewrite !upd_length; lia). lra. }
        rewrite nth_upd_other by assumption.
        destruct (Nat.eq_dec (i * 3) j) as [<-|Hne0].
        { rewrite nth_upd_same by lia. lra. }
        rewrite nth_upd_other by assumption. apply Hrn. lia. }
  destruct (H 0%nat) as ([sc rn] & n' & E & Hs & Hr & Hsc & Hrn).
  exists sc, rn, n'. unfold Attributes.randomAttributes.
  split; [exact E|]. split; [exact Hs|]. split; [exact Hr|]. split; assumption.
Qed.

Lemma randomAttributes_ranges_witness :
  exists scales randomness n',
    Attributes.randomAttributes 2 (fun _ => 0.5) 0%nat
    = Some ((scales, randomness), n') /\
    length scales = 2%nat /\
    length randomness = (2 * 3)%nat /\
    (forall j, (j < 2)%nat -> 0.5 <= nth j scales 0 <= 1) /\
    (forall j, (j < 2 * 3)%nat -> 0 <= nth j randomness 0 <= 1).
Proof.
  apply (proj1 randomAttributes_ranges 2%nat (fun _ => 0.5)). intros _. lra.
Defined.

Section Shader.
Import InkParticleShader.

Ltac clamp_cases :=
  unfold clamp, Rmax;
  match goal with |- context [Rle_dec ?a 0] => destruct (Rle_dec a 0) end;
  unfold Rmin;
  match goal with |- context [Rle_dec ?a 1] => destruct (Rle_dec a 1) end;
  lra.

Lemma clamp_unit (v : R) : 0 <= clamp v 0 1 <= 1.
Proof.
  unfold clamp, Rmin, Rmax.
  destruct (Rle_dec v 0); destruct (Rle_dec _ 1); lra.
Qed.

Lemma clamp_unit_monotone (v w : R) : v <= w -> clamp v 0 1 <= clamp w 0 1.
Proof.
  intros H. unfold clamp. apply Rle_min_compat_r, Rle_max_compat_r, H.
Qed.

Lemma hermite_range (t : R) : 0 <= t <= 1 -> 0 <= t * t * (3 - 2 * t) <= 1.
Proof.
  intros H. split.
  - apply Rmult_le_pos; [nra | lra].
  - assert (0 <= (1 - t) * (1 - t) * (1 + 2 * t))
      by (apply Rmult_le_pos; [nra | lra]).
    lra.
Qed.

Lemma hermite_monotone (a b : R) :
  0 <= a -> a <= b -> b <= 1 -> a * a * (3 - 2 * a) <= b * b * (3 - 2 * b).
Proof.
  intros Ha Hab Hb.
  assert (Hd : b * b * (3 - 2 * b) - a * a * (3 - 2 * a)
               = (b - a) * (3 * (a + b) - 2 * (a * a + a * b + b * b))) by ring.
  assert (a * a <= a) by nra.
  assert (b * b <= b) by nra.
  assert (a * b <= a) by nra.
  assert (0 <= 3 * (a + b) - 2 * (a * a + a * b + b * b)) by lra.
  assert (0 <= (b - a) * (3 * (a + b) - 2 * (a * a + a * b + b * b)))
    by (apply Rmult_le_pos; lra).
  lra.
Qed.

Lemma smoothstep_range (e0 e1 v : R) : 0 <= smoothstep e0 e1 v <= 1.
Proof. unfold smoothstep. apply hermite_range, clamp_unit. Qed.

Lemma unit_edges (v : R) : (v - 0.0) / (1.0 - 0.0) = v.
Proof. replace (1.0 - 0.0) with 1 by lra. lra. Qed.

Lemma smoothstep01_monotone (v w : R) :
  v <= w -> smoothstep 0.0 1.0 v <= smoothstep 0.0 1.0 w.
Proof.
  intros H. unfold smoothstep. rewrite !unit_edges.
  pose proof (clamp_unit v). pose proof (clamp_unit w).
  apply hermite_monotone; try lra.
  now apply clamp_unit_monotone.
Qed.

Lemma smoothstep01_low (v : R) : v <= 0 -> smoothstep 0.0 1.0 v = 0.
Proof.
  intros H. unfold smoothstep. rewrite unit_edges. clamp_cases.
Qed.

Lemma smoothstep01_high (v : R) : 1 <= v -> smoothstep 0.0 1.0 v = 1.
Proof.
  intros H. unfold smoothstep. rewrite unit_edges.
  replace (clamp v 0 1) with 1; [lra|]. clamp_cases.
Qed.

Lemma lengthXY_scale (v : vec3) (k : R) :
  0 <= k -> lengthXY (scale3 v k) = k * lengthXY v.
Proof.
  intros Hk. unfold lengthXY, scale3. cbn [px py].
  replace (px v * k * (px v * k) + py v * k * (py v * k))
    with ((k * k) * (px v * px v + py v * py v)) by ring.
  rewrite sqrt_mult_alt by nra. now rewrite sqrt_square.
Qed.

Lemma rotation_keeps_norm (x y a : R) :
  (x * cos a - y * sin a) * (x * cos a - y * sin a)
  + (x * sin a + y * cos a) * (x * sin a + y * cos a) = x * x + y * y.
Proof.
  replace ((x * cos a - y * sin a) * (x * cos a - y * sin a)
           + (x * sin a + y * cos a) * (x * sin a + y * cos a))
    with ((x * x + y * y) * (sin a * sin a + cos a * cos a)) by ring.
  rewrite trig_square. ring.
Qed.

Lemma lengthXY_twist (u : Uniforms) (v : vec3) :
  lengthXY (twist u v) = lengthXY v.
Proof.
  unfold twist, lengthXY. cbn [px py]. now rewrite rotation_keeps_norm.
Qed.

Lemma shapeScale_range (u : Uniforms) : 0.1 <= shapeScale u <= 1.9.
Proof.
  unfold shapeScale. pose proof (smoothstep_range 0.0 1.0 (uHandFactor u)). lra.
Qed.

Lemma length3_scale (v : vec3) (k : R) :
  0 <= k -> length3 (scale3 v k) = k * length3 v.
Proof.
  intros Hk. unfold length3, scale3. cbn [px py pz].
  replace (px v * k * (px v * k) + py v * k * (py v * k) + pz v * k * (pz v * k))
    with ((k * k) * (px v * px v + py v * py v + pz v * pz v)) by ring.
  rewrite sqrt_mult_alt by nra. now rewrite sqrt_square.
Qed.

End Shader.

(** X25.  The vertex program's [shapeScale] lies between 0.1 and
    1.9 for every [uHandFactor]; it is 0.1 for a factor of 0 or less, 1.9 for
    a factor of 1 or more, and it never decreases when the factor grows. *)
Theorem shapeScale_profile :
  (forall u, 0.1 <= InkParticleShader.shapeScale u <= 1.9) /\
  (forall u, InkParticleShader.uHandFactor u <= 0 ->
             InkParticleShader.shapeScale u = 0.1) /\
  (forall u, 1 <= InkParticleShader.uHandFactor u ->
             InkParticleShader.shapeScale u = 1.9) /\
  (forall u u', InkParticleShader.uHandFactor u <= InkParticleShader.uHandFactor u' ->
                InkParticleShader.shapeScale u <= InkParticleShader.shapeScale u').
Proof.
  repeat split.
  - apply shapeScale_range.
  - apply shapeScale_range.
  - intros u H. unfold InkParticleShader.shapeScale.
    rewrite smoothstep01_low by assumption. lra.
  - intros u H. unfold InkParticleShader.shapeScale.
    rewrite smoothstep01_high by assumption. lra.
  - intros u u' H. unfold InkParticleShader.shapeScale.
    pose proof (smoothstep01_monotone _ _ H). lra.
Qed.

Lemma shapeScale_profile_witness :
  InkParticleShader.shapeScale (InkParticleShader.mkUniforms 0 0 0 0 0 0 0 0) = 0.1 /\
  InkParticleShader.shapeScale (InkParticleShader.mkUniforms 0 0 0 0 0 0 1 0) = 1.9 /\
  InkParticleShader.shapeScale (InkParticleShader.mkUniforms 0 0 0 0 0 0 0 0)
  <= InkParticleShader.shapeScale (InkParticleShader.mkUniforms 0 0 0 0 0 0 1 0).
Proof.
  destruct shapeScale_profile as (_ & Hlow & Hhigh & Hmono).
  split; [apply Hlow; simpl; lra|]. split; [apply Hhigh; simpl; lra|].
  apply Hmono; simpl; lra.
Defined.

(** X26.  The gesture stage of the vertex program
    (scale, then twist) multiplies a particle's distance from the z axis by
    [shapeScale] exactly: the twist is a rotation about the z axis.  For a
    hand factor between 0 and 1 the z coordinate is the scaled one up to
    [2 * (1 - uHandFactor)], and for a factor of 0.9 or more the stage is the
    scaling alone. *)
Theorem handStage_keeps_axis_distance (u : InkParticleShader.Uniforms)
    (position : InkParticleShader.vec3) :
  InkParticleShader.lengthXY (InkParticleShader.handStage u position)
  = InkParticleShader.shapeScale u * InkParticleShader.lengthXY position /\
  (0 <= InkParticleShader.uHandFactor u <= 1 ->
   Rabs (InkParticleShader.pz (InkParticleShader.handStage u position)
         - InkParticleShader.shapeScale u * InkParticleShader.pz position)
   <= 2 * (1 - InkParticleShader.uHandFactor u)) /\
  (0.9 <= InkParticleShader.uHandFactor u ->
   InkParticleShader.handStage u position
   = InkParticleShader.scale3 position (InkParticleShader.shapeScale u)).
Proof.
  pose proof (shapeScale_range u) as Hs.
  unfold InkParticleShader.handStage.
  destruct (Rlt_dec (InkParticleShader.uHandFactor u) 0.9) as [Hlt|Hge].
  - split; [|split].
    + rewrite lengthXY_twist, lengthXY_scale by lra. reflexivity.
    + intros Hh. unfold InkParticleShader.twist, InkParticleShader.scale3.
      cbn [InkParticleShader.px InkParticleShader.py InkParticleShader.pz].
      match goal with |- context [_ * sin ?a * 2.0] =>
        pose proof (sin_range a) as Hsin; set (w := sin a) in * end.
      clearbody w. apply Rabs_le.
      set (h := InkParticleShader.uHandFactor u) in *. clearbody h.
      set (z := InkParticleShader.pz position * InkParticleShader.shapeScale u).
      replace (InkParticleShader.shapeScale u * InkParticleShader.pz position)
        with z by (unfold z; ring).
      clearbody z. split; nra.
    + intros H. lra.
  - split; [|split].
    + rewrite lengthXY_scale by lra. reflexivity.
    + intros Hh. unfold InkParticleShader.scale3. cbn [InkParticleShader.pz].
      apply Rabs_le. split; nra.
    + reflexivity.
Qed.

Lemma handStage_keeps_axis_distance_witness :
  let u := InkParticleShader.mkUniforms 0 0 0 0 0 0 0.5 0 in
  let p := InkParticleShader.mkVec3 1 2 3 in
  Rabs (InkParticleShader.pz (InkParticleShader.handStage u p)
        - InkParticleShader.shapeScale u * InkParticleShader.pz p)
  <= 2 * (1 - InkParticleShader.uHandFactor u).
Proof.
  apply (handStage_keeps_axis_distance
           (InkParticleShader.mkUniforms 0 0 0 0 0 0 0.5 0)
           (InkParticleShader.mkVec3 1 2 3)).
  simpl. lra.
Defined.

(** X27.  The idle breathing of the vertex program
    moves each coordinate by at most 0.2, at any time and position. *)
Theorem idleStage_moves_at_most_a_fifth (u : InkParticleShader.Uniforms)
    (pos : InkParticleShader.vec3) :
  Rabs (InkParticleShader.px (InkParticleShader.idleStage u pos)
        - InkParticleShader.px pos) <= 0.2 /\
  Rabs (InkParticleShader.py (InkParticleShader.idleStage u pos)
        - InkParticleShader.py pos) <= 0.2 /\
  Rabs (InkParticleShader.pz (InkParticleShader.idleStage u pos)
        - InkParticleShader.pz pos) <= 0.2.
Proof.
  unfold InkParticleShader.idleStage.
  cbn [InkParticleShader.px InkParticleShader.py InkParticleShader.pz].
  repeat split; apply Rabs_le;
    match goal with
    | |- context [sin ?a * 0.2] => pose proof (sin_range a); lra
    | |- context [cos ?a * 0.2] => pose proof (cos_range a); lra
    end.
Qed.

Section Shader2.
Import InkParticleShader.

Lemma length3_nonneg (v : vec3) : 0 <= length3 v.
Proof. apply sqrt_pos. Qed.

Lemma explode_scales (u : Uniforms) (aScale : R) (pos normal : vec3) :
  length3 pos <> 0 ->
  normalize3 pos = Some normal ->
  explode u aScale pos normal
  = scale3 pos (1 + uAudioLevel u * 5.0 * uSensitivity u * aScale / length3 pos).
Proof.
  intros HL E. unfold normalize3 in E.
  destruct (Req_dec_T (length3 pos) 0) as [|_]; [contradiction|].
  injection E as <-. unfold explode, scale3. cbn [px py pz].
  f_equal; field; assumption.
Qed.

Lemma Rpower_unit (b e : R) : 0 < b <= 1 -> 0 <= e -> 0 <= Rpower b e <= 1.
Proof.
  intros [Hb Hb1] He. unfold Rpower. split; [left; apply exp_pos|].
  rewrite <- exp_0. apply exp_le_mono.
  assert (ln b <= 0).
  { destruct Hb1 as [Hlt | ->]; [|rewrite ln_1; lra].
    left. rewrite <- ln_1. apply ln_increasing; lra. }
  nra.
Qed.

Lemma strength_range (d : R) :
  0 <= d <= 0.5 ->
  exists s, Math_pow (1.0 - d * 2.0) 2.5 = Some s /\ 0 <= s <= 1 /\
            (d = 0.5 -> s = 0) /\ (d = 0 -> s = 1).
Proof.
  intros Hd. unfold Math_pow.
  destruct (Rlt_dec 0 (1.0 - d * 2.0)) as [Hpos|Hnpos].
  - exists (Rpower (1.0 - d * 2.0) 2.5). split; [reflexivity|].
    split; [apply Rpower_unit; lra|]. split; [intros ->; lra|].
    intros ->. replace (1.0 - 0 * 2.0) with 1 by lra.
    unfold Rpower. rewrite ln_1, Rmult_0_r. apply exp_0.
  - destruct (Req_dec_T (1.0 - d * 2.0) 0) as [_|Hne]; [|lra].
    destruct (Rlt_dec 0 2.5) as [_|Hn]; [|lra].
    exists 0. split; [reflexivity|]. split; [lra|]. split; [reflexivity|].
    intros ->. lra.
Qed.

End Shader2.

(** X28.  The beat block of the vertex program, entered when
    [uAudioLevel > 0.01].  At the origin [normalize] is undefined.  Elsewhere
    the particle is pushed along its own direction, to the position scaled by
    [1 + push / |pos|] with [push = uAudioLevel * 5 * uSensitivity * aScale],
    and then one and the same offset of size at most [0.5 * uAudioLevel] is
    added to all three coordinates; with non-negative sensitivity and scale
    the push lengthens the position vector by exactly [push]. *)
Theorem explosion_is_radial (u : InkParticleShader.Uniforms) (aScale : R)
    (pos : InkParticleShader.vec3) :
  0.01 < InkParticleShader.uAudioLevel u ->
  (InkParticleShader.length3 pos = 0 ->
   InkParticleShader.audioStage u aScale pos = None) /\
  (InkParticleShader.length3 pos <> 0 ->
   let push := InkParticleShader.uAudioLevel u * 5.0
               * InkParticleShader.uSensitivity u * aScale in
   let out := InkParticleShader.scale3 pos
                (1 + push / InkParticleShader.length3 pos) in
   (exists v, Rabs v <= 0.5 * InkParticleShader.uAudioLevel u /\
      InkParticleShader.audioStage u aScale pos
      = Some (InkParticleShader.mkVec3 (InkParticleShader.px out + v)
                                       (InkParticleShader.py out + v)
                                       (InkParticleShader.pz out + v))) /\
   (0 <= InkParticleShader.uSensitivity u -> 0 <= aScale ->
    InkParticleShader.length3 out = InkParticleShader.length3 pos + push)).
Proof.
  intros Hlevel. split.
  - intros H0. unfold InkParticleShader.audioStage, InkParticleShader.normalize3.
    destruct (Rgt_dec (InkParticleShader.uAudioLevel u) 0.01) as [_|Hn]; [|lra].
    destruct (Req_dec_T (InkParticleShader.length3 pos) 0) as [_|Hn];
      [reflexivity | contradiction].
  - intros HL push out. split.
    + unfold InkParticleShader.audioStage.
      destruct (Rgt_dec (InkParticleShader.uAudioLevel u) 0.01) as [_|Hn]; [|lra].
      destruct (InkParticleShader.normalize3 pos) as [normal|] eqn:E.
      2:{ unfold InkParticleShader.normalize3 in E.
          destruct (Req_dec_T (InkParticleShader.length3 pos) 0);
            [contradiction | discriminate]. }
      rewrite (explode_scales u aScale pos normal HL E). fold push. fold out.
      unfold InkParticleShader.vibrate.
      match goal with |- context [sin ?a * _ * 0.5] =>
        exists (sin a * InkParticleShader.uAudioLevel u * 0.5);
        pose proof (sin_range a) as Hs; set (w := sin a) in *; clearbody w end.
      split; [|reflexivity]. apply Rabs_le.
      assert (0 <= (1 - w) * InkParticleShader.uAudioLevel u)
        by (apply Rmult_le_pos; lra).
      assert (0 <= (1 + w) * InkParticleShader.uAudioLevel u)
        by (apply Rmult_le_pos; lra).
      split; lra.
    + intros Hs Ha. unfold out.
      pose proof (length3_nonneg pos) as Hp.
      assert (HLpos : 0 < InkParticleShader.length3 pos) by lra.
      assert (Hpush : 0 <= push).
      { unfold push.
        apply Rmult_le_pos; [apply Rmult_le_pos; [lra | assumption] | assumption]. }
      assert (0 <= push / InkParticleShader.length3 pos).
      { apply Rmult_le_pos; [assumption | left; now apply Rinv_0_lt_compat]. }
      rewrite length3_scale by lra. field. assumption.
Qed.

Lemma explosion_is_radial_witness :
  let u := InkParticleShader.mkUniforms 0 12 1 0.5 0 1 1 0.5 in
  let pos := InkParticleShader.mkVec3 3 4 0 in
  let push := InkParticleShader.uAudioLevel u * 5.0
              * InkParticleShader.uSensitivity u * 1 in
  let out := InkParticleShader.scale3 pos
               (1 + push / InkParticleShader.length3 pos) in
  InkParticleShader.audioStage u 1 (InkParticleShader.mkVec3 0 0 0) = None /\
  (exists v, Rabs v <= 0.5 * InkParticleShader.uAudioLevel u /\
     InkParticleShader.audioStage u 1 pos
     = Some (InkParticleShader.mkVec3 (InkParticleShader.px out + v)
                                      (InkParticleShader.py out + v)
                                      (InkParticleShader.pz out + v))) /\
  InkParticleShader.length3 out = InkParticleShader.length3 pos + push.
Proof.
  cbv zeta.
  assert (Hlevel : 0.01 < InkParticleShader.uAudioLevel
                            (InkParticleShader.mkUniforms 0 12 1 0.5 0 1 1 0.5))
    by (simpl; lra).
  assert (H0 : InkParticleShader.length3 (InkParticleShader.mkVec3 0 0 0) = 0).
  { unfold InkParticleShader.length3. simpl.
    replace (0 * 0 + 0 * 0 + 0 * 0) with 0 by lra. apply sqrt_0. }
  assert (H5 : InkParticleShader.length3 (InkParticleShader.mkVec3 3 4 0) <> 0).
  { unfold InkParticleShader.length3. simpl.
    replace (3 * 3 + 4 * 4 + 0 * 0) with (5 * 5) by lra.
    rewrite sqrt_square; lra. }
  split.
  - exact (proj1 (explosion_is_radial
                    (InkParticleShader.mkUniforms 0 12 1 0.5 0 1 1 0.5) 1
                    (InkParticleShader.mkVec3 0 0 0) Hlevel) H0).
  - destruct (proj2 (explosion_is_radial
                       (InkParticleShader.mkUniforms 0 12 1 0.5 0 1 1 0.5) 1
                       (InkParticleShader.mkVec3 3 4 0) Hlevel) H5)
      as [Hshape Hlen].
    split; [exact Hshape|]. apply Hlen; simpl; lra.
Defined.

(** X29.  The fragment program draws a soft disc: with [d] the
    distance of [gl_PointCoord] from the sprite centre, the fragment is
    discarded when [d > 0.5]; otherwise [pow] is defined and the fragment has
    alpha [vAlpha * strength] with a strength between 0 and 1, which is 0 on
    the rim ([d = 0.5]) and 1 at the centre. *)
Theorem fragment_soft_disc (u : InkParticleShader.Uniforms)
    (uColorA uColorB uColorC vRandom : InkParticleShader.vec3) (alphaIn cx cy : R) :
  let d := sqrt ((cx - 0.5) * (cx - 0.5) + (cy - 0.5) * (cy - 0.5)) in
  let out := InkParticleShader.fragment u uColorA uColorB uColorC vRandom
               alphaIn cx cy in
  (0.5 < d -> out = InkParticleShader.Discard) /\
  (d <= 0.5 ->
   exists rgb strength,
     out = InkParticleShader.Color rgb (alphaIn * strength) /\
     0 <= strength <= 1 /\
     (d = 0.5 -> strength = 0) /\
     (d = 0 -> strength = 1)).
Proof.
  intros d out. unfold out, InkParticleShader.fragment. fold d.
  assert (Hd0 : 0 <= d) by apply sqrt_pos.
  destruct (Rgt_dec d 0.5) as [Hgt|Hle].
  - split; [reflexivity|]. intros H. unfold Rgt in Hgt. lra.
  - split; [intros H; unfold Rgt in Hle; lra|]. intros Hd.
    destruct (strength_range d (conj Hd0 Hd)) as (s & E & Hs & Hrim & Hcentre).
    rewrite E. eexists _, s. split; [reflexivity|]. auto.
Qed.

Lemma fragment_soft_disc_witness :
  exists rgb strength,
    InkParticleShader.fragment (InkParticleShader.mkUniforms 0 12 1 0 0 1 1 0)
      (InkParticleShader.mkVec3 1 1 1) (InkParticleShader.mkVec3 1 1 1)
      (InkParticleShader.mkVec3 1 1 1) (InkParticleShader.mkVec3 0 0 0)
      0.6 0.5 0.5
    = InkParticleShader.Color rgb (0.6 * strength) /\
    0 <= strength <= 1.
Proof.
  destruct (fragment_soft_disc (InkParticleShader.mkUniforms 0 12 1 0 0 1 1 0)
              (InkParticleShader.mkVec3 1 1 1) (InkParticleShader.mkVec3 1 1 1)
              (InkParticleShader.mkVec3 1 1 1) (InkParticleShader.mkVec3 0 0 0)
              0.6 0.5 0.5) as [_ H].
  destruct H as (rgb & s & E & Hs & _).
  - replace ((0.5 - 0.5) * (0.5 - 0.5) + (0.5 - 0.5) * (0.5 - 0.5)) with 0 by lra.
    rewrite sqrt_0. lra.
  - exists rgb, s. split; assumption.
Defined.

(** X30.  The vertex program with an open hand ([uHandFactor >= 1])
    and no beat ([uAudioLevel <= 0.01]): the position is defined and each of
    its coordinates is within 0.2 of 1.9 times the attribute's coordinate. *)
Theorem vertex_at_rest (u : InkParticleShader.Uniforms) (aScale : R)
    (position : InkParticleShader.vec3) :
  InkParticleShader.uAudioLevel u <= 0.01 ->
  1 <= InkParticleShader.uHandFactor u ->
  exists q,
    InkParticleShader.vertexPosition u aScale position = Some q /\
    Rabs (InkParticleShader.px q - 1.9 * InkParticleShader.px position) <= 0.2 /\
    Rabs (InkParticleShader.py q - 1.9 * InkParticleShader.py position) <= 0.2 /\
    Rabs (InkParticleShader.pz q - 1.9 * InkParticleShader.pz position) <= 0.2.
Proof.
  intros Hquiet Hopen.
  unfold InkParticleShader.vertexPosition, InkParticleShader.audioStage.
  destruct (Rgt_dec (InkParticleShader.uAudioLevel u) 0.01) as [Hgt|_];
    [unfold Rgt in Hgt; lra|].
  eexists. split; [reflexivity|].
  unfold InkParticleShader.handStage.
  destruct (Rlt_dec (InkParticleShader.uHandFactor u) 0.9) as [Hlt|_]; [lra|].
  assert (Hs : InkParticleShader.shapeScale u = 1.9).
  { unfold InkParticleShader.shapeScale, InkParticleShader.smoothstep.
    replace (InkParticleShader.clamp
               ((InkParticleShader.uHandFactor u - 0.0) / (1.0 - 0.0)) 0 1) with 1;
      [lra|].
    replace (1.0 - 0.0) with 1 by lra.
    unfold InkParticleShader.clamp, Rmax.
    destruct (Rle_dec _ 0); [lra|]. unfold Rmin.
    destruct (Rle_dec _ 1); lra. }
  rewrite Hs. unfold InkParticleShader.idleStage, InkParticleShader.scale3.
  cbn [InkParticleShader.px InkParticleShader.py InkParticleShader.pz].
  repeat split; apply Rabs_le;
    match goal with
    | |- context [sin ?a * 0.2] => pose proof (sin_range a); lra
    | |- context [cos ?a * 0.2] => pose proof (cos_range a); lra
    end.
Qed.

Lemma vertex_at_rest_witness :
  exists q,
    InkParticleShader.vertexPosition
      (InkParticleShader.mkUniforms 0 12 1 0 0 1 1 0) 1
      (InkParticleShader.mkVec3 1 2 3) = Some q /\
    Rabs (InkParticleShader.px q - 1.9 * 1) <= 0.2 /\
    Rabs (InkParticleShader.py q - 1.9 * 2) <= 0.2 /\
    Rabs (InkParticleShader.pz q - 1.9 * 3) <= 0.2.
Proof.
  apply (vertex_at_rest (InkParticleShader.mkUniforms 0 12 1 0 0 1 1 0) 1
           (InkParticleShader.mkVec3 1 2 3)); simpl; lra.
Defined.
